(** * Power calculator for two-proportion A/B tests

    A shallow embedding of [power-calculator-2.py]: the three closed-form
    functions [calculate_power], [calculate_mde], [calculate_sample_size],
    the allocation sweep [generate_treatment_comparison_data] and the
    optimal-point lookup of [main].

    Numbers.  Python floats are modelled by real numbers: no rounding error
    and no overflow.  Where a statement says which inputs return, it
    carries bounds ([1 / 10 ^ 9], [10 ^ 9]) inside which the float
    computation of the source stays finite and away from 0.  Python ints
    are [Z].  The values that
    [scipy.stats.norm] returns are numpy scalars, which can be infinite or
    NaN; they are kept ([npfloat]) because what the program does on invalid
    probabilities depends on them.  Python exceptions are explicit
    ([outcome]).

    The standard normal distribution function and its inverse are
    parameters [Phi] and [Phi_inv] of the embedding; the facts about them
    that a proof uses are collected in [standard_normal]. *)

From Stdlib Require Import Reals Lra Lia ZArith Bool List String.
Import ListNotations.
Open Scope R_scope.

(** ** The Python runtime *)

Inductive exception : Set :=
  | ZeroDivisionError
  | ValueError
  | OverflowError
  | KeyError.

Inductive outcome (A : Type) : Type :=
  | Returns (a : A)
  | Raises (e : exception).

Arguments Returns {A} a.
Arguments Raises {A} e.

Definition bind {A B : Type} (m : outcome A) (k : A -> outcome B) : outcome B :=
  match m with
  | Returns a => k a
  | Raises e => Raises e
  end.

Notation "x <- m ;; k" := (bind m (fun x => k))
  (at level 61, m at next level, right associativity).
Notation "' p <- m ;; k" := (bind m (fun p => k))
  (at level 61, p pattern, m at next level, right associativity).

(** [int(x)] of a float: truncation towards zero. *)
Definition py_int (x : R) : Z :=
  if Rle_dec 0 x then Zfloor x else Zceil x.

(** [round(x)] of a float with no digits: the nearest integer, a tie going
    to the even one. *)
Definition py_round (x : R) : Z :=
  let f := Zfloor x in
  let d := x - IZR f in
  if Rlt_dec d (1 / 2) then f
  else if Rlt_dec (1 / 2) d then (f + 1)%Z
  else if Z.even f then f else (f + 1)%Z.

(** [a / b] on Python numbers. *)
Definition py_div (a b : R) : outcome R :=
  if Req_EM_T b 0 then Raises ZeroDivisionError else Returns (a / b).

(** [math.sqrt]. *)
Definition math_sqrt (x : R) : outcome R :=
  if Rlt_dec x 0 then Raises ValueError else Returns (sqrt x).

Fixpoint range_from (len : nat) (start step : Z) : list Z :=
  match len with
  | O => []
  | S len' => start :: range_from len' (start + step) step
  end.

(** [list(range(start, stop, step))]; Python refuses [step = 0], which no
    call of the program uses. *)
Definition py_range (start stop step : Z) : list Z :=
  if (0 <? step)%Z
  then range_from (Z.to_nat ((stop - start + step - 1) / step)) start step
  else if (step <? 0)%Z
  then range_from (Z.to_nat ((start - stop - step - 1) / - step)) start step
  else [].

(** [for x in l: results.append(f(x))], stopping at the first exception. *)
Fixpoint for_each {A B : Type} (f : A -> outcome B) (l : list A) : outcome (list B) :=
  match l with
  | [] => Returns []
  | x :: l' => y <- f x ;; ys <- for_each f l' ;; Returns (y :: ys)
  end.

(** ** numpy scalars *)

Inductive npfloat : Type :=
  | Fin (r : R)
  | PInf
  | NInf
  | NaN.

Definition np_neg (x : npfloat) : npfloat :=
  match x with
  | Fin r => Fin (- r)
  | PInf => NInf
  | NInf => PInf
  | NaN => NaN
  end.

Definition np_add (x y : npfloat) : npfloat :=
  match x, y with
  | Fin a, Fin b => Fin (a + b)
  | NaN, _ | _, NaN => NaN
  | PInf, NInf | NInf, PInf => NaN
  | PInf, _ | _, PInf => PInf
  | NInf, _ | _, NInf => NInf
  end.

Definition np_sub (x y : npfloat) : npfloat := np_add x (np_neg y).

(** An infinity times the finite [a]. *)
Definition np_scale_inf (positive : bool) (a : R) : npfloat :=
  if Rlt_dec 0 a then (if positive then PInf else NInf)
  else if Rlt_dec a 0 then (if positive then NInf else PInf)
  else NaN.

Definition np_mul (x y : npfloat) : npfloat :=
  match x, y with
  | Fin a, Fin b => Fin (a * b)
  | NaN, _ | _, NaN => NaN
  | Fin a, PInf | PInf, Fin a => np_scale_inf true a
  | Fin a, NInf | NInf, Fin a => np_scale_inf false a
  | PInf, PInf | NInf, NInf => PInf
  | PInf, NInf | NInf, PInf => NInf
  end.

(** [x / d] for a numpy scalar [x] and a Python float [d]: numpy warns on a
    zero divisor and returns an infinity or NaN; it does not raise.  The
    only divisor of the program is a square, so a zero is [+0.0]. *)
Definition np_truediv (x : npfloat) (d : R) : npfloat :=
  match x with
  | Fin a =>
      if Req_EM_T d 0 then
        (if Rlt_dec 0 a then PInf else if Rlt_dec a 0 then NInf else NaN)
      else Fin (a / d)
  | PInf => if Rlt_dec d 0 then NInf else PInf
  | NInf => if Rlt_dec d 0 then PInf else NInf
  | NaN => NaN
  end.

(** [x ** 2] *)
Definition np_pow2 (x : npfloat) : npfloat := np_mul x x.

(** [round(x)] of a numpy scalar: the nearest integer as a Python int, a
    tie going to the even one; the conversion refuses an infinity and
    NaN. *)
Definition np_round (x : npfloat) : outcome Z :=
  match x with
  | Fin r => Returns (py_round r)
  | PInf | NInf => Raises OverflowError
  | NaN => Raises ValueError
  end.

(** Neither infinite nor NaN. *)
Definition is_finite (x : npfloat) : bool :=
  match x with
  | Fin _ => true
  | _ => false
  end.

(** [x < y]; false when either side is NaN. *)
Definition np_ltb (x y : npfloat) : bool :=
  match x, y with
  | Fin a, Fin b => if Rlt_dec a b then true else false
  | NInf, Fin _ | NInf, PInf | Fin _, PInf => true
  | _, _ => false
  end.

(** ** The data frame of the sweep *)

(** A row of the data frame: the sweep fills either the [sample_size] or
    the [mde] column, by the calculation type. *)
Inductive row : Type :=
  | SampleSizeRow (treatment_pct sample_size treatment_size control_size : Z)
  | MdeRow (treatment_pct : Z) (mde : npfloat) (treatment_size control_size : Z).

(** The [fixed_params] dict: a key that is absent is [None]. *)
Record params : Type := {
  param_mde : option R;
  param_power : option R;
  param_alpha : option R;
  param_n_total : option Z
}.

(** [d[key]] *)
Definition getitem {A : Type} (v : option A) : outcome A :=
  match v with
  | Some a => Returns a
  | None => Raises KeyError
  end.

(** *** What [main] reads off the data frame *)

Definition row_treatment_pct (r : row) : Z :=
  match r with
  | SampleSizeRow tp _ _ _ => tp
  | MdeRow tp _ _ _ => tp
  end.

(** [df["mde"]] *)
Definition column_mde (df : list row) : outcome (list npfloat) :=
  match df with
  | [] => Raises KeyError
  | _ =>
      for_each (fun r =>
        match r with
        | MdeRow _ m _ _ => Returns m
        | SampleSizeRow _ _ _ _ => Raises KeyError
        end) df
  end.

(** The scan of [Series.idxmin]: [best] is the position and value of the
    least entry so far; NaN entries are skipped; a later entry replaces
    the best one only when strictly smaller. *)
Fixpoint idxmin_scan (best : option (nat * npfloat)) (i : nat) (s : list npfloat)
  : option (nat * npfloat) :=
  match s with
  | [] => best
  | x :: s' =>
      let best' :=
        match x, best with
        | NaN, _ => best
        | _, None => Some (i, x)
        | _, Some (_, b) => if np_ltb x b then Some (i, x) else best
        end in
      idxmin_scan best' (S i) s'
  end.

(** [Series.idxmin()]: the label of the first occurrence of the minimum;
    the labels of the data frame are the positions 0, 1, ... *)
Definition idxmin (s : list npfloat) : outcome nat :=
  match idxmin_scan None 0 s with
  | Some (i, _) => Returns i
  | None => Raises ValueError
  end.

(** [df.loc[idx, col]] *)
Definition loc {A : Type} (df : list row) (idx : nat) (col : row -> outcome A)
  : outcome A :=
  match nth_error df idx with
  | Some r => col r
  | None => Raises KeyError
  end.

(** The MDE branch of the analysis tab: [min_idx], [opt_treatment] and
    [opt_mde]. *)
Definition optimal_mde_point (comparison_data : list row) : outcome (Z * npfloat) :=
  s <- column_mde comparison_data ;;
  min_idx <- idxmin s ;;
  opt_treatment <- loc comparison_data min_idx (fun r => Returns (row_treatment_pct r)) ;;
  opt_mde <- loc comparison_data min_idx (fun r =>
    match r with
    | MdeRow _ m _ _ => Returns m
    | SampleSizeRow _ _ _ _ => Raises KeyError
    end) ;;
  Returns (opt_treatment, opt_mde).

(** ** The formula engine *)

Section Engine.

(** The distribution function of the standard normal law and its
    quantile function on the open unit interval. *)
Variable Phi : R -> R.
Variable Phi_inv : R -> R.

(** [stats.norm.cdf] *)
Definition norm_cdf (x : npfloat) : npfloat :=
  match x with
  | Fin r => Fin (Phi r)
  | PInf => Fin 1
  | NInf => Fin 0
  | NaN => NaN
  end.

(** [stats.norm.ppf]: infinite at 0 and 1, NaN outside the unit
    interval. *)
Definition norm_ppf (q : R) : npfloat :=
  if Rlt_dec 0 q then
    if Rlt_dec q 1 then Fin (Phi_inv q)
    else if Req_EM_T q 1 then PInf else NaN
  else if Req_EM_T q 0 then NInf else NaN.

Definition calculate_power (n_total : Z) (treatment_pct mde alpha : R)
  : outcome (npfloat * Z * Z) :=
  let n1 := py_int (IZR n_total * treatment_pct / 100) in
  let n2 := (n_total - n1)%Z in
  if (n1 =? 0)%Z || (n2 =? 0)%Z then Returns (Fin 0, n1, n2)
  else
    let p_pooled := 0.5 in
    i1 <- py_div 1 (IZR n1) ;;
    i2 <- py_div 1 (IZR n2) ;;
    se <- math_sqrt (p_pooled * (1 - p_pooled) * (i1 + i2)) ;;
    let z_alpha := norm_ppf (1 - alpha / 2) in
    (* [mde/se] occurs twice in the source, with one outcome *)
    d <- py_div mde se ;;
    let power :=
      np_add (np_sub (Fin 1) (norm_cdf (np_sub z_alpha (Fin d))))
             (norm_cdf (np_sub (np_neg z_alpha) (Fin d))) in
    Returns (power, n1, n2).

Definition calculate_mde (n_total : Z) (treatment_pct power alpha : R)
  : outcome (npfloat * Z * Z) :=
  let n1 := py_int (IZR n_total * treatment_pct / 100) in
  let n2 := (n_total - n1)%Z in
  if (n1 =? 0)%Z || (n2 =? 0)%Z then Returns (Fin 1, n1, n2)
  else
    let p_pooled := 0.5 in
    i1 <- py_div 1 (IZR n1) ;;
    i2 <- py_div 1 (IZR n2) ;;
    se <- math_sqrt (p_pooled * (1 - p_pooled) * (i1 + i2)) ;;
    let z_alpha := norm_ppf (1 - alpha / 2) in
    let z_beta := norm_ppf power in
    let mde := np_mul (np_add z_alpha z_beta) (Fin se) in
    Returns (mde, n1, n2).

Definition calculate_sample_size (mde power treatment_pct alpha : R)
  : outcome (Z * Z * Z) :=
  let z_alpha := norm_ppf (1 - alpha / 2) in
  let z_beta := norm_ppf power in
  let p_pooled := 0.5 in
  let treatment_prop := treatment_pct / 100 in
  let term1 := np_pow2 (np_add z_alpha z_beta) in
  let term2 := p_pooled * (1 - p_pooled) in
  term3 <- py_div 1 (treatment_prop * (1 - treatment_prop)) ;;
  let n_total := np_truediv (np_mul (np_mul term1 (Fin term2)) (Fin term3)) (mde ^ 2) in
  n1 <- np_round (np_mul n_total (Fin treatment_prop)) ;;
  n2 <- np_round (np_mul n_total (Fin (1 - treatment_prop))) ;;
  let n_total := (n1 + n2)%Z in
  Returns (n_total, n1, n2).

(** *** The allocation sweep *)

Definition generate_treatment_comparison_data
    (calculation_type : string) (fixed_params : params) : outcome (list row) :=
  let treatment_percentages := py_range 5 96 5 in
  if String.eqb calculation_type "Sample Size" then
    mde <- getitem (param_mde fixed_params) ;;
    power <- getitem (param_power fixed_params) ;;
    alpha <- getitem (param_alpha fixed_params) ;;
    for_each (fun tp =>
      ' (n_total, n1, n2) <- calculate_sample_size (mde / 100) power (IZR tp) alpha ;;
      Returns (SampleSizeRow tp n_total n1 n2)) treatment_percentages
  else if String.eqb calculation_type "MDE" then
    n_total <- getitem (param_n_total fixed_params) ;;
    power <- getitem (param_power fixed_params) ;;
    alpha <- getitem (param_alpha fixed_params) ;;
    for_each (fun tp =>
      ' (mde, n1, n2) <- calculate_mde n_total (IZR tp) power alpha ;;
      Returns (MdeRow tp (np_mul mde (Fin 100)) n1 n2)) treatment_percentages
  else Returns [].

End Engine.

(** ** Derived quantities used in the statements *)

(** The standard error of [calculate_power] and [calculate_mde] for the
    group sizes [n1] and [n2]. *)
Definition std_error (n1 n2 : Z) : R :=
  sqrt (0.5 * (1 - 0.5) * (1 / IZR n1 + 1 / IZR n2)).

(** The power of the two-sided test at the standardised effect [delta],
    with critical value [z_alpha]: the expression that [calculate_power]
    returns. *)
Definition power_curve (Phi : R -> R) (z_alpha delta : R) : R :=
  1 - Phi (z_alpha - delta) + Phi (- z_alpha - delta).

(** [r] is a returned result whose first component is the finite
    number [v]. *)
Definition returns_value (r : outcome (npfloat * Z * Z)) (v : R) : Prop :=
  exists n1 n2 : Z, r = Returns (Fin v, n1, n2).

(** What [calculate_power] returns for the group sizes [n1] and [n2],
    with both branches of its guard. *)
Definition power_of_sizes (Phi : R -> R) (z_alpha mde : R) (n1 n2 : Z) : R :=
  if (n1 =? 0)%Z || (n2 =? 0)%Z then 0
  else power_curve Phi z_alpha (mde / std_error n1 n2).

(** The sample size for a design, fed back into [calculate_power]. *)
Definition round_trip_power (Phi Phi_inv : R -> R) (mde power treatment_pct alpha : R)
  : outcome npfloat :=
  ' (n_total, _, _) <- calculate_sample_size Phi_inv mde power treatment_pct alpha ;;
  ' (power', _, _) <- calculate_power Phi Phi_inv n_total treatment_pct mde alpha ;;
  Returns power'.

(** The sample-size rule in the words of the specification: the raw
    closed-form total, the two rounded group sizes and their sum. *)
Definition spec_nTotal_raw (zAlpha zBeta frac mde : R) : R :=
  (zAlpha + zBeta) ^ 2 * 0.25 / (frac * (1 - frac)) / mde ^ 2.

Definition spec_sample_size (Phi_inv : R -> R) (mde power frac alpha : R) : Z * Z * Z :=
  let zAlpha := Phi_inv (1 - alpha / 2) in
  let zBeta := Phi_inv power in
  let nTotal_raw := spec_nTotal_raw zAlpha zBeta frac mde in
  let n1 := py_round (nTotal_raw * frac) in
  let n2 := py_round (nTotal_raw * (1 - frac)) in
  ((n1 + n2)%Z, n1, n2).

(** *** The scenario of the sweep *)

(** The parameters of the scenario: 2000 units, power 0.8, alpha 0.05. *)
Definition scenario : params :=
  {| param_mde := None;
     param_power := Some 0.8;
     param_alpha := Some 0.05;
     param_n_total := Some 2000%Z |}.

(** The row of the sweep at [tp] percent. *)
Definition scenario_mde (Phi_inv : R -> R) (tp : Z) : R :=
  (Phi_inv (1 - 0.05 / 2) + Phi_inv 0.8) * std_error (20 * tp) (2000 - 20 * tp) * 100.

Definition scenario_row (Phi_inv : R -> R) (tp : Z) : row :=
  MdeRow tp (Fin (scenario_mde Phi_inv tp)) (20 * tp) (2000 - 20 * tp).

(** ** The standard normal distribution *)

(** What the proofs use of the standard normal distribution function
    [Phi] and of its quantile function [Phi_inv]: [Phi] takes its values
    strictly between 0 and 1 and is increasing, the law is symmetric about
    0, its density decreases on the positive half-line ([Phi] is concave
    there), and [Phi_inv] inverts [Phi]. *)
Record standard_normal (Phi Phi_inv : R -> R) : Prop := {
  Phi_range : forall x, 0 < Phi x < 1;
  Phi_increasing : forall x y, x < y -> Phi x < Phi y;
  Phi_symmetric : forall x, Phi (- x) = 1 - Phi x;
  Phi_concave : forall x y w,
    0 <= x <= y -> 0 <= w -> Phi (y + w) - Phi y <= Phi (x + w) - Phi x;
  Phi_inv_Phi : forall x, Phi_inv (Phi x) = x;
  Phi_Phi_inv : forall p, 0 < p < 1 -> Phi (Phi_inv p) = p
}.

(** A second law with these properties, whose distribution and quantile
    functions are algebraic: the examples are evaluated with it. *)
Definition softsign_cdf (x : R) : R := 1 / 2 + x / (2 * (1 + Rabs x)).

Definition softsign_ppf (p : R) : R := (2 * p - 1) / (1 - Rabs (2 * p - 1)).

(** ** The other readings of [main] *)

(** [df["sample_size"]]: a column of integers, its entries read as
    numbers. *)
Definition column_sample_size (df : list row) : outcome (list npfloat) :=
  match df with
  | [] => Raises KeyError
  | _ =>
      for_each (fun r =>
        match r with
        | SampleSizeRow _ n _ _ => Returns (Fin (IZR n))
        | MdeRow _ _ _ _ => Raises KeyError
        end) df
  end.

(** The sample-size branch of the analysis tab: [min_idx],
    [opt_treatment] and [opt_sample]. *)
Definition optimal_sample_size_point (comparison_data : list row) : outcome (Z * Z) :=
  s <- column_sample_size comparison_data ;;
  min_idx <- idxmin s ;;
  opt_treatment <- loc comparison_data min_idx (fun r => Returns (row_treatment_pct r)) ;;
  opt_sample <- loc comparison_data min_idx (fun r =>
    match r with
    | SampleSizeRow _ n _ _ => Returns n
    | MdeRow _ _ _ _ => Raises KeyError
    end) ;;
  Returns (opt_treatment, opt_sample).

(** [min(power, 1.0)], the value that the power tab hands to the progress
    bar: the second argument is taken only when it is smaller. *)
Definition progress_value (power : npfloat) : npfloat :=
  if np_ltb (Fin 1) power then Fin 1 else power.

(** The row that belongs to the percentage [100 - tp], with the two
    groups exchanged. *)
Definition mirror_row (r : row) : row :=
  match r with
  | SampleSizeRow tp n n1 n2 => SampleSizeRow (100 - tp) n n2 n1
  | MdeRow tp m n1 n2 => MdeRow (100 - tp) m n2 n1
  end.

(** *** The rows that the sweeps produce *)

(** The row of the MDE sweep at [tp] percent of [n] units: the treatment
    group is the integer quotient [n * tp / 100]. *)
Definition mde_sweep_row (Phi_inv : R -> R) (n : Z) (power alpha : R) (tp : Z) : row :=
  let n1 := (n * tp / 100)%Z in
  let n2 := (n - n1)%Z in
  MdeRow tp
    (Fin ((Phi_inv (1 - alpha / 2) + Phi_inv power) * std_error n1 n2 * 100)) n1 n2.

(** The row of the sample-size sweep at [tp] percent, for an effect of
    [mde] percentage points. *)
Definition sample_size_sweep_row (Phi_inv : R -> R) (mde power alpha : R) (tp : Z) : row :=
  let '(n, n1, n2) := spec_sample_size Phi_inv (mde / 100) power (IZR tp / 100) alpha in
  SampleSizeRow tp n n1 n2.

(** The total of a sample-size row, as a number. *)
Definition sample_size_sweep_total (Phi_inv : R -> R) (mde power alpha : R) (tp : Z) : R :=
  let '(n, _, _) := spec_sample_size Phi_inv (mde / 100) power (IZR tp / 100) alpha in
  IZR n.

(** * Properties *)

(** ** The Python runtime *)

Lemma Rabs_le_between (a b : R) : Rabs a <= b -> - b <= a <= b.
Proof. unfold Rabs. destruct (Rcase_abs a); lra. Qed.

Lemma py_int_nonneg (x : R) : 0 <= x -> py_int x = Zfloor x.
Proof.
  intros Hx. unfold py_int. destruct (Rle_dec 0 x); [reflexivity | contradiction].
Qed.

Lemma Zceil_IZR (k : Z) : Zceil (IZR k) = k.
Proof. apply Zceil_eq. lra. Qed.

Lemma py_int_IZR (k : Z) : py_int (IZR k) = k.
Proof.
  unfold py_int. destruct (Rle_dec 0 (IZR k)).
  - apply ZfloorZ.
  - apply Zceil_IZR.
Qed.

Lemma py_int_eq (k : Z) (x : R) : 0 <= x -> IZR k <= x < IZR k + 1 -> py_int x = k.
Proof.
  intros Hx Hk. rewrite py_int_nonneg by assumption. now apply Zfloor_eq.
Qed.

Lemma py_round_IZR (k : Z) : py_round (IZR k) = k.
Proof.
  unfold py_round. rewrite ZfloorZ.
  destruct (Rlt_dec (IZR k - IZR k) (1 / 2)); [reflexivity | lra].
Qed.

(** [round] is within one half of its argument. *)
Lemma py_round_near (x : R) : Rabs (IZR (py_round x) - x) <= 1 / 2.
Proof.
  unfold py_round.
  pose proof (Zfloor_bound x) as [Hlo Hhi].
  destruct (Rlt_dec (x - IZR (Zfloor x)) (1 / 2)) as [Hd | Hd].
  - apply Rabs_le. lra.
  - assert (Hup : Rabs (IZR (Zfloor x + 1) - x) <= 1 / 2)
      by (rewrite plus_IZR; apply Rabs_le; simpl; lra).
    destruct (Rlt_dec (1 / 2) (x - IZR (Zfloor x))); [exact Hup |].
    destruct (Z.even (Zfloor x)); [apply Rabs_le; lra | exact Hup].
Qed.

Lemma py_round_zero (x : R) : Rabs x < 1 / 2 -> py_round x = 0%Z.
Proof.
  intros Hx. apply Rabs_def2 in Hx.
  pose proof (py_round_near x) as Hn. apply Rabs_le_between in Hn.
  assert (H1 : -1 < IZR (py_round x) < 1) by lra.
  destruct H1 as [Hlo Hhi]. apply lt_IZR in Hlo, Hhi. lia.
Qed.

Lemma py_div_nonzero (a b : R) : b <> 0 -> py_div a b = Returns (a / b).
Proof.
  intros Hb. unfold py_div. destruct (Req_EM_T b 0); [contradiction | reflexivity].
Qed.

Lemma py_div_zero (a : R) : py_div a 0 = Raises ZeroDivisionError.
Proof.
  unfold py_div. destruct (Req_EM_T 0 0); [reflexivity | contradiction].
Qed.

Lemma math_sqrt_nonneg (x : R) : 0 <= x -> math_sqrt x = Returns (sqrt x).
Proof.
  intros Hx. unfold math_sqrt. destruct (Rlt_dec x 0); [lra | reflexivity].
Qed.

Lemma range_5_96_5 :
  py_range 5 96 5 = [5; 10; 15; 20; 25; 30; 35; 40; 45; 50; 55; 60; 65; 70; 75; 80; 85; 90; 95]%Z.
Proof. reflexivity. Qed.

(** ** The formula engine: how the three functions evaluate *)

(** Splits a [bind] of the goal or of the hypothesis [H] on the outcome
    of its first computation. *)
Ltac bind_cases H :=
  repeat match type of H with
  | context [bind ?m _] =>
      let E := fresh "E" in
      destruct m eqn:E; cbn [bind] in H; [| discriminate H]
  end.

Section Evaluation.

Variables Phi Phi_inv : R -> R.

Lemma norm_ppf_unit (q : R) : 0 < q < 1 -> norm_ppf Phi_inv q = Fin (Phi_inv q).
Proof.
  intros [H0 H1]. unfold norm_ppf.
  destruct (Rlt_dec 0 q); [| contradiction].
  destruct (Rlt_dec q 1); [reflexivity | contradiction].
Qed.

Lemma std_error_pos (n1 n2 : Z) : (0 < n1)%Z -> (0 < n2)%Z -> 0 < std_error n1 n2.
Proof.
  intros H1 H2. apply IZR_lt in H1, H2. unfold std_error. apply sqrt_lt_R0.
  assert (0 < 1 / IZR n1) by (apply Rdiv_lt_0_compat; lra).
  assert (0 < 1 / IZR n2) by (apply Rdiv_lt_0_compat; lra).
  nra.
Qed.

(** The group sizes that [calculate_power] and [calculate_mde] derive. *)
Lemma calculate_power_sizes (n_total : Z) (treatment_pct mde alpha : R) p n1 n2 :
  calculate_power Phi Phi_inv n_total treatment_pct mde alpha = Returns (p, n1, n2) ->
  n1 = py_int (IZR n_total * treatment_pct / 100) /\ n2 = (n_total - n1)%Z.
Proof.
  unfold calculate_power. intros H.
  destruct (_ || _); [now inversion H |].
  bind_cases H. now inversion H.
Qed.

Lemma calculate_mde_sizes (n_total : Z) (treatment_pct power alpha : R) m n1 n2 :
  calculate_mde Phi_inv n_total treatment_pct power alpha = Returns (m, n1, n2) ->
  n1 = py_int (IZR n_total * treatment_pct / 100) /\ n2 = (n_total - n1)%Z.
Proof.
  unfold calculate_mde. intros H.
  destruct (_ || _); [now inversion H |].
  bind_cases H. now inversion H.
Qed.

(** An empty group: the guard answers before anything else is computed. *)
Lemma calculate_power_degenerate (n_total : Z) (treatment_pct mde alpha : R) :
  let n1 := py_int (IZR n_total * treatment_pct / 100) in
  let n2 := (n_total - n1)%Z in
  n1 = 0%Z \/ n2 = 0%Z ->
  calculate_power Phi Phi_inv n_total treatment_pct mde alpha = Returns (Fin 0, n1, n2).
Proof.
  intros n1 n2 H. unfold calculate_power. fold n1. fold n2.
  replace ((n1 =? 0)%Z || (n2 =? 0)%Z) with true; [reflexivity |].
  symmetry. apply orb_true_iff. rewrite !Z.eqb_eq. exact H.
Qed.

Lemma calculate_mde_degenerate (n_total : Z) (treatment_pct power alpha : R) :
  let n1 := py_int (IZR n_total * treatment_pct / 100) in
  let n2 := (n_total - n1)%Z in
  n1 = 0%Z \/ n2 = 0%Z ->
  calculate_mde Phi_inv n_total treatment_pct power alpha = Returns (Fin 1, n1, n2).
Proof.
  intros n1 n2 H. unfold calculate_mde. fold n1. fold n2.
  replace ((n1 =? 0)%Z || (n2 =? 0)%Z) with true; [reflexivity |].
  symmetry. apply orb_true_iff. rewrite !Z.eqb_eq. exact H.
Qed.

(** Two groups of positive sizes: the standard error is defined and
    positive, and the formula is evaluated. *)
Lemma guard_false (n1 n2 : Z) :
  (0 < n1)%Z -> (0 < n2)%Z -> (n1 =? 0)%Z || (n2 =? 0)%Z = false.
Proof.
  intros H1 H2. apply orb_false_iff. split; apply Z.eqb_neq; lia.
Qed.

Lemma calculate_power_regular (n_total : Z) (treatment_pct mde alpha : R) :
  let n1 := py_int (IZR n_total * treatment_pct / 100) in
  let n2 := (n_total - n1)%Z in
  (0 < n1)%Z -> (0 < n2)%Z -> 0 < alpha < 2 ->
  calculate_power Phi Phi_inv n_total treatment_pct mde alpha =
  Returns (Fin (power_curve Phi (Phi_inv (1 - alpha / 2)) (mde / std_error n1 n2)),
           n1, n2).
Proof.
  intros n1 n2 H1 H2 Ha. unfold calculate_power. fold n1. fold n2.
  rewrite guard_false by assumption.
  pose proof (std_error_pos n1 n2 H1 H2) as Hse.
  pose proof (IZR_lt _ _ H1). pose proof (IZR_lt _ _ H2).
  rewrite !py_div_nonzero by lra. cbn [bind].
  rewrite math_sqrt_nonneg.
  2:{ assert (0 < 1 / IZR n1) by (apply Rdiv_lt_0_compat; lra).
      assert (0 < 1 / IZR n2) by (apply Rdiv_lt_0_compat; lra). nra. }
  cbn [bind]. fold (std_error n1 n2).
  rewrite py_div_nonzero by lra. cbn [bind].
  rewrite norm_ppf_unit by lra. reflexivity.
Qed.

Lemma calculate_mde_regular (n_total : Z) (treatment_pct power alpha : R) :
  let n1 := py_int (IZR n_total * treatment_pct / 100) in
  let n2 := (n_total - n1)%Z in
  (0 < n1)%Z -> (0 < n2)%Z -> 0 < alpha < 2 -> 0 < power < 1 ->
  calculate_mde Phi_inv n_total treatment_pct power alpha =
  Returns (Fin ((Phi_inv (1 - alpha / 2) + Phi_inv power) * std_error n1 n2), n1, n2).
Proof.
  intros n1 n2 H1 H2 Ha Hp. unfold calculate_mde. fold n1. fold n2.
  rewrite guard_false by assumption.
  pose proof (IZR_lt _ _ H1). pose proof (IZR_lt _ _ H2).
  rewrite !py_div_nonzero by lra. cbn [bind].
  rewrite math_sqrt_nonneg.
  2:{ assert (0 < 1 / IZR n1) by (apply Rdiv_lt_0_compat; lra).
      assert (0 < 1 / IZR n2) by (apply Rdiv_lt_0_compat; lra). nra. }
  cbn [bind]. fold (std_error n1 n2).
  rewrite !norm_ppf_unit by lra. reflexivity.
Qed.

End Evaluation.

(** ** Finite and non-finite numpy scalars *)

Lemma is_finite_add (x y : npfloat) :
  is_finite (np_add x y) = is_finite x && is_finite y.
Proof. destruct x, y; reflexivity. Qed.

Lemma is_finite_scale_inf (s : bool) (a : R) : is_finite (np_scale_inf s a) = false.
Proof.
  unfold np_scale_inf. destruct (Rlt_dec 0 a); [now destruct s |].
  destruct (Rlt_dec a 0); [now destruct s | reflexivity].
Qed.

Lemma is_finite_mul_py (x : npfloat) (c : R) :
  is_finite (np_mul x (Fin c)) = is_finite x.
Proof. destruct x; cbn; auto using is_finite_scale_inf. Qed.

Lemma is_finite_pow2 (x : npfloat) : is_finite (np_pow2 x) = is_finite x.
Proof. destruct x; reflexivity. Qed.

Lemma is_finite_truediv (x : npfloat) (d : R) :
  is_finite (np_truediv x d) = is_finite x && (if Req_EM_T d 0 then false else true).
Proof.
  destruct x as [a | | |]; cbn.
  - destruct (Req_EM_T d 0); [| reflexivity].
    destruct (Rlt_dec 0 a); [reflexivity |]. now destruct (Rlt_dec a 0).
  - now destruct (Rlt_dec d 0).
  - now destruct (Rlt_dec d 0).
  - reflexivity.
Qed.

Lemma is_finite_ppf (Phi_inv : R -> R) (q : R) :
  is_finite (norm_ppf Phi_inv q) = true <-> 0 < q < 1.
Proof.
  unfold norm_ppf. split.
  - destruct (Rlt_dec 0 q).
    + destruct (Rlt_dec q 1); [now auto |].
      destruct (Req_EM_T q 1); discriminate.
    + destruct (Req_EM_T q 0); discriminate.
  - intros [H0 H1]. destruct (Rlt_dec 0 q); [| contradiction].
    destruct (Rlt_dec q 1); [reflexivity | contradiction].
Qed.

Lemma np_round_returns (x : npfloat) :
  (exists k, np_round x = Returns k) <-> is_finite x = true.
Proof.
  destruct x; cbn; split; intros H; try discriminate; eauto;
    destruct H as [k H]; discriminate.
Qed.

Lemma np_round_raises (x : npfloat) :
  is_finite x = false ->
  np_round x = Raises OverflowError \/ np_round x = Raises ValueError.
Proof. destruct x; cbn; intros H; try discriminate; auto. Qed.

(** ** [calculate_sample_size] *)

Section SampleSize.

Variable Phi_inv : R -> R.

Lemma proportion_product_zero (treatment_pct : R) :
  treatment_pct / 100 * (1 - treatment_pct / 100) = 0 <->
  treatment_pct = 0 \/ treatment_pct = 100.
Proof.
  split.
  - intros H. apply Rmult_integral in H. destruct H; [left | right]; lra.
  - intros [-> | ->]; lra.
Qed.

(** With finite critical values, a proportion other than 0 and 1 and an
    effect other than 0, the function returns what the specification
    describes. *)
Lemma calculate_sample_size_regular (mde power treatment_pct alpha : R) :
  mde <> 0 -> 0 < power < 1 -> 0 < alpha < 2 ->
  treatment_pct <> 0 -> treatment_pct <> 100 ->
  calculate_sample_size Phi_inv mde power treatment_pct alpha =
  Returns (spec_sample_size Phi_inv mde power (treatment_pct / 100) alpha).
Proof.
  intros Hm Hp Ha H0 H100. unfold calculate_sample_size.
  assert (Hf : treatment_pct / 100 * (1 - treatment_pct / 100) <> 0)
    by (rewrite proportion_product_zero; tauto).
  rewrite py_div_nonzero by exact Hf. cbn [bind].
  rewrite !norm_ppf_unit by lra. cbn [np_add np_pow2 np_mul np_truediv].
  assert (Hm2 : mde ^ 2 <> 0) by (apply pow_nonzero; exact Hm).
  destruct (Req_EM_T (mde ^ 2) 0); [contradiction |].
  cbn [np_mul np_round bind]. unfold spec_sample_size, spec_nTotal_raw.
  set (z := Phi_inv (1 - alpha / 2) + Phi_inv power).
  set (f := treatment_pct / 100) in *.
  replace (z * z * (0.5 * (1 - 0.5)) * (1 / (f * (1 - f))) / mde ^ 2)
    with (z ^ 2 * 0.25 / (f * (1 - f)) / mde ^ 2)
    by (replace (0.5 * (1 - 0.5)) with 0.25 by lra; unfold Rdiv; rewrite Rmult_1_l; ring).
  reflexivity.
Qed.

(** A proportion of 0 or 1: the division of [term3] fails. *)
Lemma calculate_sample_size_zero_division (mde power treatment_pct alpha : R) :
  treatment_pct = 0 \/ treatment_pct = 100 ->
  calculate_sample_size Phi_inv mde power treatment_pct alpha = Raises ZeroDivisionError.
Proof.
  intros H. apply proportion_product_zero in H. unfold calculate_sample_size.
  rewrite H, py_div_zero. reflexivity.
Qed.

(** A critical value that is not finite, or an effect of 0: the raw
    total is not finite and [round] refuses it. *)
Lemma calculate_sample_size_not_finite (mde power treatment_pct alpha : R) :
  treatment_pct <> 0 -> treatment_pct <> 100 ->
  mde = 0 \/ ~ 0 < power < 1 \/ ~ 0 < alpha < 2 ->
  calculate_sample_size Phi_inv mde power treatment_pct alpha = Raises OverflowError \/
  calculate_sample_size Phi_inv mde power treatment_pct alpha = Raises ValueError.
Proof.
  intros H0 H100 Hbad. unfold calculate_sample_size.
  assert (Hf : treatment_pct / 100 * (1 - treatment_pct / 100) <> 0)
    by (rewrite proportion_product_zero; tauto).
  rewrite py_div_nonzero by exact Hf. cbn [bind].
  match goal with
  | |- context [np_round ?x] =>
      assert (Hx : is_finite x = false); [| destruct (np_round_raises x Hx) as [-> | ->]; auto]
  end.
  rewrite is_finite_mul_py, is_finite_truediv, !is_finite_mul_py, is_finite_pow2,
    is_finite_add.
  destruct Hbad as [Hm | [Hp | Ha]].
  - subst mde. replace (0 ^ 2) with 0 by ring.
    destruct (Req_EM_T 0 0); [apply andb_false_r | contradiction].
  - destruct (is_finite (norm_ppf Phi_inv power)) eqn:E.
    + apply is_finite_ppf in E. contradiction.
    + now rewrite andb_false_r.
  - destruct (is_finite (norm_ppf Phi_inv (1 - alpha / 2))) eqn:E.
    + apply is_finite_ppf in E. exfalso. apply Ha. lra.
    + reflexivity.
Qed.

End SampleSize.

(** ** Consequences of the laws of the standard normal distribution *)

Section Normal.

Variables Phi Phi_inv : R -> R.
Hypothesis N : standard_normal Phi Phi_inv.

Lemma Phi_zero : Phi 0 = 1 / 2.
Proof.
  pose proof (Phi_symmetric _ _ N 0) as H. rewrite Ropp_0 in H. lra.
Qed.

Lemma Phi_nondecreasing (x y : R) : x <= y -> Phi x <= Phi y.
Proof.
  intros [H | ->]; [left; now apply (Phi_increasing _ _ N) | right; reflexivity].
Qed.

Lemma Phi_inv_increasing (p q : R) :
  0 < p -> p < q -> q < 1 -> Phi_inv p < Phi_inv q.
Proof.
  intros H0 Hpq H1. apply Rnot_le_lt. intros Hle.
  apply Phi_nondecreasing in Hle.
  rewrite !(Phi_Phi_inv _ _ N) in Hle by lra. lra.
Qed.

Lemma Phi_inv_nondecreasing (p q : R) :
  0 < p -> p <= q -> q < 1 -> Phi_inv p <= Phi_inv q.
Proof.
  intros H0 [H | ->] H1; [left; now apply Phi_inv_increasing | right; reflexivity].
Qed.

Lemma Phi_inv_half : Phi_inv (1 / 2) = 0.
Proof. rewrite <- Phi_zero. apply (Phi_inv_Phi _ _ N). Qed.

Lemma Phi_inv_symmetric (p : R) : 0 < p < 1 -> Phi_inv (1 - p) = - Phi_inv p.
Proof.
  intros Hp. rewrite <- (Phi_Phi_inv _ _ N p Hp) at 1.
  rewrite <- (Phi_symmetric _ _ N). apply (Phi_inv_Phi _ _ N).
Qed.

(** The critical value of a two-sided test is positive. *)
Lemma z_alpha_pos (alpha : R) : 0 < alpha < 1 -> 0 < Phi_inv (1 - alpha / 2).
Proof.
  intros Ha. rewrite <- Phi_inv_half. apply Phi_inv_increasing; lra.
Qed.

(** The far tail: [Phi (- z_alpha) = alpha / 2]. *)
Lemma Phi_neg_z_alpha (alpha : R) :
  0 < alpha < 2 -> Phi (- Phi_inv (1 - alpha / 2)) = alpha / 2.
Proof.
  intros Ha. rewrite (Phi_symmetric _ _ N), (Phi_Phi_inv _ _ N) by lra. lra.
Qed.

Lemma power_curve_even (z delta : R) :
  power_curve Phi z (- delta) = power_curve Phi z delta.
Proof.
  unfold power_curve.
  replace (z - - delta) with (- (- z - delta)) by lra.
  replace (- z - - delta) with (- (z - delta)) by lra.
  rewrite !(Phi_symmetric _ _ N). lra.
Qed.

Lemma power_curve_range (z delta : R) : 0 <= z -> 0 < power_curve Phi z delta <= 1.
Proof.
  intros Hz. unfold power_curve.
  pose proof (Phi_range _ _ N (z - delta)).
  pose proof (Phi_range _ _ N (- z - delta)).
  assert (Phi (- z - delta) <= Phi (z - delta)) by (apply Phi_nondecreasing; lra).
  lra.
Qed.

(** The power grows with the standardised effect: the mass that an
    interval loses on the near side exceeds what it gains on the far
    side, because the density decreases away from 0. *)
Lemma power_curve_monotone (z d1 d2 : R) :
  0 <= z -> 0 <= d1 <= d2 -> power_curve Phi z d1 <= power_curve Phi z d2.
Proof.
  intros Hz [H1 H12]. unfold power_curve.
  replace (- z - d1) with (- (z + d1)) by lra.
  replace (- z - d2) with (- (z + d2)) by lra.
  rewrite !(Phi_symmetric _ _ N).
  assert (Hgoal : Phi (z + d2) - Phi (z + d1) <= Phi (z - d1) - Phi (z - d2)); [| lra].
  destruct (Rle_lt_dec 0 (z - d2)) as [Ha | Ha].
  - replace (z + d2) with ((z + d1) + (d2 - d1)) by lra.
    replace (z - d1) with ((z - d2) + (d2 - d1)) by lra.
    apply (Phi_concave _ _ N); lra.
  - destruct (Rle_lt_dec (z - d1) 0) as [Hb | Hb].
    + replace (z - d1) with (- (d1 - z)) by lra.
      replace (z - d2) with (- (d2 - z)) by lra.
      rewrite !(Phi_symmetric _ _ N).
      assert (Phi (z + d2) - Phi (z + d1) <= Phi (d2 - z) - Phi (d1 - z)); [| lra].
      replace (z + d2) with ((z + d1) + (d2 - d1)) by lra.
      replace (d2 - z) with ((d1 - z) + (d2 - d1)) by lra.
      apply (Phi_concave _ _ N); lra.
    + assert (Hnear : Phi (2 * z) - Phi (z + d1) <= Phi (z - d1) - Phi 0).
      { replace (2 * z) with ((z + d1) + (z - d1)) by lra.
        replace (z - d1) with (0 + (z - d1)) at 2 by lra.
        apply (Phi_concave _ _ N); lra. }
      assert (Hfar : Phi (z + d2) - Phi (2 * z) <= Phi (d2 - z) - Phi 0).
      { replace (z + d2) with (2 * z + (d2 - z)) by lra.
        replace (d2 - z) with (0 + (d2 - z)) at 2 by lra.
        apply (Phi_concave _ _ N); lra. }
      replace (z - d2) with (- (d2 - z)) by lra.
      rewrite (Phi_symmetric _ _ N), Phi_zero in *. lra.
Qed.

End Normal.

(** ** The algebraic law satisfies the laws *)

Lemma Rdiv_neg_pos (x d : R) : x < 0 -> 0 < d -> x / d < 0.
Proof.
  intros Hx Hd. unfold Rdiv. pose proof (Rinv_0_lt_compat d Hd). nra.
Qed.

Lemma Rdiv_nonneg_pos (x d : R) : 0 <= x -> 0 < d -> 0 <= x / d.
Proof.
  intros Hx Hd. unfold Rdiv. pose proof (Rinv_0_lt_compat d Hd). nra.
Qed.

Lemma softsign_cdf_nonneg (x : R) : 0 <= x -> softsign_cdf x = 1 / 2 + x / (2 * (1 + x)).
Proof. intros H. unfold softsign_cdf. now rewrite Rabs_pos_eq. Qed.

Lemma softsign_cdf_neg (x : R) : x <= 0 -> softsign_cdf x = 1 / 2 + x / (2 * (1 - x)).
Proof. intros H. unfold softsign_cdf. rewrite Rabs_left1 by assumption. reflexivity. Qed.

Lemma softsign_ppf_upper (p : R) : 1 / 2 <= p -> softsign_ppf p = (2 * p - 1) / (2 - 2 * p).
Proof.
  intros H. unfold softsign_ppf. rewrite Rabs_pos_eq by lra. f_equal. lra.
Qed.

Lemma softsign_ppf_lower (p : R) : p <= 1 / 2 -> softsign_ppf p = (2 * p - 1) / (2 * p).
Proof.
  intros H. unfold softsign_ppf. rewrite Rabs_left1 by lra. f_equal. lra.
Qed.

Lemma softsign_cdf_increasing (x y : R) : x < y -> softsign_cdf x < softsign_cdf y.
Proof.
  intros Hxy.
  destruct (Rle_lt_dec 0 x) as [Hx | Hx]; destruct (Rle_lt_dec 0 y) as [Hy | Hy].
  - rewrite !softsign_cdf_nonneg by lra.
    apply Rplus_lt_compat_l.
    apply Rmult_lt_reg_r with (2 * (1 + x) * (2 * (1 + y))); [nra |].
    field_simplify; nra.
  - lra.
  - rewrite softsign_cdf_neg, softsign_cdf_nonneg by lra.
    apply Rplus_lt_compat_l.
    apply Rlt_le_trans with 0.
    + apply Rdiv_neg_pos; lra.
    + apply Rdiv_nonneg_pos; lra.
  - rewrite !softsign_cdf_neg by lra.
    apply Rplus_lt_compat_l.
    apply Rmult_lt_reg_r with (2 * (1 - x) * (2 * (1 - y))); [nra |].
    field_simplify; nra.
Qed.

Lemma softsign_standard_normal : standard_normal softsign_cdf softsign_ppf.
Proof.
  split.
  - intros x. destruct (Rle_lt_dec 0 x) as [Hx | Hx].
    + rewrite softsign_cdf_nonneg by lra.
      assert (0 <= x / (2 * (1 + x))) by (apply Rdiv_nonneg_pos; lra).
      assert (x / (2 * (1 + x)) < 1 / 2); [| lra].
      apply Rmult_lt_reg_r with (2 * (1 + x)); [lra |]. field_simplify; lra.
    + rewrite softsign_cdf_neg by lra.
      assert (x / (2 * (1 - x)) < 0)
        by (apply Rdiv_neg_pos; lra).
      assert (- (1 / 2) < x / (2 * (1 - x))); [| lra].
      apply Rmult_lt_reg_r with (2 * (1 - x)); [lra |]. field_simplify; lra.
  - exact softsign_cdf_increasing.
  - intros x. unfold softsign_cdf. rewrite Rabs_Ropp.
    assert (0 <= Rabs x) by apply Rabs_pos. field. lra.
  - intros x y w [Hx Hxy] Hw.
    rewrite !softsign_cdf_nonneg by lra.
    assert (H : forall a, 0 <= a ->
      (a + w) / (2 * (1 + (a + w))) - a / (2 * (1 + a)) = w / (2 * ((1 + a + w) * (1 + a))))
      by (intros a Ha; field; lra).
    assert ((y + w) / (2 * (1 + (y + w))) - y / (2 * (1 + y)) <=
            (x + w) / (2 * (1 + (x + w))) - x / (2 * (1 + x))); [| lra].
    rewrite !H by lra.
    apply Rmult_le_compat_l; [exact Hw |].
    apply Rinv_le_contravar; nra.
  - intros x. destruct (Rle_lt_dec 0 x) as [Hx | Hx].
    + rewrite softsign_cdf_nonneg by lra.
      assert (0 <= x / (2 * (1 + x))) by (apply Rdiv_nonneg_pos; lra).
      rewrite softsign_ppf_upper by lra. field. lra.
    + rewrite softsign_cdf_neg by lra.
      assert (x / (2 * (1 - x)) < 0)
        by (apply Rdiv_neg_pos; lra).
      rewrite softsign_ppf_lower by lra. field. lra.
  - intros p [H0 H1]. destruct (Rle_lt_dec (1 / 2) p) as [Hp | Hp].
    + rewrite softsign_ppf_upper by lra.
      assert (0 <= (2 * p - 1) / (2 - 2 * p)) by (apply Rdiv_nonneg_pos; lra).
      rewrite softsign_cdf_nonneg by lra. field. lra.
    + rewrite softsign_ppf_lower by lra.
      assert ((2 * p - 1) / (2 * p) < 0)
        by (apply Rdiv_neg_pos; lra).
      rewrite softsign_cdf_neg by lra. field. lra.
Qed.

(** Values of the algebraic law used by the examples. *)
Lemma softsign_ppf_075 : softsign_ppf 0.75 = 1.
Proof. rewrite softsign_ppf_upper by lra. lra. Qed.

(** One design evaluated in full with the algebraic law: critical values
    1 and 1, raw total 400, groups of 200. *)
Lemma softsign_sample_size_example :
  calculate_sample_size softsign_ppf 0.1 0.75 50 0.5 = Returns (400, 200, 200)%Z.
Proof.
  rewrite calculate_sample_size_regular by lra.
  unfold spec_sample_size, spec_nTotal_raw.
  replace (1 - 0.5 / 2) with 0.75 by lra. rewrite softsign_ppf_075.
  replace ((1 + 1) ^ 2 * 0.25 / (50 / 100 * (1 - 50 / 100)) / 0.1 ^ 2 * (50 / 100))
    with (IZR 200) by lra.
  replace ((1 + 1) ^ 2 * 0.25 / (50 / 100 * (1 - 50 / 100)) / 0.1 ^ 2 * (1 - 50 / 100))
    with (IZR 200) by lra.
  rewrite py_round_IZR. reflexivity.
Qed.

Lemma py_int_20_percent_1 : py_int (IZR 20 * 1 / 100) = 0%Z.
Proof. apply py_int_eq; lra. Qed.

(** * The claims *)

(** ** Group sizes *)

(** C2 (group size invariant): in every result that [calculate_power],
    [calculate_mde] or [calculate_sample_size] returns, the treatment count
    plus the control count is the total sample size: the input [n_total]
    for power and MDE, the returned total for the sample size. *)
Theorem group_size_invariant (Phi Phi_inv : R -> R) :
  (forall n_total treatment_pct mde alpha p n1 n2,
     calculate_power Phi Phi_inv n_total treatment_pct mde alpha = Returns (p, n1, n2) ->
     (n1 + n2)%Z = n_total) /\
  (forall n_total treatment_pct power alpha m n1 n2,
     calculate_mde Phi_inv n_total treatment_pct power alpha = Returns (m, n1, n2) ->
     (n1 + n2)%Z = n_total) /\
  (forall mde power treatment_pct alpha n_total n1 n2,
     calculate_sample_size Phi_inv mde power treatment_pct alpha = Returns (n_total, n1, n2) ->
     (n1 + n2)%Z = n_total).
Proof.
  repeat split.
  - intros * H. apply calculate_power_sizes in H. lia.
  - intros * H. apply calculate_mde_sizes in H. lia.
  - intros * H. unfold calculate_sample_size in H. bind_cases H. now inversion H.
Qed.

Lemma group_size_invariant_witness :
  calculate_power softsign_cdf softsign_ppf 20 1 0.1 0.05 = Returns (Fin 0, 0, 20)%Z /\
  calculate_mde softsign_ppf 20 1 0.8 0.05 = Returns (Fin 1, 0, 20)%Z /\
  calculate_sample_size softsign_ppf 0.1 0.75 50 0.5 = Returns (400, 200, 200)%Z /\
  (0 + 20 = 20)%Z /\ (0 + 20 = 20)%Z /\ (200 + 200 = 400)%Z.
Proof.
  assert (Hp : calculate_power softsign_cdf softsign_ppf 20 1 0.1 0.05
               = Returns (Fin 0, 0, 20)%Z).
  { rewrite calculate_power_degenerate; rewrite py_int_20_percent_1; auto. }
  assert (Hm : calculate_mde softsign_ppf 20 1 0.8 0.05 = Returns (Fin 1, 0, 20)%Z).
  { rewrite calculate_mde_degenerate; rewrite py_int_20_percent_1; auto. }
  destruct (group_size_invariant softsign_cdf softsign_ppf) as (Ip & Im & Is).
  exact (conj Hp (conj Hm (conj softsign_sample_size_example
          (conj (Ip _ _ _ _ _ _ _ Hp)
             (conj (Im _ _ _ _ _ _ _ Hm)
                (Is _ _ _ _ _ _ _ softsign_sample_size_example)))))).
Defined.

(** For a positive total and a percentage in [1, 99] the treatment group
    has no negative size and the control group has at least one member. *)
Lemma group_sizes_in_range (n_total : Z) (treatment_pct : R) :
  (1 <= n_total)%Z -> 1 <= treatment_pct <= 99 ->
  let n1 := Zfloor (IZR n_total * treatment_pct / 100) in
  (0 <= n1)%Z /\ (1 <= n_total - n1)%Z.
Proof.
  intros Hn Hpct n1. apply IZR_le in Hn.
  assert (Hx : 0 <= IZR n_total * treatment_pct / 100) by nra.
  split; [apply Zfloor_lub; exact Hx |].
  pose proof (Zfloor_bound (IZR n_total * treatment_pct / 100)) as [Hlo _].
  fold n1 in Hlo.
  assert (Hlt : IZR n1 < IZR n_total) by nra.
  apply lt_IZR in Hlt. lia.
Qed.

(** C10: for [n_total >= 1] and a treatment percentage in [1, 99] the
    control group [n2 = n_total - floor(n_total * treatment_pct / 100)] has
    at least one member, so every result of [calculate_power] and of
    [calculate_mde] has [n2 >= 1]: of the guard [n1 == 0 or n2 == 0] only
    the first half can hold. *)
Theorem control_group_not_empty (Phi Phi_inv : R -> R)
    (n_total : Z) (treatment_pct : R) :
  (1 <= n_total)%Z -> 1 <= treatment_pct <= 99 ->
  let n1 := Zfloor (IZR n_total * treatment_pct / 100) in
  let n2 := (n_total - n1)%Z in
  (0 <= n1)%Z /\ (1 <= n2)%Z /\
  ((n1 =? 0)%Z || (n2 =? 0)%Z = (n1 =? 0)%Z) /\
  (forall mde alpha p n1' n2',
     calculate_power Phi Phi_inv n_total treatment_pct mde alpha = Returns (p, n1', n2') ->
     n1' = n1 /\ n2' = n2) /\
  (forall power alpha m n1' n2',
     calculate_mde Phi_inv n_total treatment_pct power alpha = Returns (m, n1', n2') ->
     n1' = n1 /\ n2' = n2).
Proof.
  intros Hn Hpct n1 n2.
  assert (Hx : 0 <= IZR n_total * treatment_pct / 100)
    by (apply IZR_le in Hn; nra).
  destruct (group_sizes_in_range n_total treatment_pct Hn Hpct) as [H1 H2].
  fold n1 in H1, H2. fold n2 in H2.
  repeat split; try assumption.
  - replace (n2 =? 0)%Z with false by (symmetry; apply Z.eqb_neq; lia).
    apply orb_false_r.
  - apply calculate_power_sizes in H. rewrite py_int_nonneg in H by exact Hx. tauto.
  - apply calculate_power_sizes in H. rewrite py_int_nonneg in H by exact Hx.
    destruct H as [-> ->]. reflexivity.
  - apply calculate_mde_sizes in H. rewrite py_int_nonneg in H by exact Hx. tauto.
  - apply calculate_mde_sizes in H. rewrite py_int_nonneg in H by exact Hx.
    destruct H as [-> ->]. reflexivity.
Qed.

(** 20 units at 1 percent: the treatment group is empty, the control group
    is not. *)
Lemma control_group_not_empty_witness :
  let n1 := Zfloor (IZR 20 * 1 / 100) in
  let n2 := (20 - n1)%Z in
  n1 = 0%Z /\ (1 <= n2)%Z /\
  calculate_power softsign_cdf softsign_ppf 20 1 0.1 0.05 = Returns (Fin 0, n1, n2).
Proof.
  assert (Hf : Zfloor (IZR 20 * 1 / 100) = 0%Z) by (apply Zfloor_eq; lra).
  pose proof (control_group_not_empty softsign_cdf softsign_ppf 20 1
                ltac:(lia) ltac:(lra)) as H.
  cbv zeta in *. destruct H as (_ & H2 & _).
  repeat split.
  - exact Hf.
  - exact H2.
  - rewrite Hf. rewrite calculate_power_degenerate; rewrite py_int_20_percent_1; auto.
Defined.

(** C5 (degenerate design): when the truncated treatment group
    [n1 = floor(n_total * treatment_pct / 100)] or the control group
    [n2 = n_total - n1] is empty, [calculate_power] returns power 0 and
    [calculate_mde] returns the sentinel 1, each with those group sizes
    and without raising; [calculate_power(20, 1, 0.1, 0.05)] returns
    [(0, 0, 20)]. *)
Theorem degenerate_design_signalled (Phi Phi_inv : R -> R) :
  (forall n_total treatment_pct mde power alpha,
     0 <= IZR n_total * treatment_pct ->
     let n1 := Zfloor (IZR n_total * treatment_pct / 100) in
     let n2 := (n_total - n1)%Z in
     n1 = 0%Z \/ n2 = 0%Z ->
     calculate_power Phi Phi_inv n_total treatment_pct mde alpha = Returns (Fin 0, n1, n2) /\
     calculate_mde Phi_inv n_total treatment_pct power alpha = Returns (Fin 1, n1, n2)) /\
  calculate_power Phi Phi_inv 20 1 0.1 0.05 = Returns (Fin 0, 0, 20)%Z.
Proof.
  split.
  - intros n_total treatment_pct mde power alpha Hx n1 n2 H.
    assert (Hi : py_int (IZR n_total * treatment_pct / 100) = n1)
      by (apply py_int_nonneg; lra).
    split.
    + rewrite calculate_power_degenerate; rewrite Hi; auto.
    + rewrite calculate_mde_degenerate; rewrite Hi; auto.
  - rewrite calculate_power_degenerate; rewrite py_int_20_percent_1; auto.
Qed.

(** 1000 units at 100 percent: the control group is the empty one. *)
Lemma degenerate_design_signalled_witness :
  calculate_power softsign_cdf softsign_ppf 1000 100 0.1 0.05 = Returns (Fin 0, 1000, 0)%Z /\
  calculate_mde softsign_ppf 1000 100 0.8 0.05 = Returns (Fin 1, 1000, 0)%Z.
Proof.
  assert (Hf : Zfloor (IZR 1000 * 100 / 100) = 1000%Z) by (apply Zfloor_eq; lra).
  destruct (degenerate_design_signalled softsign_cdf softsign_ppf) as [H _].
  specialize (H 1000%Z 100 0.1 0.8 0.05 ltac:(lra)).
  cbv zeta in H. rewrite Hf in H. exact (H (or_intror eq_refl)).
Defined.

(** ** The sample size *)

(** C3 (rounding policy): for every valid input, [calculate_sample_size]
    forms the raw closed-form total
    [(zAlpha + zBeta)^2 * 0.25 / (frac * (1 - frac)) / mde^2], rounds
    [raw * frac] and [raw * (1 - frac)] to the two group sizes, and returns
    as total the sum of the two rounded sizes. *)
Theorem sample_size_rounding_policy (Phi_inv : R -> R)
    (mde power treatment_pct alpha : R) :
  0 < mde -> 0 < power < 1 -> 0 < treatment_pct < 100 -> 0 < alpha < 1 ->
  let frac := treatment_pct / 100 in
  let nTotal_raw :=
    spec_nTotal_raw (Phi_inv (1 - alpha / 2)) (Phi_inv power) frac mde in
  let n1 := py_round (nTotal_raw * frac) in
  let n2 := py_round (nTotal_raw * (1 - frac)) in
  calculate_sample_size Phi_inv mde power treatment_pct alpha
  = Returns ((n1 + n2)%Z, n1, n2).
Proof.
  intros Hm Hp Ht Ha. cbv zeta.
  rewrite calculate_sample_size_regular by lra. reflexivity.
Qed.

Lemma sample_size_rounding_policy_witness :
  let nTotal_raw :=
    spec_nTotal_raw (softsign_ppf (1 - 0.5 / 2)) (softsign_ppf 0.75) (50 / 100) 0.1 in
  let n1 := py_round (nTotal_raw * (50 / 100)) in
  let n2 := py_round (nTotal_raw * (1 - 50 / 100)) in
  calculate_sample_size softsign_ppf 0.1 0.75 50 0.5 = Returns ((n1 + n2)%Z, n1, n2).
Proof.
  apply (sample_size_rounding_policy softsign_ppf 0.1 0.75 50 0.5); lra.
Defined.

(** The returned total is not the rounded raw total: a raw total of 3
    split in halves gives 2 + 2. *)
Remark rounded_groups_differ_from_rounded_total :
  (py_round (3 * 0.5) + py_round (3 * (1 - 0.5)))%Z = 4%Z /\ py_round 3 = 3%Z.
Proof.
  assert (H : py_round 1.5 = 2%Z).
  { unfold py_round.
    assert (Hf : Zfloor 1.5 = 1%Z) by (apply Zfloor_eq; lra). rewrite Hf.
    destruct (Rlt_dec (1.5 - 1) (1 / 2)); [lra |].
    destruct (Rlt_dec (1 / 2) (1.5 - 1)); [lra | reflexivity]. }
  replace (3 * 0.5) with 1.5 by lra. replace (3 * (1 - 0.5)) with 1.5 by lra.
  rewrite H. split; [reflexivity | apply (py_round_IZR 3)].
Qed.

(** C7 (allocation symmetry): for valid inputs, [calculate_sample_size]
    at the proportion [frac] and at [1 - frac] (the percentages
    [treatment_pct] and [100 - treatment_pct]) returns the same total, with
    the two group sizes exchanged. *)
Theorem allocation_symmetry (Phi_inv : R -> R) (mde power treatment_pct alpha : R) :
  0 < mde -> 0 < power < 1 -> 0 < treatment_pct < 100 -> 0 < alpha < 1 ->
  exists n_total n1 n2 : Z,
    calculate_sample_size Phi_inv mde power treatment_pct alpha
      = Returns (n_total, n1, n2) /\
    calculate_sample_size Phi_inv mde power (100 - treatment_pct) alpha
      = Returns (n_total, n2, n1).
Proof.
  intros Hm Hp Ht Ha.
  rewrite !calculate_sample_size_regular by lra.
  unfold spec_sample_size, spec_nTotal_raw.
  replace ((100 - treatment_pct) / 100) with (1 - treatment_pct / 100) by lra.
  replace (1 - (1 - treatment_pct / 100)) with (treatment_pct / 100) by lra.
  replace ((1 - treatment_pct / 100) * (treatment_pct / 100))
    with (treatment_pct / 100 * (1 - treatment_pct / 100)) by ring.
  do 3 eexists. split; [reflexivity |].
  rewrite Z.add_comm. reflexivity.
Qed.

Lemma allocation_symmetry_witness :
  exists n_total n1 n2 : Z,
    calculate_sample_size softsign_ppf 0.02 0.8 30 0.05 = Returns (n_total, n1, n2) /\
    calculate_sample_size softsign_ppf 0.02 0.8 (100 - 30) 0.05 = Returns (n_total, n2, n1).
Proof.
  apply (allocation_symmetry softsign_ppf 0.02 0.8 30 0.05); lra.
Defined.

(** Margins that keep the float arithmetic of the source away from its
    limits: a magnitude of at least [1 / 10 ^ 9] is not 0. *)
Lemma float_margin_pos : 0 < 1 / 10 ^ 9.
Proof. apply Rdiv_lt_0_compat; [lra | apply pow_lt; lra]. Qed.

Lemma Rabs_margin_nonzero (x c : R) : 0 < c -> c <= Rabs x -> x <> 0.
Proof. intros Hc Hx ->. rewrite Rabs_R0 in Hx. lra. Qed.

(** C4 as the code has it.  [calculate_sample_size] checks nothing and has
    no error of its own: whatever it raises is [ZeroDivisionError],
    [OverflowError] or [ValueError].  A percentage of 0 or 100 raises
    [ZeroDivisionError].  An [mde] of 0, a [power] outside (0, 1) or an
    [alpha] outside (0, 2) never returns a result: with a percentage that
    is at least [1 / 10 ^ 9] away from 0 and from 100, [round] raises
    [OverflowError] or [ValueError] on the total that is not finite.  A
    negative [mde] has the outcome of [- mde].  With magnitudes between
    [1 / 10 ^ 9] and [10 ^ 9], every [mde] of either sign, every [power] in
    (0, 1), every [alpha] up to [2 - 1 / 10 ^ 9] and every percentage at
    least [1 / 10 ^ 9] away from 0 and 100, also below 0 or above 100,
    returns a result. *)
Theorem sample_size_failures (Phi_inv : R -> R) (mde power treatment_pct alpha : R) :
  (treatment_pct = 0 \/ treatment_pct = 100 ->
   calculate_sample_size Phi_inv mde power treatment_pct alpha = Raises ZeroDivisionError) /\
  (mde = 0 \/ ~ 0 < power < 1 \/ ~ 0 < alpha < 2 ->
   (exists e,
      calculate_sample_size Phi_inv mde power treatment_pct alpha = Raises e) /\
   (1 / 10 ^ 9 <= Rabs treatment_pct -> 1 / 10 ^ 9 <= Rabs (treatment_pct - 100) ->
    calculate_sample_size Phi_inv mde power treatment_pct alpha = Raises OverflowError \/
    calculate_sample_size Phi_inv mde power treatment_pct alpha = Raises ValueError)) /\
  (forall e,
     calculate_sample_size Phi_inv mde power treatment_pct alpha = Raises e ->
     e = ZeroDivisionError \/ e = OverflowError \/ e = ValueError) /\
  calculate_sample_size Phi_inv (- mde) power treatment_pct alpha
  = calculate_sample_size Phi_inv mde power treatment_pct alpha /\
  (1 / 10 ^ 9 <= Rabs mde <= 10 ^ 9 -> 0 < power < 1 ->
   1 / 10 ^ 9 <= alpha <= 2 - 1 / 10 ^ 9 ->
   1 / 10 ^ 9 <= Rabs treatment_pct <= 10 ^ 9 ->
   1 / 10 ^ 9 <= Rabs (treatment_pct - 100) ->
   exists r, calculate_sample_size Phi_inv mde power treatment_pct alpha = Returns r).
Proof.
  pose proof float_margin_pos as Hc.
  assert (Hcases : forall e,
    calculate_sample_size Phi_inv mde power treatment_pct alpha = Raises e ->
    e = ZeroDivisionError \/ e = OverflowError \/ e = ValueError).
  { intros e He.
    destruct (Req_EM_T treatment_pct 0) as [H0 | H0];
      [rewrite calculate_sample_size_zero_division in He by auto;
       injection He as <-; auto |].
    destruct (Req_EM_T treatment_pct 100) as [H100 | H100];
      [rewrite calculate_sample_size_zero_division in He by auto;
       injection He as <-; auto |].
    destruct (Req_EM_T mde 0) as [Hm | Hm].
    { destruct (calculate_sample_size_not_finite Phi_inv mde power treatment_pct alpha
                  H0 H100 (or_introl Hm)) as [E | E];
        rewrite E in He; injection He as <-; auto. }
    destruct (Rlt_dec 0 power) as [P0 | P0];
      [destruct (Rlt_dec power 1) as [P1 | P1];
       [destruct (Rlt_dec 0 alpha) as [A0 | A0];
        [destruct (Rlt_dec alpha 2) as [A1 | A1] | ] | ] | ].
    - rewrite calculate_sample_size_regular in He by (assumption || lra). discriminate.
    - destruct (calculate_sample_size_not_finite Phi_inv mde power treatment_pct alpha
                  H0 H100) as [E | E];
        [right; right; lra | |]; rewrite E in He; injection He as <-; auto.
    - destruct (calculate_sample_size_not_finite Phi_inv mde power treatment_pct alpha
                  H0 H100) as [E | E];
        [right; right; lra | |]; rewrite E in He; injection He as <-; auto.
    - destruct (calculate_sample_size_not_finite Phi_inv mde power treatment_pct alpha
                  H0 H100) as [E | E];
        [right; left; lra | |]; rewrite E in He; injection He as <-; auto.
    - destruct (calculate_sample_size_not_finite Phi_inv mde power treatment_pct alpha
                  H0 H100) as [E | E];
        [right; left; lra | |]; rewrite E in He; injection He as <-; auto. }
  split; [apply calculate_sample_size_zero_division |].
  split; [| split; [exact Hcases | split]].
  - intros Hbad. split.
    + destruct (Req_EM_T treatment_pct 0) as [H0 | H0];
        [exists ZeroDivisionError; apply calculate_sample_size_zero_division; auto |].
      destruct (Req_EM_T treatment_pct 100) as [H100 | H100];
        [exists ZeroDivisionError; apply calculate_sample_size_zero_division; auto |].
      destruct (calculate_sample_size_not_finite Phi_inv mde power treatment_pct alpha
                  H0 H100 Hbad) as [E | E]; eexists; exact E.
    + intros H0 H100.
      apply calculate_sample_size_not_finite; [| | exact Hbad].
      * apply (Rabs_margin_nonzero _ _ Hc H0).
      * intros E. apply (Rabs_margin_nonzero _ _ Hc H100). lra.
  - unfold calculate_sample_size.
    replace ((- mde) ^ 2) with (mde ^ 2) by ring. reflexivity.
  - intros Hm Hp Ha H0 H100. eexists.
    apply calculate_sample_size_regular.
    + apply (Rabs_margin_nonzero _ _ Hc (proj1 Hm)).
    + exact Hp.
    + lra.
    + apply (Rabs_margin_nonzero _ _ Hc (proj1 H0)).
    + intros E. apply (Rabs_margin_nonzero _ _ Hc H100). lra.
Qed.

(** An [mde] of 0 is refused by [round]; an [mde] of -0.1 at 150 percent
    with [alpha = 1.5] returns a result. *)
Lemma sample_size_failures_witness :
  (calculate_sample_size softsign_ppf 0 0.8 50 0.05 = Raises OverflowError \/
   calculate_sample_size softsign_ppf 0 0.8 50 0.05 = Raises ValueError) /\
  exists r, calculate_sample_size softsign_ppf (- (0.1)) 0.8 150 1.5 = Returns r.
Proof.
  pose proof float_margin_pos as Hc.
  split.
  - destruct (sample_size_failures softsign_ppf 0 0.8 50 0.05) as (_ & H & _).
    destruct (H (or_introl eq_refl)) as [_ H'].
    apply H'; unfold Rabs; destruct (Rcase_abs _); lra.
  - destruct (sample_size_failures softsign_ppf (- (0.1)) 0.8 150 1.5)
      as (_ & _ & _ & _ & H).
    apply H; try lra; unfold Rabs; destruct (Rcase_abs _); lra.
Defined.

(** C4 fails at [mde = -0.1]: whatever the quantile function, the call
    raises nothing. *)
Lemma negative_mde_is_accepted :
  ~ (exists (Phi_inv : R -> R) (e : exception),
       calculate_sample_size Phi_inv (-0.1) 0.8 50 0.05 = Raises e).
Proof.
  intros (Phi_inv & e & H).
  rewrite calculate_sample_size_regular in H by lra. discriminate.
Qed.

(** ** The round trip from sample size to power *)

(** For every target power, level and allocation there is an effect so
    large that both groups round to 0: whatever [Phi] and [Phi_inv] are,
    the power that comes back is 0. *)
Lemma round_trip_of_large_effect (Phi Phi_inv : R -> R) (power treatment_pct alpha : R) :
  0 < power < 1 -> 0 < treatment_pct < 100 -> 0 < alpha < 2 ->
  exists mde : R,
    0 < mde /\ round_trip_power Phi Phi_inv mde power treatment_pct alpha = Returns (Fin 0).
Proof.
  intros Hp Ht Ha.
  set (s := Phi_inv (1 - alpha / 2) + Phi_inv power).
  set (f := treatment_pct / 100).
  assert (Hf : 0 < f < 1) by (unfold f; lra).
  assert (HP : 0 < f * (1 - f) <= 1 / 4).
  { split; [nra |]. pose proof (Rle_0_sqr (f - 1 / 2)) as Hq. unfold Rsqr in Hq. nra. }
  set (t := Rabs s + 1).
  assert (Ht1 : 1 <= t) by (unfold t; pose proof (Rabs_pos s); lra).
  assert (Hst : s ^ 2 <= t ^ 2).
  { unfold t. replace (s ^ 2) with (Rabs s ^ 2).
    - pose proof (Rabs_pos s). nra.
    - unfold Rabs. destruct (Rcase_abs s); ring. }
  exists (t / (f * (1 - f))).
  assert (Hm : 0 < t / (f * (1 - f))) by (apply Rdiv_lt_0_compat; lra).
  split; [exact Hm |].
  unfold round_trip_power.
  rewrite calculate_sample_size_regular by lra.
  unfold spec_sample_size. fold s f.
  set (raw := spec_nTotal_raw (Phi_inv (1 - alpha / 2)) (Phi_inv power) f
                (t / (f * (1 - f)))).
  assert (Hraw : raw = s ^ 2 / t ^ 2 * (1 / 4 * (f * (1 - f)))).
  { unfold raw, spec_nTotal_raw. fold s. replace 0.25 with (1 / 4) by lra.
    field. repeat split; lra. }
  assert (Hq : 0 <= s ^ 2 / t ^ 2 <= 1).
  { assert (0 < t ^ 2) by nra. split.
    - apply Rdiv_nonneg_pos; [| assumption]. pose proof (Rle_0_sqr s) as H0.
      unfold Rsqr in H0. lra.
    - apply Rmult_le_reg_r with (t ^ 2); [assumption |].
      unfold Rdiv. rewrite Rmult_assoc, Rinv_l by lra. lra. }
  assert (Hsmall : 0 <= raw <= 1 / 16) by (rewrite Hraw; nra).
  rewrite !py_round_zero.
  - cbn [bind Z.add]. rewrite calculate_power_degenerate.
    + reflexivity.
    + left. replace (0 * treatment_pct / 100) with (IZR 0) by lra. apply py_int_IZR.
  - apply Rabs_def1; nra.
  - apply Rabs_def1; nra.
Qed.

Section RoundTrip.

Variables Phi Phi_inv : R -> R.
Hypothesis N : standard_normal Phi Phi_inv.

(** The power at the standardised effect [z_alpha + z_beta] is the
    target power plus the far tail. *)
Lemma power_curve_at_target (alpha power : R) :
  0 < power < 1 ->
  let z_alpha := Phi_inv (1 - alpha / 2) in
  let z_beta := Phi_inv power in
  power_curve Phi z_alpha (z_alpha + z_beta) = power + Phi (- 2 * z_alpha - z_beta).
Proof.
  intros Hp z_alpha z_beta. unfold power_curve.
  replace (z_alpha - (z_alpha + z_beta)) with (- z_beta) by lra.
  replace (- z_alpha - (z_alpha + z_beta)) with (- 2 * z_alpha - z_beta) by lra.
  rewrite (Phi_symmetric _ _ N). unfold z_beta at 1.
  rewrite (Phi_Phi_inv _ _ N) by exact Hp. lra.
Qed.

(** A target power of [alpha / 2]: the two critical values cancel, the
    raw total is 0, both groups are empty and the power that comes back
    is 0. *)
Lemma round_trip_of_cancelling_critical_values :
  round_trip_power Phi Phi_inv 0.1 0.25 50 0.5 = Returns (Fin 0).
Proof.
  unfold round_trip_power.
  rewrite calculate_sample_size_regular by lra.
  unfold spec_sample_size, spec_nTotal_raw.
  replace (1 - 0.5 / 2) with (1 - 0.25) by lra.
  rewrite (Phi_inv_symmetric _ _ N) by lra.
  replace (- Phi_inv 0.25 + Phi_inv 0.25) with 0 by lra.
  replace (0 ^ 2 * 0.25 / (50 / 100 * (1 - 50 / 100)) / 0.1 ^ 2 * (50 / 100))
    with (IZR 0) by lra.
  replace (0 ^ 2 * 0.25 / (50 / 100 * (1 - 50 / 100)) / 0.1 ^ 2 * (1 - 50 / 100))
    with (IZR 0) by lra.
  rewrite py_round_IZR. cbn [bind Z.add].
  rewrite calculate_power_degenerate.
  - reflexivity.
  - left. replace (0 * 50 / 100) with (IZR 0) by lra. apply py_int_IZR.
Qed.

End RoundTrip.

(** C1 fails at [mde = 0.1], [power = 0.25], [treatment_pct = 50],
    [alpha = 0.5]: with no standard normal law is the power that comes back
    within 0.01 of 0.25 (it is 0). *)
Lemma round_trip_not_within_tolerance :
  ~ (exists (Phi Phi_inv : R -> R) (p : R),
       standard_normal Phi Phi_inv /\
       round_trip_power Phi Phi_inv 0.1 0.25 50 0.5 = Returns (Fin p) /\
       Rabs (p - 0.25) <= 0.01).
Proof.
  intros (Phi & Phi_inv & p & N & Hp & Hclose).
  rewrite (round_trip_of_cancelling_critical_values Phi Phi_inv N) in Hp.
  inversion Hp; subst p.
  apply Rabs_le_between in Hclose. lra.
Qed.

(** ** The sign of the minimum detectable effect *)

Section MdeSign.

Variables Phi Phi_inv : R -> R.
Hypothesis N : standard_normal Phi Phi_inv.

(** The sum of the two critical values has the sign of
    [power - alpha / 2]. *)
Lemma critical_values_sum_nonneg (power alpha : R) :
  0 < alpha < 1 -> alpha / 2 <= power < 1 ->
  0 <= Phi_inv (1 - alpha / 2) + Phi_inv power.
Proof.
  intros Ha Hp.
  assert (- Phi_inv (1 - alpha / 2) <= Phi_inv power); [| lra].
  rewrite <- (Phi_inv_symmetric _ _ N) by lra.
  replace (1 - (1 - alpha / 2)) with (alpha / 2) by lra.
  apply (Phi_inv_nondecreasing _ _ N); lra.
Qed.

Lemma critical_values_sum_neg (power alpha : R) :
  0 < alpha < 1 -> 0 < power < alpha / 2 ->
  Phi_inv (1 - alpha / 2) + Phi_inv power < 0.
Proof.
  intros Ha Hp.
  assert (Phi_inv power < - Phi_inv (1 - alpha / 2)); [| lra].
  rewrite <- (Phi_inv_symmetric _ _ N) by lra.
  replace (1 - (1 - alpha / 2)) with (alpha / 2) by lra.
  apply (Phi_inv_increasing _ _ N); lra.
Qed.

(** 100 units in two halves, a target power of 0.1 at [alpha = 0.5]:
    the effect that comes back is negative. *)
Lemma mde_of_low_power :
  exists m : R,
    calculate_mde Phi_inv 100 50 0.1 0.5 = Returns (Fin m, 50, 50)%Z /\ m < 0.
Proof.
  assert (Hn1 : py_int (IZR 100 * 50 / 100) = 50%Z)
    by (replace (IZR 100 * 50 / 100) with (IZR 50) by lra; apply py_int_IZR).
  pose proof (calculate_mde_regular Phi_inv 100 50 0.1 0.5) as H.
  cbv zeta in H. rewrite Hn1 in H.
  eexists. split; [apply H; lia || lra |].
  pose proof (critical_values_sum_neg 0.1 0.5 ltac:(lra) ltac:(lra)).
  pose proof (std_error_pos 50 (100 - 50) ltac:(lia) ltac:(lia)).
  nra.
Qed.

End MdeSign.

(** C9 fails at [n_total = 100], [treatment_pct = 50], [power = 0.1],
    [alpha = 0.5]: with no standard normal law is the returned effect 0 or
    more. *)
Lemma mde_can_be_negative :
  ~ (exists (Phi Phi_inv : R -> R) (m : R) (n1 n2 : Z),
       standard_normal Phi Phi_inv /\
       calculate_mde Phi_inv 100 50 0.1 0.5 = Returns (Fin m, n1, n2) /\
       0 <= m).
Proof.
  intros (Phi & Phi_inv & m & n1 & n2 & N & Hm & Hpos).
  destruct (mde_of_low_power Phi Phi_inv N) as (m' & Hm' & Hneg).
  rewrite Hm' in Hm. inversion Hm; subst. lra.
Qed.

(** C9 as the code has it: for a positive integer [n_total], a percentage
    in [1, 99], [power] and [alpha] in (0, 1) and two groups that are not
    empty, [calculate_mde] returns an effect that is 0 or more when
    [power >= alpha / 2], and negative when [power < alpha / 2]. *)
Theorem mde_sign (Phi Phi_inv : R -> R) (n_total : Z) (treatment_pct power alpha : R) :
  standard_normal Phi Phi_inv ->
  (1 <= n_total)%Z -> 1 <= treatment_pct <= 99 -> 0 < power < 1 -> 0 < alpha < 1 ->
  let n1 := py_int (IZR n_total * treatment_pct / 100) in
  let n2 := (n_total - n1)%Z in
  n1 <> 0%Z -> n2 <> 0%Z ->
  exists m : R,
    calculate_mde Phi_inv n_total treatment_pct power alpha = Returns (Fin m, n1, n2) /\
    (alpha / 2 <= power -> 0 <= m) /\
    (power < alpha / 2 -> m < 0).
Proof.
  intros N Hn Hpct Hp Ha n1 n2 Hn1 Hn2.
  destruct (group_sizes_in_range n_total treatment_pct Hn Hpct) as (Hf1 & Hf2).
  assert (Hx : 0 <= IZR n_total * treatment_pct / 100) by (apply IZR_le in Hn; nra).
  assert (Hi : n1 = Zfloor (IZR n_total * treatment_pct / 100))
    by (apply py_int_nonneg; exact Hx).
  rewrite <- Hi in Hf1, Hf2. fold n2 in Hf2.
  assert (H1 : (0 < n1)%Z) by lia. assert (H2 : (0 < n2)%Z) by lia.
  eexists. split; [| split].
  - apply calculate_mde_regular; fold n1; fold n2; assumption || lra.
  - intros Hge. fold n1. fold n2.
    pose proof (critical_values_sum_nonneg Phi Phi_inv N power alpha Ha ltac:(lra)).
    pose proof (std_error_pos n1 n2 H1 H2). nra.
  - intros Hlt. fold n1. fold n2.
    pose proof (critical_values_sum_neg Phi Phi_inv N power alpha Ha ltac:(lra)).
    pose proof (std_error_pos n1 n2 H1 H2). nra.
Qed.

Lemma mde_sign_witness :
  exists m : R,
    calculate_mde softsign_ppf 2000 50 0.8 0.05 = Returns (Fin m, 1000, 1000)%Z /\
    (0.05 / 2 <= 0.8 -> 0 <= m) /\
    (0.8 < 0.05 / 2 -> m < 0).
Proof.
  assert (Hn1 : py_int (IZR 2000 * 50 / 100) = 1000%Z)
    by (replace (IZR 2000 * 50 / 100) with (IZR 1000) by lra; apply py_int_IZR).
  pose proof (mde_sign softsign_cdf softsign_ppf 2000 50 0.8 0.05
                softsign_standard_normal ltac:(lia) ltac:(lra) ltac:(lra) ltac:(lra)) as H.
  cbv zeta in H. rewrite Hn1 in H. apply H; lia.
Defined.

(** ** Monotonicity of the power *)

Lemma std_error_antitone (a b a' b' : Z) :
  (0 < a <= a')%Z -> (0 < b <= b')%Z -> std_error a' b' <= std_error a b.
Proof.
  intros [Ha Haa] [Hb Hbb].
  apply IZR_lt in Ha, Hb. apply IZR_le in Haa, Hbb.
  unfold std_error. apply sqrt_le_1_alt.
  assert (1 / IZR a' <= 1 / IZR a)
    by (unfold Rdiv; rewrite !Rmult_1_l; apply Rinv_le_contravar; lra).
  assert (1 / IZR b' <= 1 / IZR b)
    by (unfold Rdiv; rewrite !Rmult_1_l; apply Rinv_le_contravar; lra).
  lra.
Qed.

(** Both group sizes grow with the total. *)
Lemma group_sizes_monotone (n n' : Z) (treatment_pct : R) :
  (0 <= n <= n')%Z -> 0 <= treatment_pct <= 100 ->
  let n1 := py_int (IZR n * treatment_pct / 100) in
  let n1' := py_int (IZR n' * treatment_pct / 100) in
  (0 <= n1 <= n1')%Z /\ (0 <= n - n1 <= n' - n1')%Z.
Proof.
  intros [Hn Hnn] Hpct n1 n1'.
  pose proof (IZR_le _ _ Hn) as Hn0. pose proof (IZR_le _ _ Hnn) as Hnn0.
  assert (Hx : 0 <= IZR n * treatment_pct / 100) by nra.
  assert (Hx' : 0 <= IZR n' * treatment_pct / 100) by nra.
  unfold n1, n1'. rewrite !py_int_nonneg by assumption.
  assert (H0 : (0 <= Zfloor (IZR n * treatment_pct / 100))%Z)
    by (apply Zfloor_lub; exact Hx).
  assert (Hle : (Zfloor (IZR n * treatment_pct / 100)
                 <= Zfloor (IZR n' * treatment_pct / 100))%Z)
    by (apply Zfloor_le; nra).
  assert (Hn1 : (Zfloor (IZR n * treatment_pct / 100) <= n)%Z).
  { rewrite <- (ZfloorZ n) at 2. apply Zfloor_le. nra. }
  assert (Hstep : (Zfloor (IZR n' * treatment_pct / 100)
                   <= Zfloor (IZR n * treatment_pct / 100) + (n' - n))%Z).
  { rewrite <- Zfloor_addz. apply Zfloor_le. rewrite minus_IZR. nra. }
  lia.
Qed.

Section PowerMonotone.

Variables Phi Phi_inv : R -> R.
Hypothesis N : standard_normal Phi Phi_inv.

(** [calculate_power] on sizes that are not negative. *)
Lemma calculate_power_of_sizes (n_total : Z) (treatment_pct mde alpha : R) :
  let n1 := py_int (IZR n_total * treatment_pct / 100) in
  let n2 := (n_total - n1)%Z in
  (0 <= n1)%Z -> (0 <= n2)%Z -> 0 < alpha < 2 ->
  calculate_power Phi Phi_inv n_total treatment_pct mde alpha
  = Returns (Fin (power_of_sizes Phi (Phi_inv (1 - alpha / 2)) mde n1 n2), n1, n2).
Proof.
  intros n1 n2 H1 H2 Ha. unfold power_of_sizes.
  destruct ((n1 =? 0)%Z || (n2 =? 0)%Z) eqn:E.
  - apply calculate_power_degenerate. fold n1. fold n2.
    apply orb_true_iff in E. now rewrite !Z.eqb_eq in E.
  - apply orb_false_iff in E. rewrite !Z.eqb_neq in E.
    apply calculate_power_regular; fold n1; fold n2; lia || assumption.
Qed.

Lemma power_of_sizes_monotone (z mde mde' : R) (a b a' b' : Z) :
  0 <= z -> 0 <= mde <= mde' -> (0 <= a <= a')%Z -> (0 <= b <= b')%Z ->
  power_of_sizes Phi z mde a b <= power_of_sizes Phi z mde' a' b'.
Proof.
  intros Hz Hm Ha Hb. unfold power_of_sizes.
  destruct ((a =? 0)%Z || (b =? 0)%Z) eqn:E.
  - destruct ((a' =? 0)%Z || (b' =? 0)%Z); [lra |].
    left. apply (power_curve_range _ _ N). exact Hz.
  - apply orb_false_iff in E. rewrite !Z.eqb_neq in E. destruct E as [Ea Eb].
    rewrite guard_false by lia.
    pose proof (std_error_pos a b ltac:(lia) ltac:(lia)) as Hse.
    pose proof (std_error_pos a' b' ltac:(lia) ltac:(lia)) as Hse'.
    pose proof (std_error_antitone a b a' b' ltac:(lia) ltac:(lia)) as Hle.
    apply (power_curve_monotone _ _ N); [exact Hz |]. split.
    + apply Rdiv_nonneg_pos; lra.
    + apply Rle_trans with (mde' / std_error a b).
      * unfold Rdiv. apply Rmult_le_compat_r; [| lra].
        left. apply Rinv_0_lt_compat. exact Hse.
      * unfold Rdiv. apply Rmult_le_compat_l; [lra |].
        apply Rinv_le_contravar; assumption.
Qed.

End PowerMonotone.

(** C8 (monotonicity of the power): with the percentage, [mde > 0] and
    [alpha] in (0, 1) fixed, the power that [calculate_power] returns does
    not decrease when the total sample size grows over the positive
    integers; with the total, the percentage and [alpha] fixed, it does not
    decrease when [mde] grows. *)
Theorem power_monotone (Phi Phi_inv : R -> R) (treatment_pct alpha : R) :
  standard_normal Phi Phi_inv ->
  0 <= treatment_pct <= 100 -> 0 < alpha < 1 ->
  (forall (n n' : Z) (mde : R),
     0 < mde -> (1 <= n <= n')%Z ->
     exists p p' : R,
       returns_value (calculate_power Phi Phi_inv n treatment_pct mde alpha) p /\
       returns_value (calculate_power Phi Phi_inv n' treatment_pct mde alpha) p' /\
       p <= p') /\
  (forall (n : Z) (mde mde' : R),
     (1 <= n)%Z -> 0 < mde <= mde' ->
     exists p p' : R,
       returns_value (calculate_power Phi Phi_inv n treatment_pct mde alpha) p /\
       returns_value (calculate_power Phi Phi_inv n treatment_pct mde' alpha) p' /\
       p <= p').
Proof.
  intros N Hpct Ha.
  pose proof (z_alpha_pos Phi Phi_inv N alpha Ha) as Hz.
  split.
  - intros n n' mde Hm Hn.
    destruct (group_sizes_monotone n n' treatment_pct ltac:(lia) Hpct) as [H1 H2].
    do 2 eexists. split; [| split].
    + do 2 eexists. apply calculate_power_of_sizes; lia || lra.
    + do 2 eexists. apply calculate_power_of_sizes; lia || lra.
    + apply (power_of_sizes_monotone Phi Phi_inv N); lia || lra.
  - intros n mde mde' Hn Hm.
    destruct (group_sizes_monotone n n treatment_pct ltac:(lia) Hpct) as [H1 H2].
    do 2 eexists. split; [| split].
    + do 2 eexists. apply calculate_power_of_sizes; lia || lra.
    + do 2 eexists. apply calculate_power_of_sizes; lia || lra.
    + apply (power_of_sizes_monotone Phi Phi_inv N); lia || lra.
Qed.

Lemma power_monotone_witness :
  (exists p p' : R,
     returns_value (calculate_power softsign_cdf softsign_ppf 1000 50 0.02 0.05) p /\
     returns_value (calculate_power softsign_cdf softsign_ppf 2000 50 0.02 0.05) p' /\
     p <= p') /\
  (exists p p' : R,
     returns_value (calculate_power softsign_cdf softsign_ppf 2000 50 0.02 0.05) p /\
     returns_value (calculate_power softsign_cdf softsign_ppf 2000 50 0.05 0.05) p' /\
     p <= p').
Proof.
  destruct (power_monotone softsign_cdf softsign_ppf 50 0.05 softsign_standard_normal
              ltac:(lra) ltac:(lra)) as [Hn Hm].
  split.
  - apply (Hn 1000%Z 2000%Z 0.02); lra || lia.
  - apply (Hm 2000%Z 0.02 0.05); lra || lia.
Defined.

(** ** The allocation sweep *)

Lemma for_each_map {A B : Type} (f : A -> outcome B) (g : A -> B) (l : list A) :
  Forall (fun x => f x = Returns (g x)) l -> for_each f l = Returns (map g l).
Proof.
  induction 1 as [| x l Hx _ IH]; [reflexivity |].
  cbn [for_each map]. rewrite Hx, IH. reflexivity.
Qed.

(** [idxmin] on finite values: an entry at or above the best one so far
    does not replace it. *)
Lemma idxmin_scan_keeps (vs : list R) (k i0 : nat) (b : R) :
  Forall (fun v => b <= v) vs ->
  idxmin_scan (Some (i0, Fin b)) k (map Fin vs) = Some (i0, Fin b).
Proof.
  intros H. revert k. induction H as [| v vs Hv _ IH]; intros k; [reflexivity |].
  cbn [map idxmin_scan np_ltb].
  destruct (Rlt_dec v b); [lra | apply IH].
Qed.

Lemma idxmin_scan_finds (vs : list R) :
  forall (k i0 : nat) (b : R) (i : nat) (m : R),
    nth_error vs i = Some m -> m < b ->
    Forall (fun v => m < v) (firstn i vs) ->
    Forall (fun v => m <= v) vs ->
    idxmin_scan (Some (i0, Fin b)) k (map Fin vs) = Some ((k + i)%nat, Fin m).
Proof.
  induction vs as [| v vs IH]; intros k i0 b i m Hnth Hmb Hbefore Hall.
  - destruct i; discriminate.
  - inversion Hall as [| ? ? Hv Hrest]; subst.
    cbn [map idxmin_scan np_ltb].
    destruct i as [| i].
    + inversion Hnth; subst v.
      destruct (Rlt_dec m b); [| contradiction].
      rewrite Nat.add_0_r. apply idxmin_scan_keeps. exact Hrest.
    + cbn [nth_error] in Hnth. cbn [firstn] in Hbefore.
      inversion Hbefore as [| ? ? Hmv Hbefore']; subst.
      rewrite <- Nat.add_succ_comm.
      destruct (Rlt_dec v b); apply IH; assumption.
Qed.

(** [idxmin] returns the position of the first least entry. *)
Lemma idxmin_stable_argmin (vs : list R) (i : nat) (m : R) :
  nth_error vs i = Some m ->
  Forall (fun v => m < v) (firstn i vs) ->
  Forall (fun v => m <= v) vs ->
  idxmin (map Fin vs) = Returns i.
Proof.
  intros Hnth Hbefore Hall. unfold idxmin.
  destruct vs as [| v vs]; [destruct i; discriminate |].
  inversion Hall as [| ? ? Hv Hrest]; subst.
  cbn [map idxmin_scan].
  destruct i as [| i].
  - inversion Hnth; subst v. now rewrite idxmin_scan_keeps.
  - cbn [nth_error] in Hnth. cbn [firstn] in Hbefore.
    inversion Hbefore as [| ? ? Hmv Hbefore']; subst.
    now rewrite (idxmin_scan_finds vs 1 0 v i m).
Qed.

(** The standard error of 2000 units split at [tp] percent is least at
    50 percent. *)
Lemma std_error_least_at_half (tp : Z) :
  (1 <= tp <= 99)%Z ->
  std_error 1000 1000 <= std_error (20 * tp) (2000 - 20 * tp) /\
  (tp <> 50%Z -> std_error 1000 1000 < std_error (20 * tp) (2000 - 20 * tp)).
Proof.
  intros [Hlo Hhi]. unfold std_error.
  rewrite minus_IZR, mult_IZR.
  apply IZR_le in Hlo, Hhi.
  set (x := IZR tp) in *.
  assert (Hsum : 1 / (20 * x) + 1 / (2000 - 20 * x) = 5 / (x * (100 - x)))
    by (field; lra).
  assert (Hprod : 0 < x * (100 - x)) by nra.
  assert (Hmax : x * (100 - x) <= 2500)
    by (pose proof (Rle_0_sqr (x - 50)) as Hq; unfold Rsqr in Hq; nra).
  rewrite Hsum.
  replace (1 / 1000 + 1 / 1000) with (5 / 2500) by lra.
  split.
  - apply sqrt_le_1_alt. apply Rmult_le_compat_l; [lra |].
    unfold Rdiv. apply Rmult_le_compat_l; [lra |].
    apply Rinv_le_contravar; assumption.
  - intros Hne.
    assert (Hx : x <> 50) by (unfold x; intros E; apply eq_IZR in E; contradiction).
    assert (Hsq : 0 < (x - 50) * (x - 50)).
    { destruct (Rtotal_order x 50) as [H | [H | H]]; [nra | contradiction | nra]. }
    apply sqrt_lt_1_alt. split.
    + apply Rmult_le_pos; [lra |]. apply Rdiv_nonneg_pos; lra.
    + apply Rmult_lt_compat_l; [lra |].
      unfold Rdiv. apply Rmult_lt_compat_l; [lra |].
      apply Rinv_lt_contravar; nra.
Qed.

Section Sweep.

Variables Phi Phi_inv : R -> R.
Hypothesis N : standard_normal Phi Phi_inv.

Lemma scenario_critical_values_pos : 0 < Phi_inv (1 - 0.05 / 2) + Phi_inv 0.8.
Proof.
  pose proof (z_alpha_pos Phi Phi_inv N 0.05 ltac:(lra)).
  assert (0 < Phi_inv 0.8); [| lra].
  rewrite <- (Phi_inv_half Phi Phi_inv N).
  apply (Phi_inv_increasing Phi Phi_inv N); lra.
Qed.

Lemma scenario_calculate_mde (tp : Z) :
  (1 <= tp <= 99)%Z ->
  (' (mde, n1, n2) <- calculate_mde Phi_inv 2000 (IZR tp) 0.8 0.05 ;;
   Returns (MdeRow tp (np_mul mde (Fin 100)) n1 n2)) = Returns (scenario_row Phi_inv tp).
Proof.
  intros Htp.
  assert (Hn1 : py_int (IZR 2000 * IZR tp / 100) = (20 * tp)%Z).
  { replace (IZR 2000 * IZR tp / 100) with (IZR (20 * tp))
      by (rewrite mult_IZR; lra).
    apply py_int_IZR. }
  pose proof (calculate_mde_regular Phi_inv 2000 (IZR tp) 0.8 0.05) as H.
  cbv zeta in H. rewrite Hn1 in H.
  rewrite H by (lia || lra). reflexivity.
Qed.

Lemma scenario_mde_pos (tp : Z) : (1 <= tp <= 99)%Z -> 0 < scenario_mde Phi_inv tp.
Proof.
  intros Htp. unfold scenario_mde.
  pose proof scenario_critical_values_pos.
  pose proof (std_error_pos (20 * tp) (2000 - 20 * tp) ltac:(lia) ltac:(lia)).
  apply Rmult_lt_0_compat; [apply Rmult_lt_0_compat; assumption | lra].
Qed.

Lemma scenario_mde_least_at_half (tp : Z) :
  (1 <= tp <= 99)%Z ->
  scenario_mde Phi_inv 50 <= scenario_mde Phi_inv tp /\
  (tp <> 50%Z -> scenario_mde Phi_inv 50 < scenario_mde Phi_inv tp).
Proof.
  intros Htp. unfold scenario_mde.
  pose proof scenario_critical_values_pos as Hz.
  destruct (std_error_least_at_half tp Htp) as [Hle Hlt].
  change (20 * 50)%Z with 1000%Z. change (2000 - 1000)%Z with 1000%Z.
  split.
  - apply Rmult_le_compat_r; [lra |]. apply Rmult_le_compat_l; [lra | exact Hle].
  - intros Hne. apply Rmult_lt_compat_r; [lra |].
    apply Rmult_lt_compat_l; [exact Hz | exact (Hlt Hne)].
Qed.

Lemma scenario_sweep :
  generate_treatment_comparison_data Phi_inv "MDE" scenario
  = Returns (map (scenario_row Phi_inv) (py_range 5 96 5)).
Proof.
  unfold generate_treatment_comparison_data. cbn [String.eqb Ascii.eqb Bool.eqb].
  cbn [scenario param_n_total param_power param_alpha getitem bind].
  apply for_each_map. rewrite range_5_96_5.
  repeat constructor; apply scenario_calculate_mde; lia.
Qed.

Lemma scenario_optimal_point :
  optimal_mde_point (map (scenario_row Phi_inv) (py_range 5 96 5))
  = Returns (50%Z, Fin (scenario_mde Phi_inv 50)).
Proof.
  unfold optimal_mde_point.
  assert (Hcol : column_mde (map (scenario_row Phi_inv) (py_range 5 96 5))
                 = Returns (map Fin (map (scenario_mde Phi_inv) (py_range 5 96 5)))).
  { rewrite range_5_96_5. cbn [map column_mde].
    rewrite (for_each_map _ (fun r => match r with
                                      | MdeRow _ m _ _ => m
                                      | SampleSizeRow _ _ _ _ => NaN
                                      end)); [reflexivity |].
    repeat constructor. }
  rewrite Hcol. cbn [bind].
  rewrite (idxmin_stable_argmin _ 9 (scenario_mde Phi_inv 50)).
  - reflexivity.
  - reflexivity.
  - rewrite range_5_96_5. cbn [map firstn].
    repeat constructor; apply scenario_mde_least_at_half; lia.
  - rewrite range_5_96_5. cbn [map].
    repeat constructor; apply scenario_mde_least_at_half; lia.
Qed.

End Sweep.

(** C6 (sweep grid): the MDE sweep for 2000 units, power 0.8 and alpha
    0.05 returns 19 rows, at the treatment percentages 5, 10, ..., 95 in
    this order, each with a positive MDE; the optimal point that [main]
    reads off (the first row of least MDE) is the one at 50 percent. *)
Theorem mde_sweep_grid (Phi Phi_inv : R -> R) :
  standard_normal Phi Phi_inv ->
  exists rows : list row,
    generate_treatment_comparison_data Phi_inv "MDE" scenario = Returns rows /\
    List.length rows = 19%nat /\
    map row_treatment_pct rows
      = [5; 10; 15; 20; 25; 30; 35; 40; 45; 50; 55; 60; 65; 70; 75; 80; 85; 90; 95]%Z /\
    Forall (fun r => exists tp m n1 n2, r = MdeRow tp (Fin m) n1 n2 /\ 0 < m) rows /\
    exists m : R, optimal_mde_point rows = Returns (50%Z, Fin m).
Proof.
  intros N. exists (map (scenario_row Phi_inv) (py_range 5 96 5)).
  split; [apply scenario_sweep; exact N |].
  split; [reflexivity |]. split; [reflexivity |]. split.
  - rewrite range_5_96_5. cbn [map].
    repeat constructor;
      (do 4 eexists; split; [reflexivity | apply (scenario_mde_pos Phi Phi_inv N); lia]).
  - eexists. apply (scenario_optimal_point Phi Phi_inv N).
Qed.

Lemma mde_sweep_grid_witness :
  exists rows : list row,
    generate_treatment_comparison_data softsign_ppf "MDE" scenario = Returns rows /\
    List.length rows = 19%nat /\
    map row_treatment_pct rows
      = [5; 10; 15; 20; 25; 30; 35; 40; 45; 50; 55; 60; 65; 70; 75; 80; 85; 90; 95]%Z /\
    Forall (fun r => exists tp m n1 n2, r = MdeRow tp (Fin m) n1 n2 /\ 0 < m) rows /\
    exists m : R, optimal_mde_point rows = Returns (50%Z, Fin m).
Proof.
  exact (mde_sweep_grid softsign_cdf softsign_ppf softsign_standard_normal).
Defined.

(** * Further properties of the code *)

(** ** The range of the power *)

Section PowerRange.

Variables Phi Phi_inv : R -> R.
Hypothesis N : standard_normal Phi Phi_inv.

(** With no effect the test rejects with probability [alpha]. *)
Lemma power_curve_at_zero (alpha : R) :
  0 < alpha < 2 -> power_curve Phi (Phi_inv (1 - alpha / 2)) 0 = alpha.
Proof.
  intros Ha. unfold power_curve. rewrite !Rminus_0_r.
  rewrite (Phi_symmetric _ _ N), (Phi_Phi_inv _ _ N) by lra. lra.
Qed.

Lemma power_curve_at_least_alpha (alpha delta : R) :
  0 < alpha < 1 -> alpha <= power_curve Phi (Phi_inv (1 - alpha / 2)) delta.
Proof.
  intros Ha.
  pose proof (z_alpha_pos Phi Phi_inv N alpha Ha) as Hz.
  apply Rle_trans with (power_curve Phi (Phi_inv (1 - alpha / 2)) 0);
    [right; symmetry; apply power_curve_at_zero; lra |].
  destruct (Rle_lt_dec 0 delta) as [Hd | Hd].
  - apply (power_curve_monotone _ _ N); lra.
  - rewrite <- (power_curve_even _ _ N _ delta).
    apply (power_curve_monotone _ _ N); lra.
Qed.

Lemma power_of_sizes_range (alpha mde : R) (n1 n2 : Z) :
  0 < alpha < 1 ->
  let p := power_of_sizes Phi (Phi_inv (1 - alpha / 2)) mde n1 n2 in
  0 <= p <= 1 /\
  (n1 = 0%Z \/ n2 = 0%Z -> p = 0) /\
  (n1 <> 0%Z -> n2 <> 0%Z -> alpha <= p).
Proof.
  intros Ha p. unfold p, power_of_sizes.
  pose proof (z_alpha_pos Phi Phi_inv N alpha Ha) as Hz.
  destruct ((n1 =? 0)%Z || (n2 =? 0)%Z) eqn:E.
  - repeat split; try lra.
    intros H1 H2. apply orb_true_iff in E. rewrite !Z.eqb_eq in E. tauto.
  - apply orb_false_iff in E. rewrite !Z.eqb_neq in E.
    pose proof (power_curve_range Phi Phi_inv N (Phi_inv (1 - alpha / 2))
                  (mde / std_error n1 n2) ltac:(lra)) as Hr.
    repeat split; try lra.
    + tauto.
    + intros _ _. now apply power_curve_at_least_alpha.
Qed.

End PowerRange.

(** X1: for a total that is not negative, a percentage in [0, 100] and
    [alpha] in (0, 1), [calculate_power] returns for every [mde] a power
    between 0 and 1; it is 0 when a group is empty and at least [alpha]
    otherwise. *)
Theorem power_in_unit_interval (Phi Phi_inv : R -> R)
    (n_total : Z) (treatment_pct mde alpha : R) :
  standard_normal Phi Phi_inv ->
  (0 <= n_total)%Z -> 0 <= treatment_pct <= 100 -> 0 < alpha < 1 ->
  let n1 := py_int (IZR n_total * treatment_pct / 100) in
  let n2 := (n_total - n1)%Z in
  exists p : R,
    calculate_power Phi Phi_inv n_total treatment_pct mde alpha = Returns (Fin p, n1, n2) /\
    0 <= p <= 1 /\
    (n1 = 0%Z \/ n2 = 0%Z -> p = 0) /\
    (n1 <> 0%Z -> n2 <> 0%Z -> alpha <= p).
Proof.
  intros N Hn Hpct Ha n1 n2.
  destruct (group_sizes_monotone n_total n_total treatment_pct ltac:(lia) Hpct)
    as [H1 H2].
  eexists. split.
  - apply calculate_power_of_sizes; fold n1; fold n2; lia || lra.
  - apply (power_of_sizes_range Phi Phi_inv N). exact Ha.
Qed.

Lemma power_in_unit_interval_witness :
  exists p : R,
    calculate_power softsign_cdf softsign_ppf 2000 50 0.02 0.05
      = Returns (Fin p, 1000, 1000)%Z /\
    0 <= p <= 1 /\ 0.05 <= p.
Proof.
  assert (Hn1 : py_int (IZR 2000 * 50 / 100) = 1000%Z)
    by (replace (IZR 2000 * 50 / 100) with (IZR 1000) by lra; apply py_int_IZR).
  pose proof (power_in_unit_interval softsign_cdf softsign_ppf 2000 50 0.02 0.05
                softsign_standard_normal ltac:(lia) ltac:(lra) ltac:(lra)) as H.
  cbv zeta in H. rewrite Hn1 in H.
  destruct H as (p & Hp & Hr & _ & Hlow).
  exists p. split; [exact Hp |]. split; [exact Hr |]. apply Hlow; lia.
Defined.

(** X14: the power tab clamps the power with [min(power, 1.0)] before it
    draws the progress bar; for a total that is not negative, a percentage
    in [0, 100] and [alpha] in (0, 1) the clamp changes nothing. *)
Theorem progress_clamp_is_idle (Phi Phi_inv : R -> R)
    (n_total : Z) (treatment_pct mde alpha : R) :
  standard_normal Phi Phi_inv ->
  (0 <= n_total)%Z -> 0 <= treatment_pct <= 100 -> 0 < alpha < 1 ->
  exists (p : R) (n1 n2 : Z),
    calculate_power Phi Phi_inv n_total treatment_pct mde alpha = Returns (Fin p, n1, n2) /\
    progress_value (Fin p) = Fin p /\ 0 <= p <= 1.
Proof.
  intros N Hn Hpct Ha.
  destruct (group_sizes_monotone n_total n_total treatment_pct ltac:(lia) Hpct)
    as [H1 H2].
  do 3 eexists. split; [apply calculate_power_of_sizes; lia || lra |].
  destruct (power_of_sizes_range Phi Phi_inv N alpha mde
              (py_int (IZR n_total * treatment_pct / 100))
              (n_total - py_int (IZR n_total * treatment_pct / 100)) Ha) as (Hr & _).
  split; [| exact Hr].
  unfold progress_value, np_ltb.
  destruct (Rlt_dec 1 _); [lra | reflexivity].
Qed.

Lemma progress_clamp_is_idle_witness :
  exists (p : R) (n1 n2 : Z),
    calculate_power softsign_cdf softsign_ppf 2000 50 0.02 0.05 = Returns (Fin p, n1, n2) /\
    progress_value (Fin p) = Fin p /\ 0 <= p <= 1.
Proof.
  apply (progress_clamp_is_idle softsign_cdf softsign_ppf 2000 50 0.02 0.05
           softsign_standard_normal); lia || lra.
Defined.

(** X2: the power of the two-sided test does not depend on the sign of
    the effect: [calculate_power] has the same outcome at [- mde] and at
    [mde], for every input. *)
Theorem power_even_in_mde (Phi Phi_inv : R -> R)
    (n_total : Z) (treatment_pct mde alpha : R) :
  standard_normal Phi Phi_inv ->
  calculate_power Phi Phi_inv n_total treatment_pct (- mde) alpha
  = calculate_power Phi Phi_inv n_total treatment_pct mde alpha.
Proof.
  intros N. unfold calculate_power.
  destruct (_ || _); [reflexivity |].
  destruct (py_div 1 _) as [i1 |]; [| reflexivity]. cbn [bind].
  destruct (py_div 1 _) as [i2 |]; [| reflexivity]. cbn [bind].
  destruct (math_sqrt _) as [se |]; [| reflexivity]. cbn [bind].
  unfold py_div. destruct (Req_EM_T se 0); [reflexivity |]. cbn [bind].
  destruct (norm_ppf Phi_inv (1 - alpha / 2)) as [z | | |]; try reflexivity.
  cbn [np_neg np_sub np_add norm_cdf].
  pose proof (power_curve_even Phi Phi_inv N z (mde / se)) as H.
  unfold power_curve, Rminus in H.
  replace (- mde / se) with (- (mde / se)) by (unfold Rdiv; ring).
  rewrite H. reflexivity.
Qed.

Lemma power_even_in_mde_witness :
  calculate_power softsign_cdf softsign_ppf 2000 50 (- (0.02)) 0.05
  = calculate_power softsign_cdf softsign_ppf 2000 50 0.02 0.05.
Proof.
  exact (power_even_in_mde softsign_cdf softsign_ppf 2000 50 0.02 0.05
           softsign_standard_normal).
Defined.

(** ** Power and minimum detectable effect are inverse to each other *)

Section Inverse.

Variables Phi Phi_inv : R -> R.
Hypothesis N : standard_normal Phi Phi_inv.

(** The far tail [Phi (- 2 * z_alpha - z_beta)] is positive, and at most
    [alpha / 2] when the target power is at least [alpha / 2]. *)
Lemma far_tail_bound (power alpha : R) :
  0 < power < 1 -> 0 < alpha < 1 ->
  let tail := Phi (- 2 * Phi_inv (1 - alpha / 2) - Phi_inv power) in
  0 < tail /\ (alpha / 2 <= power -> tail <= alpha / 2).
Proof.
  intros Hp Ha tail. split; [apply (Phi_range _ _ N) |].
  intros Hge. unfold tail.
  apply Rle_trans with (Phi (- Phi_inv (1 - alpha / 2)));
    [| right; apply (Phi_neg_z_alpha Phi Phi_inv N); lra].
  apply (Phi_nondecreasing _ _ N).
  pose proof (critical_values_sum_nonneg Phi Phi_inv N power alpha Ha ltac:(lra)).
  lra.
Qed.

End Inverse.

(** X3: [calculate_power] inverts [calculate_mde] up to the far tail: for
    a design with two groups that are not empty, the effect that
    [calculate_mde] returns for a target power, given back to
    [calculate_power] with the same total, percentage and [alpha], yields
    the target power plus [Phi (- 2 * z_alpha - z_beta)]; this excess is
    positive, and at most [alpha / 2] when [power >= alpha / 2]. *)
Theorem power_at_the_mde (Phi Phi_inv : R -> R)
    (n_total : Z) (treatment_pct power alpha : R) :
  standard_normal Phi Phi_inv ->
  (1 <= n_total)%Z -> 1 <= treatment_pct <= 99 -> 0 < power < 1 -> 0 < alpha < 1 ->
  let n1 := py_int (IZR n_total * treatment_pct / 100) in
  let n2 := (n_total - n1)%Z in
  n1 <> 0%Z ->
  let tail := Phi (- 2 * Phi_inv (1 - alpha / 2) - Phi_inv power) in
  exists m : R,
    calculate_mde Phi_inv n_total treatment_pct power alpha = Returns (Fin m, n1, n2) /\
    calculate_power Phi Phi_inv n_total treatment_pct m alpha
      = Returns (Fin (power + tail), n1, n2) /\
    0 < tail /\ (alpha / 2 <= power -> tail <= alpha / 2).
Proof.
  intros N Hn Hpct Hp Ha n1 n2 Hn1 tail.
  destruct (group_sizes_in_range n_total treatment_pct Hn Hpct) as (Hf1 & Hf2).
  assert (Hx : 0 <= IZR n_total * treatment_pct / 100) by (apply IZR_le in Hn; nra).
  assert (Hi : n1 = Zfloor (IZR n_total * treatment_pct / 100))
    by (apply py_int_nonneg; exact Hx).
  rewrite <- Hi in Hf1, Hf2. fold n2 in Hf2.
  assert (H1 : (0 < n1)%Z) by lia. assert (H2 : (0 < n2)%Z) by lia.
  pose proof (std_error_pos n1 n2 H1 H2) as Hse.
  eexists. split; [| split].
  - apply calculate_mde_regular; fold n1; fold n2; assumption || lra.
  - fold n1. fold n2.
    rewrite calculate_power_regular by (fold n1; fold n2; assumption || lra).
    fold n1. fold n2.
    replace ((Phi_inv (1 - alpha / 2) + Phi_inv power) * std_error n1 n2
             / std_error n1 n2)
      with (Phi_inv (1 - alpha / 2) + Phi_inv power) by (field; lra).
    rewrite (power_curve_at_target Phi Phi_inv N alpha power Hp). reflexivity.
  - apply (far_tail_bound Phi Phi_inv N); assumption.
Qed.

Lemma power_at_the_mde_witness :
  let tail := softsign_cdf (- 2 * softsign_ppf (1 - 0.05 / 2) - softsign_ppf 0.8) in
  exists m : R,
    calculate_mde softsign_ppf 2000 50 0.8 0.05 = Returns (Fin m, 1000, 1000)%Z /\
    calculate_power softsign_cdf softsign_ppf 2000 50 m 0.05
      = Returns (Fin (0.8 + tail), 1000, 1000)%Z /\
    0 < tail /\ (0.05 / 2 <= 0.8 -> tail <= 0.05 / 2).
Proof.
  assert (Hn1 : py_int (IZR 2000 * 50 / 100) = 1000%Z)
    by (replace (IZR 2000 * 50 / 100) with (IZR 1000) by lra; apply py_int_IZR).
  pose proof (power_at_the_mde softsign_cdf softsign_ppf 2000 50 0.8 0.05
                softsign_standard_normal ltac:(lia) ltac:(lra) ltac:(lra) ltac:(lra)) as H.
  cbv zeta in H. rewrite Hn1 in H. cbv zeta. apply H. lia.
Defined.

(** ** Monotonicity of the effect and of the sample size *)

(** X4: the effect that [calculate_mde] returns does not decrease when
    the target power grows (whatever the group sizes, the sentinel of an
    empty group included), and, for a target power of at least
    [alpha / 2], it does not grow when the total grows from a design whose
    two groups are not empty. *)
Theorem mde_monotone (Phi Phi_inv : R -> R) (treatment_pct alpha : R) :
  standard_normal Phi Phi_inv ->
  0 <= treatment_pct <= 100 -> 0 < alpha < 1 ->
  (forall (n : Z) (power power' : R),
     (0 <= n)%Z -> 0 < power -> power <= power' -> power' < 1 ->
     exists m m' : R,
       returns_value (calculate_mde Phi_inv n treatment_pct power alpha) m /\
       returns_value (calculate_mde Phi_inv n treatment_pct power' alpha) m' /\
       m <= m') /\
  (forall (n n' : Z) (power : R),
     (0 <= n <= n')%Z -> alpha / 2 <= power < 1 ->
     py_int (IZR n * treatment_pct / 100) <> 0%Z ->
     (n - py_int (IZR n * treatment_pct / 100))%Z <> 0%Z ->
     exists m m' : R,
       returns_value (calculate_mde Phi_inv n treatment_pct power alpha) m /\
       returns_value (calculate_mde Phi_inv n' treatment_pct power alpha) m' /\
       m' <= m).
Proof.
  intros N Hpct Ha. split.
  - intros n power power' Hn Hp Hpp Hp'.
    destruct (group_sizes_monotone n n treatment_pct ltac:(lia) Hpct) as [H1 H2].
    cbv zeta in H1, H2.
    set (n1 := py_int (IZR n * treatment_pct / 100)) in *.
    destruct (Z.eq_dec n1 0) as [E1 | E1];
      [| destruct (Z.eq_dec (n - n1) 0) as [E2 | E2]].
    + exists 1, 1. split; [| split; [| lra]];
        do 2 eexists; apply calculate_mde_degenerate; fold n1; auto.
    + exists 1, 1. split; [| split; [| lra]];
        do 2 eexists; apply calculate_mde_degenerate; fold n1; auto.
    + do 2 eexists. split; [| split].
      * do 2 eexists. apply calculate_mde_regular; fold n1; lia || lra.
      * do 2 eexists. apply calculate_mde_regular; fold n1; lia || lra.
      * fold n1.
        pose proof (std_error_pos n1 (n - n1) ltac:(lia) ltac:(lia)) as Hse.
        pose proof (Phi_inv_nondecreasing Phi Phi_inv N power power' Hp Hpp Hp').
        apply Rmult_le_compat_r; lra.
  - intros n n' power Hn Hp E1 E2.
    destruct (group_sizes_monotone n n' treatment_pct Hn Hpct) as [H1 H2].
    cbv zeta in H1, H2.
    set (n1 := py_int (IZR n * treatment_pct / 100)) in *.
    set (n1' := py_int (IZR n' * treatment_pct / 100)) in *.
    do 2 eexists. split; [| split].
    + do 2 eexists. apply calculate_mde_regular; fold n1; lia || lra.
    + do 2 eexists. apply calculate_mde_regular; fold n1'; lia || lra.
    + fold n1 n1'.
      pose proof (critical_values_sum_nonneg Phi Phi_inv N power alpha Ha ltac:(lra)).
      pose proof (std_error_antitone n1 (n - n1) n1' (n' - n1') ltac:(lia) ltac:(lia)).
      apply Rmult_le_compat_l; assumption.
Qed.

Lemma mde_monotone_witness :
  (exists m m' : R,
     returns_value (calculate_mde softsign_ppf 2000 50 0.8 0.05) m /\
     returns_value (calculate_mde softsign_ppf 2000 50 0.9 0.05) m' /\
     m <= m') /\
  (exists m m' : R,
     returns_value (calculate_mde softsign_ppf 2000 50 0.8 0.05) m /\
     returns_value (calculate_mde softsign_ppf 4000 50 0.8 0.05) m' /\
     m' <= m).
Proof.
  assert (Hn1 : py_int (IZR 2000 * 50 / 100) = 1000%Z)
    by (replace (IZR 2000 * 50 / 100) with (IZR 1000) by lra; apply py_int_IZR).
  destruct (mde_monotone softsign_cdf softsign_ppf 50 0.05 softsign_standard_normal
              ltac:(lra) ltac:(lra)) as [Hpow Hn].
  split.
  - apply (Hpow 2000%Z 0.8 0.9); lia || lra.
  - apply (Hn 2000%Z 4000%Z 0.8); try lia; try lra; rewrite Hn1; lia.
Defined.

(** [round] is monotone. *)
Lemma py_round_monotone (x y : R) : x <= y -> (py_round x <= py_round y)%Z.
Proof.
  intros Hxy.
  pose proof (Zfloor_le x y Hxy) as Hf.
  pose proof (Zfloor_bound x) as [Hx0 Hx1].
  pose proof (Zfloor_bound y) as [Hy0 Hy1].
  assert (Hrx : (Zfloor x <= py_round x <= Zfloor x + 1)%Z).
  { unfold py_round. repeat destruct (Rlt_dec _ _); try lia.
    destruct (Z.even (Zfloor x)); lia. }
  assert (Hry : (Zfloor y <= py_round y <= Zfloor y + 1)%Z).
  { unfold py_round. repeat destruct (Rlt_dec _ _); try lia.
    destruct (Z.even (Zfloor y)); lia. }
  destruct (Z.eq_dec (Zfloor x) (Zfloor y)) as [E | E]; [| lia].
  unfold py_round. rewrite E in *.
  destruct (Rlt_dec (x - IZR (Zfloor y)) (1 / 2));
    destruct (Rlt_dec (y - IZR (Zfloor y)) (1 / 2)); try lia; try lra.
  - destruct (Rlt_dec (1 / 2) (y - IZR (Zfloor y))); [lia |].
    destruct (Z.even (Zfloor y)); lia.
  - destruct (Rlt_dec (1 / 2) (x - IZR (Zfloor y)));
      destruct (Rlt_dec (1 / 2) (y - IZR (Zfloor y))); try lia; try lra.
    destruct (Z.even (Zfloor y)); lia.
Qed.

(** The raw total grows with the sum of the critical values and shrinks
    when the effect grows. *)
Lemma raw_total_monotone (s s' f mde mde' : R) :
  0 <= s <= s' -> 0 < f < 1 -> 0 < mde' <= mde ->
  0 <= spec_nTotal_raw s 0 f mde <= spec_nTotal_raw s' 0 f mde'.
Proof.
  intros Hs Hf Hm. unfold spec_nTotal_raw. rewrite !Rplus_0_r.
  assert (HP : 0 < f * (1 - f)) by nra.
  assert (Hs2 : 0 <= s ^ 2 <= s' ^ 2) by nra.
  assert (Hm2 : 0 < mde' ^ 2 <= mde ^ 2) by nra.
  assert (Hi : 0 < / mde ^ 2 <= / mde' ^ 2).
  { split; [apply Rinv_0_lt_compat; lra | apply Rinv_le_contravar; lra]. }
  assert (HiP : 0 < / (f * (1 - f))) by (apply Rinv_0_lt_compat; exact HP).
  unfold Rdiv.
  assert (Ha : 0 <= s ^ 2 * 0.25 * / (f * (1 - f)) <= s' ^ 2 * 0.25 * / (f * (1 - f)))
    by nra.
  split; [apply Rmult_le_pos; lra |].
  apply Rmult_le_compat; lra.
Qed.

Lemma sample_size_sizes_monotone (s s' f mde mde' : R) :
  0 <= s <= s' -> 0 < f < 1 -> 0 < mde' <= mde ->
  (py_round (spec_nTotal_raw s 0 f mde * f)
   <= py_round (spec_nTotal_raw s' 0 f mde' * f))%Z /\
  (py_round (spec_nTotal_raw s 0 f mde * (1 - f))
   <= py_round (spec_nTotal_raw s' 0 f mde' * (1 - f)))%Z.
Proof.
  intros Hs Hf Hm.
  pose proof (raw_total_monotone s s' f mde mde' Hs Hf Hm) as Hraw.
  split; apply py_round_monotone; apply Rmult_le_compat_r; lra.
Qed.

Lemma spec_sample_size_sum (Phi_inv : R -> R) (mde power frac alpha : R) :
  spec_sample_size Phi_inv mde power frac alpha
  = let raw := spec_nTotal_raw (Phi_inv (1 - alpha / 2) + Phi_inv power) 0 frac mde in
    ((py_round (raw * frac) + py_round (raw * (1 - frac)))%Z,
     py_round (raw * frac), py_round (raw * (1 - frac))).
Proof.
  unfold spec_sample_size, spec_nTotal_raw. cbv zeta. rewrite Rplus_0_r. reflexivity.
Qed.

(** X5: with the percentage and [alpha] fixed, the total and both group
    sizes that [calculate_sample_size] returns do not decrease when the
    target power grows from [alpha / 2] upwards, and do not grow when the
    effect [mde > 0] grows. *)
Theorem sample_size_monotone (Phi Phi_inv : R -> R) (treatment_pct alpha : R) :
  standard_normal Phi Phi_inv ->
  0 < treatment_pct < 100 -> 0 < alpha < 1 ->
  (forall mde power power' : R,
     0 < mde -> alpha / 2 <= power -> power <= power' -> power' < 1 ->
     exists n n1 n2 n' n1' n2' : Z,
       calculate_sample_size Phi_inv mde power treatment_pct alpha
         = Returns (n, n1, n2) /\
       calculate_sample_size Phi_inv mde power' treatment_pct alpha
         = Returns (n', n1', n2') /\
       (n <= n')%Z /\ (n1 <= n1')%Z /\ (n2 <= n2')%Z) /\
  (forall mde mde' power : R,
     0 < mde -> mde <= mde' -> alpha / 2 <= power < 1 ->
     exists n n1 n2 n' n1' n2' : Z,
       calculate_sample_size Phi_inv mde power treatment_pct alpha
         = Returns (n, n1, n2) /\
       calculate_sample_size Phi_inv mde' power treatment_pct alpha
         = Returns (n', n1', n2') /\
       (n' <= n)%Z /\ (n1' <= n1)%Z /\ (n2' <= n2)%Z).
Proof.
  intros N Hpct Ha. split.
  - intros mde power power' Hm Hp Hpp Hp'.
    rewrite !calculate_sample_size_regular by lra.
    rewrite !spec_sample_size_sum. cbv zeta.
    do 6 eexists. split; [reflexivity |]. split; [reflexivity |].
    pose proof (critical_values_sum_nonneg Phi Phi_inv N power alpha Ha ltac:(lra)).
    pose proof (Phi_inv_nondecreasing Phi Phi_inv N power power' ltac:(lra) Hpp Hp').
    destruct (sample_size_sizes_monotone
                (Phi_inv (1 - alpha / 2) + Phi_inv power)
                (Phi_inv (1 - alpha / 2) + Phi_inv power')
                (treatment_pct / 100) mde mde) as [G1 G2]; try lra.
    lia.
  - intros mde mde' power Hm Hmm Hp.
    rewrite !calculate_sample_size_regular by lra.
    rewrite !spec_sample_size_sum. cbv zeta.
    do 6 eexists. split; [reflexivity |]. split; [reflexivity |].
    pose proof (critical_values_sum_nonneg Phi Phi_inv N power alpha Ha ltac:(lra)).
    destruct (sample_size_sizes_monotone
                (Phi_inv (1 - alpha / 2) + Phi_inv power)
                (Phi_inv (1 - alpha / 2) + Phi_inv power)
                (treatment_pct / 100) mde' mde) as [G1 G2]; try lra.
    lia.
Qed.

Lemma sample_size_monotone_witness :
  (exists n n1 n2 n' n1' n2' : Z,
     calculate_sample_size softsign_ppf 0.02 0.8 50 0.05 = Returns (n, n1, n2) /\
     calculate_sample_size softsign_ppf 0.02 0.9 50 0.05 = Returns (n', n1', n2') /\
     (n <= n')%Z /\ (n1 <= n1')%Z /\ (n2 <= n2')%Z) /\
  (exists n n1 n2 n' n1' n2' : Z,
     calculate_sample_size softsign_ppf 0.02 0.8 50 0.05 = Returns (n, n1, n2) /\
     calculate_sample_size softsign_ppf 0.05 0.8 50 0.05 = Returns (n', n1', n2') /\
     (n' <= n)%Z /\ (n1' <= n1)%Z /\ (n2' <= n2)%Z).
Proof.
  destruct (sample_size_monotone softsign_cdf softsign_ppf 50 0.05 softsign_standard_normal
              ltac:(lra) ltac:(lra)) as [Hpow Hmde].
  split.
  - apply (Hpow 0.02 0.8 0.9); lra.
  - apply (Hmde 0.02 0.05 0.8); lra.
Defined.

(** ** What [calculate_power] and [calculate_mde] do outside their domain *)

(** The sign of the argument of [math.sqrt]. *)
Lemma variance_sign (a b : R) :
  a <> 0 -> b <> 0 ->
  (0.5 * (1 - 0.5) * (1 / a + 1 / b) < 0 <-> (a + b) * (a * b) < 0) /\
  (0.5 * (1 - 0.5) * (1 / a + 1 / b) = 0 <-> a + b = 0).
Proof.
  intros Ha Hb.
  assert (Hab : 0 < (a * b) * (a * b)).
  { assert (a * b <> 0) by (apply Rmult_integral_contrapositive_currified; assumption).
    destruct (Rtotal_order (a * b) 0) as [H0 | [H0 | H0]]; [nra | contradiction | nra]. }
  assert (Hnz : a * b <> 0)
    by (apply Rmult_integral_contrapositive_currified; assumption).
  assert (E : (1 / a + 1 / b) * ((a * b) * (a * b)) = (a + b) * (a * b))
    by (field; split; assumption).
  set (V := 1 / a + 1 / b) in *.
  set (Q := a * b * (a * b)) in *.
  replace (0.5 * (1 - 0.5) * V) with (V / 4) by lra.
  split; split; intros H.
  - assert (V * Q < 0) by nra. lra.
  - assert (V * Q < 0) by lra.
    apply Rnot_le_lt. intros Hle. assert (0 <= V * Q) by nra. lra.
  - assert (HV : V = 0) by lra. rewrite HV, Rmult_0_l in E.
    symmetry in E. apply Rmult_integral in E. tauto.
  - rewrite H, Rmult_0_l in E. apply Rmult_integral in E.
    destruct E as [E | E]; lra.
Qed.

Section Exceptions.

Variables Phi Phi_inv : R -> R.

(** The standard error of two non-empty groups whose sizes come from a
    total: what the two functions compute before they read [alpha]. *)
Lemma standard_error_outcome (n_total : Z) (treatment_pct : R) :
  let n1 := py_int (IZR n_total * treatment_pct / 100) in
  let n2 := (n_total - n1)%Z in
  n1 <> 0%Z -> n2 <> 0%Z ->
  let se := math_sqrt (0.5 * (1 - 0.5) * (1 / IZR n1 + 1 / IZR n2)) in
  ((n_total * (n1 * n2) < 0)%Z /\ se = Raises ValueError) \/
  ((0 <= n_total * (n1 * n2))%Z /\ exists v, se = Returns v /\ v <> 0).
Proof.
  intros n1 n2 H1 H2 se. unfold se.
  assert (Ha : IZR n1 <> 0) by (intros E; apply eq_IZR in E; contradiction).
  assert (Hb : IZR n2 <> 0) by (intros E; apply eq_IZR in E; contradiction).
  destruct (variance_sign (IZR n1) (IZR n2) Ha Hb) as [Hneg Hzero].
  assert (Hsum : IZR n1 + IZR n2 = IZR n_total)
    by (unfold n2; rewrite minus_IZR; ring).
  assert (Hprod : (IZR n1 + IZR n2) * (IZR n1 * IZR n2) = IZR (n_total * (n1 * n2)))
    by (rewrite Hsum, !mult_IZR; reflexivity).
  unfold math_sqrt.
  destruct (Rlt_dec (0.5 * (1 - 0.5) * (1 / IZR n1 + 1 / IZR n2)) 0) as [Hlt | Hge].
  - left. split; [| reflexivity].
    apply Hneg in Hlt. rewrite Hprod in Hlt. now apply lt_IZR in Hlt.
  - right. split.
    + apply Z.le_ngt. intros Hlt. apply Hge, Hneg. rewrite Hprod.
      now apply IZR_lt in Hlt.
    + eexists. split; [reflexivity |].
      intros E. apply sqrt_eq_0 in E; [| lra].
      apply Hzero in E. rewrite Hsum in E. apply eq_IZR in E.
      apply H1. unfold n1. rewrite E.
      replace (0 * treatment_pct / 100) with (IZR 0) by lra. apply py_int_IZR.
Qed.

End Exceptions.

(** [calculate_power] raises only the [ValueError] of [math.sqrt], when
    the product of the total and the two group sizes is negative. *)
Lemma calculate_power_raises (Phi Phi_inv : R -> R)
    (n_total : Z) (treatment_pct mde alpha : R) (e : exception) :
  let n1 := py_int (IZR n_total * treatment_pct / 100) in
  let n2 := (n_total - n1)%Z in
  calculate_power Phi Phi_inv n_total treatment_pct mde alpha = Raises e <->
  e = ValueError /\ (n_total * (n1 * n2) < 0)%Z.
Proof.
  intros n1 n2. unfold calculate_power. fold n1. fold n2.
  destruct ((n1 =? 0)%Z || (n2 =? 0)%Z) eqn:G.
  - apply orb_true_iff in G. rewrite !Z.eqb_eq in G.
    split; [discriminate | intros [_ H]; destruct G as [G | G]; rewrite G in H; lia].
  - apply orb_false_iff in G. rewrite !Z.eqb_neq in G. destruct G as [G1 G2].
    assert (Ha : IZR n1 <> 0) by (intros E; apply eq_IZR in E; contradiction).
    assert (Hb : IZR n2 <> 0) by (intros E; apply eq_IZR in E; contradiction).
    rewrite !py_div_nonzero by assumption. cbn [bind].
    destruct (standard_error_outcome n_total treatment_pct G1 G2)
      as [[Hneg Hse] | [Hpos (v & Hse & Hv)]]; cbv zeta in *;
      fold n1 in Hse; fold n2 in Hse; rewrite Hse; cbn [bind].
    + fold n1 n2 in Hneg.
      split; [intros E; inversion E; auto | intros [-> _]; reflexivity].
    + fold n1 n2 in Hpos. rewrite py_div_nonzero by exact Hv. cbn [bind].
      split; [discriminate | intros [_ H]; lia].
Qed.

Lemma calculate_mde_raises (Phi_inv : R -> R)
    (n_total : Z) (treatment_pct power alpha : R) (e : exception) :
  let n1 := py_int (IZR n_total * treatment_pct / 100) in
  let n2 := (n_total - n1)%Z in
  calculate_mde Phi_inv n_total treatment_pct power alpha = Raises e <->
  e = ValueError /\ (n_total * (n1 * n2) < 0)%Z.
Proof.
  intros n1 n2. unfold calculate_mde. fold n1. fold n2.
  destruct ((n1 =? 0)%Z || (n2 =? 0)%Z) eqn:G.
  - apply orb_true_iff in G. rewrite !Z.eqb_eq in G.
    split; [discriminate | intros [_ H]; destruct G as [G | G]; rewrite G in H; lia].
  - apply orb_false_iff in G. rewrite !Z.eqb_neq in G. destruct G as [G1 G2].
    assert (Ha : IZR n1 <> 0) by (intros E; apply eq_IZR in E; contradiction).
    assert (Hb : IZR n2 <> 0) by (intros E; apply eq_IZR in E; contradiction).
    rewrite !py_div_nonzero by assumption. cbn [bind].
    destruct (standard_error_outcome n_total treatment_pct G1 G2)
      as [[Hneg Hse] | [Hpos (v & Hse & Hv)]]; cbv zeta in *;
      fold n1 in Hse; fold n2 in Hse; rewrite Hse; cbn [bind].
    + fold n1 n2 in Hneg.
      split; [intros E; inversion E; auto | intros [-> _]; reflexivity].
    + fold n1 n2 in Hpos.
      split; [discriminate | intros [_ H]; lia].
Qed.

(** On a total that is not negative and a percentage in [0, 100] neither
    function raises. *)
Lemma calculate_mde_returns (Phi_inv : R -> R)
    (n_total : Z) (treatment_pct power alpha : R) :
  (0 <= n_total)%Z -> 0 <= treatment_pct <= 100 ->
  exists m : npfloat,
    calculate_mde Phi_inv n_total treatment_pct power alpha
    = Returns (m, py_int (IZR n_total * treatment_pct / 100),
               (n_total - py_int (IZR n_total * treatment_pct / 100))%Z).
Proof.
  intros Hn Hpct.
  destruct (group_sizes_monotone n_total n_total treatment_pct ltac:(lia) Hpct) as [H1 H2].
  cbv zeta in H1, H2.
  destruct (calculate_mde Phi_inv n_total treatment_pct power alpha)
    as [[[m a] b] | e] eqn:E.
  - destruct (calculate_mde_sizes Phi_inv _ _ _ _ _ _ _ E) as [-> ->]. eauto.
  - apply calculate_mde_raises in E. cbv zeta in E. destruct E as [_ E].
    assert (0 <= n_total * (py_int (IZR n_total * treatment_pct / 100)
                            * (n_total - py_int (IZR n_total * treatment_pct / 100))))%Z
      by (apply Z.mul_nonneg_nonneg; [lia | apply Z.mul_nonneg_nonneg; lia]).
    lia.
Qed.

(** X6: for a total between 0 and [10 ^ 9].  With a percentage in
    [0, 100], [calculate_power] and [calculate_mde] return, whatever [mde],
    [power] and [alpha] are: the guard catches the empty groups and the
    variance of two groups that are not empty is positive.  With a
    percentage, at most [10 ^ 4], that makes the treatment group exceed
    the total ([n_total + 1 <= n_total * treatment_pct / 100]), the control
    group is negative and both raise the [ValueError] of [math.sqrt]. *)
Theorem power_and_mde_exceptions (Phi Phi_inv : R -> R)
    (n_total : Z) (treatment_pct : R) :
  (0 <= n_total <= 10 ^ 9)%Z ->
  (0 <= treatment_pct <= 100 ->
   forall x alpha,
     (exists r, calculate_power Phi Phi_inv n_total treatment_pct x alpha = Returns r) /\
     (exists r, calculate_mde Phi_inv n_total treatment_pct x alpha = Returns r)) /\
  (IZR n_total + 1 <= IZR n_total * treatment_pct / 100 -> treatment_pct <= 10 ^ 4 ->
   forall x alpha,
     calculate_power Phi Phi_inv n_total treatment_pct x alpha = Raises ValueError /\
     calculate_mde Phi_inv n_total treatment_pct x alpha = Raises ValueError).
Proof.
  intros [Hn _].
  assert (Hpow := fun mde alpha e =>
    calculate_power_raises Phi Phi_inv n_total treatment_pct mde alpha e).
  assert (Hmde := fun power alpha e =>
    calculate_mde_raises Phi_inv n_total treatment_pct power alpha e).
  cbv zeta in Hpow, Hmde.
  set (n1 := py_int (IZR n_total * treatment_pct / 100)) in *.
  split.
  - intros Hpct x alpha.
    destruct (group_sizes_monotone n_total n_total treatment_pct ltac:(lia) Hpct) as [H1 H2].
    cbv zeta in H1, H2. fold n1 in H1, H2.
    assert (Hnn : (0 <= n_total * (n1 * (n_total - n1)))%Z)
      by (apply Z.mul_nonneg_nonneg; [lia | apply Z.mul_nonneg_nonneg; lia]).
    split.
    + destruct (calculate_power Phi Phi_inv n_total treatment_pct x alpha) as [r | e] eqn:E;
        [eauto |]. apply Hpow in E. lia.
    + destruct (calculate_mde Phi_inv n_total treatment_pct x alpha) as [r | e] eqn:E;
        [eauto |]. apply Hmde in E. lia.
  - intros Hover _ x alpha.
    pose proof (IZR_le _ _ Hn) as Hn0.
    assert (Hn1 : (n_total + 1 <= n1)%Z).
    { unfold n1. rewrite py_int_nonneg by lra.
      apply Zfloor_lub. rewrite plus_IZR. exact Hover. }
    assert (Hpos : (0 < n_total)%Z).
    { apply lt_IZR. destruct (Rle_lt_dec (IZR n_total) 0) as [H0 | H0]; [| exact H0].
      assert (IZR n_total = 0) by lra.
      rewrite H in Hover. lra. }
    assert (Hneg : (n_total * (n1 * (n_total - n1)) < 0)%Z).
    { apply Z.mul_pos_neg; [exact Hpos |]. apply Z.mul_pos_neg; lia. }
    split; [apply Hpow | apply Hmde]; split; [reflexivity | exact Hneg | reflexivity | exact Hneg].
Qed.

(** 10 units at 150 percent: a treatment group of 15, a control group of
    -5, and [math.sqrt] refuses the negative variance; 2000 units at 50
    percent return. *)
Lemma power_and_mde_exceptions_witness :
  ((0 <= 10 <= 10 ^ 9)%Z /\ IZR 10 + 1 <= IZR 10 * 150 / 100 /\ 150 <= 10 ^ 4 /\
   calculate_power softsign_cdf softsign_ppf 10 150 0.02 0.05 = Raises ValueError /\
   calculate_mde softsign_ppf 10 150 0.8 0.05 = Raises ValueError) /\
  ((0 <= 2000 <= 10 ^ 9)%Z /\ 0 <= 50 <= 100 /\
   exists r, calculate_power softsign_cdf softsign_ppf 2000 50 0.02 0.05 = Returns r).
Proof.
  assert (R10 : (0 <= 10 <= 10 ^ 9)%Z) by lia.
  assert (R2000 : (0 <= 2000 <= 10 ^ 9)%Z) by lia.
  assert (Hover : IZR 10 + 1 <= IZR 10 * 150 / 100) by lra.
  assert (Hcap : 150 <= 10 ^ 4) by lra.
  assert (Hpct : 0 <= 50 <= 100) by lra.
  destruct (power_and_mde_exceptions softsign_cdf softsign_ppf 10 150 R10) as [_ Hr].
  destruct (power_and_mde_exceptions softsign_cdf softsign_ppf 2000 50 R2000) as [Hret _].
  split.
  - split; [exact R10 |]. split; [exact Hover |]. split; [exact Hcap |].
    split; [apply (Hr Hover Hcap 0.02 0.05) | apply (Hr Hover Hcap 0.8 0.05)].
  - split; [exact R2000 |]. split; [exact Hpct |].
    apply (Hret Hpct 0.02 0.05).
Defined.

Lemma norm_ppf_nan (Phi_inv : R -> R) (q : R) :
  q < 0 \/ 1 < q -> norm_ppf Phi_inv q = NaN.
Proof.
  intros H. unfold norm_ppf.
  destruct (Rlt_dec 0 q).
  - destruct (Rlt_dec q 1); [lra |]. destruct (Req_EM_T q 1); [lra | reflexivity].
  - destruct (Req_EM_T q 0); [lra | reflexivity].
Qed.

(** X7: a probability outside its range is not refused.  With two groups
    of positive size, an [alpha] below 0 or above 2 makes
    [calculate_power] return NaN as power, and such an [alpha], or a
    target power below 0 or above 1, makes [calculate_mde] return NaN as
    effect; [calculate_sample_size] on the same values raises the
    [ValueError] of [round]. *)
Theorem invalid_probabilities_give_nan (Phi Phi_inv : R -> R)
    (n_total : Z) (treatment_pct : R) :
  let n1 := py_int (IZR n_total * treatment_pct / 100) in
  let n2 := (n_total - n1)%Z in
  (0 < n1)%Z -> (0 < n2)%Z ->
  (forall mde alpha,
     alpha < 0 \/ 2 < alpha ->
     calculate_power Phi Phi_inv n_total treatment_pct mde alpha
     = Returns (NaN, n1, n2)) /\
  (forall power alpha,
     (alpha < 0 \/ 2 < alpha) \/ (power < 0 \/ 1 < power) ->
     calculate_mde Phi_inv n_total treatment_pct power alpha = Returns (NaN, n1, n2)) /\
  (forall mde power alpha pct,
     pct <> 0 -> pct <> 100 ->
     (alpha < 0 \/ 2 < alpha) \/ (power < 0 \/ 1 < power) ->
     calculate_sample_size Phi_inv mde power pct alpha = Raises ValueError).
Proof.
  intros n1 n2 H1 H2.
  pose proof (IZR_lt _ _ H1) as Ha. pose proof (IZR_lt _ _ H2) as Hb.
  pose proof (std_error_pos n1 n2 H1 H2) as Hse.
  assert (Hsq : math_sqrt (0.5 * (1 - 0.5) * (1 / IZR n1 + 1 / IZR n2))
                = Returns (std_error n1 n2)).
  { apply math_sqrt_nonneg.
    assert (0 < 1 / IZR n1) by (apply Rdiv_lt_0_compat; lra).
    assert (0 < 1 / IZR n2) by (apply Rdiv_lt_0_compat; lra). nra. }
  split; [| split].
  - intros mde alpha Halpha. unfold calculate_power. fold n1. fold n2.
    rewrite guard_false by assumption.
    rewrite !py_div_nonzero by lra. cbn [bind]. rewrite Hsq. cbn [bind].
    rewrite py_div_nonzero by lra. cbn [bind].
    rewrite norm_ppf_nan by lra. reflexivity.
  - intros power alpha Hbad. unfold calculate_mde. fold n1. fold n2.
    rewrite guard_false by assumption.
    rewrite !py_div_nonzero by lra. cbn [bind]. rewrite Hsq. cbn [bind].
    destruct Hbad as [Halpha | Hpower].
    + rewrite (norm_ppf_nan Phi_inv (1 - alpha / 2)) by lra. reflexivity.
    + rewrite (norm_ppf_nan Phi_inv power) by lra.
      destruct (norm_ppf Phi_inv (1 - alpha / 2)); reflexivity.
  - intros mde power alpha pct H0 H100 Hbad. unfold calculate_sample_size.
    assert (Hf : pct / 100 * (1 - pct / 100) <> 0)
      by (rewrite proportion_product_zero; tauto).
    rewrite py_div_nonzero by exact Hf. cbn [bind].
    assert (Hsum : np_add (norm_ppf Phi_inv (1 - alpha / 2)) (norm_ppf Phi_inv power)
                   = NaN).
    { destruct Hbad as [Halpha | Hpower].
      - rewrite (norm_ppf_nan Phi_inv (1 - alpha / 2)) by lra. reflexivity.
      - rewrite (norm_ppf_nan Phi_inv power) by lra.
        destruct (norm_ppf Phi_inv (1 - alpha / 2)); reflexivity. }
    rewrite Hsum. reflexivity.
Qed.

Lemma invalid_probabilities_give_nan_witness :
  calculate_power softsign_cdf softsign_ppf 2000 50 0.02 3 = Returns (NaN, 1000, 1000)%Z /\
  calculate_mde softsign_ppf 2000 50 1.5 0.05 = Returns (NaN, 1000, 1000)%Z /\
  calculate_sample_size softsign_ppf 0.02 1.5 50 0.05 = Raises ValueError.
Proof.
  assert (Hn1 : py_int (IZR 2000 * 50 / 100) = 1000%Z)
    by (replace (IZR 2000 * 50 / 100) with (IZR 1000) by lra; apply py_int_IZR).
  pose proof (invalid_probabilities_give_nan softsign_cdf softsign_ppf 2000 50) as H.
  cbv zeta in H. rewrite Hn1 in H.
  destruct (H ltac:(lia) ltac:(lia)) as (Hp & Hm & Hs).
  split; [apply Hp; lra |]. split; [apply Hm; lra | apply Hs; lra].
Defined.

(** ** The sweeps on every input *)

Lemma for_each_raises {A B : Type} (f : A -> outcome B) (l : list A) (e : exception) :
  for_each f l = Raises e -> exists x, In x l /\ f x = Raises e.
Proof.
  induction l as [| x l IH]; [discriminate |].
  cbn [for_each]. destruct (f x) as [y |] eqn:E; cbn [bind].
  - destruct (for_each f l) as [ys |] eqn:El; cbn [bind]; [discriminate |].
    intros H. inversion H; subst. destruct (IH eq_refl) as (x' & Hin & Hx').
    exists x'. split; [now right | exact Hx'].
  - intros H. inversion H; subst. exists x. split; [now left | exact E].
Qed.

Lemma for_each_head_raises {A B : Type} (f : A -> outcome B) (x : A) (l : list A)
    (e : exception) :
  f x = Raises e -> for_each f (x :: l) = Raises e.
Proof. intros H. cbn [for_each]. rewrite H. reflexivity. Qed.

(** [int(n * tp / 100)] on integers that are not negative is the integer
    quotient. *)
Lemma py_int_percent (n tp : Z) :
  (0 <= n)%Z -> (0 <= tp)%Z ->
  py_int (IZR n * IZR tp / 100) = (n * tp / 100)%Z.
Proof.
  intros Hn Htp.
  assert (Hnt : (0 <= n * tp)%Z) by (apply Z.mul_nonneg_nonneg; assumption).
  pose proof (Z.div_mod (n * tp) 100 ltac:(lia)) as Hdm.
  pose proof (Z.mod_pos_bound (n * tp) 100 ltac:(lia)) as Hr.
  assert (Hx : IZR n * IZR tp = 100 * IZR (n * tp / 100) + IZR ((n * tp) mod 100)).
  { rewrite <- mult_IZR. rewrite Hdm at 1. rewrite plus_IZR, mult_IZR. reflexivity. }
  destruct Hr as [Hr0 Hr1]. apply IZR_le in Hr0. apply IZR_lt in Hr1.
  assert (Hq : (0 <= n * tp / 100)%Z) by (apply Z.div_pos; lia).
  apply IZR_le in Hq.
  apply py_int_eq; lra.
Qed.

(** Two splits of one total: the one with the larger product of group
    sizes has the smaller standard error. *)
Lemma std_error_by_product (a b a' b' : Z) :
  (0 < a)%Z -> (0 < b)%Z -> (0 < a')%Z -> (0 < b')%Z -> (a + b = a' + b')%Z ->
  ((a' * b' <= a * b)%Z -> std_error a b <= std_error a' b') /\
  ((a' * b' < a * b)%Z -> std_error a b < std_error a' b').
Proof.
  intros Ha Hb Ha' Hb' Hsum.
  apply IZR_lt in Ha, Hb, Ha', Hb'.
  assert (Hs : IZR a + IZR b = IZR a' + IZR b') by (rewrite <- !plus_IZR; now f_equal).
  assert (Hn : 0 < IZR a + IZR b) by lra.
  assert (E : forall x y, 0 < x -> 0 < y -> 1 / x + 1 / y = (x + y) / (x * y))
    by (intros; field; lra).
  unfold std_error. rewrite !E by assumption. rewrite <- Hs.
  assert (Hp : 0 < IZR a * IZR b) by nra.
  assert (Hp' : 0 < IZR a' * IZR b') by nra.
  split; intros H.
  - apply IZR_le in H. rewrite !mult_IZR in H.
    apply sqrt_le_1_alt. apply Rmult_le_compat_l; [lra |].
    unfold Rdiv. apply Rmult_le_compat_l; [lra |].
    apply Rinv_le_contravar; assumption.
  - apply IZR_lt in H. rewrite !mult_IZR in H.
    apply sqrt_lt_1_alt. split.
    + apply Rmult_le_pos; [lra |]. apply Rdiv_nonneg_pos; lra.
    + apply Rmult_lt_compat_l; [lra |].
      unfold Rdiv. apply Rmult_lt_compat_l; [lra |].
      apply Rinv_lt_contravar; [nra | assumption].
Qed.

(** The group sizes of the sweep over at least 20 units: neither group is
    empty, the product of the sizes is greatest at 50 percent, and
    strictly smaller at 45 percent and below. *)
Lemma sweep_sizes (n tp : Z) :
  (20 <= n)%Z -> (5 <= tp <= 95)%Z ->
  let k1 := (n * tp / 100)%Z in
  let m1 := (n * 50 / 100)%Z in
  (0 < k1)%Z /\ (0 < n - k1)%Z /\
  (k1 * (n - k1) <= m1 * (n - m1))%Z /\
  ((tp <= 45)%Z -> (k1 * (n - k1) < m1 * (n - m1))%Z).
Proof.
  intros Hn Htp k1 m1.
  pose proof (Z.mul_div_le (n * tp) 100 ltac:(lia)) as Hk0.
  pose proof (Z.mul_succ_div_gt (n * tp) 100 ltac:(lia)) as Hk1.
  pose proof (Z.mul_div_le (n * 50) 100 ltac:(lia)) as Hm0.
  pose proof (Z.mul_succ_div_gt (n * 50) 100 ltac:(lia)) as Hm1.
  fold k1 in Hk0, Hk1. fold m1 in Hm0, Hm1.
  assert (Hlo : (n * 5 <= n * tp)%Z) by (apply Z.mul_le_mono_nonneg_l; lia).
  assert (Hhi : (n * tp <= n * 95)%Z) by (apply Z.mul_le_mono_nonneg_l; lia).
  assert (E : (m1 * (n - m1) - k1 * (n - k1) = (m1 - k1) * (n - m1 - k1))%Z) by ring.
  assert (Hk : (0 < k1)%Z) by lia.
  assert (Hk' : (0 < n - k1)%Z) by lia.
  split; [exact Hk |]. split; [exact Hk' |]. split.
  - assert (0 <= (m1 - k1) * (n - m1 - k1))%Z; [| lia].
    destruct (Z_le_gt_dec k1 m1) as [H | H].
    + apply Z.mul_nonneg_nonneg; lia.
    + assert (n - m1 - k1 <= 0)%Z by lia.
      replace ((m1 - k1) * (n - m1 - k1))%Z with ((k1 - m1) * (k1 - (n - m1)))%Z by ring.
      apply Z.mul_nonneg_nonneg; lia.
  - intros H45.
    assert (Hle : (n * tp <= n * 45)%Z) by (apply Z.mul_le_mono_nonneg_l; lia).
    assert (0 < (m1 - k1) * (n - m1 - k1))%Z; [| lia].
    apply Z.mul_pos_pos; lia.
Qed.

Section MdeSweep.

Variables Phi Phi_inv : R -> R.
Hypothesis N : standard_normal Phi Phi_inv.

Variable n : Z.
Variables power alpha : R.
Hypothesis Hn : (20 <= n)%Z.
Hypothesis Ha : 0 < alpha < 1.
Hypothesis Hp : alpha / 2 < power < 1.

Lemma critical_values_sum_pos : 0 < Phi_inv (1 - alpha / 2) + Phi_inv power.
Proof.
  assert (- Phi_inv (1 - alpha / 2) < Phi_inv power); [| lra].
  rewrite <- (Phi_inv_symmetric _ _ N) by lra.
  replace (1 - (1 - alpha / 2)) with (alpha / 2) by lra.
  apply (Phi_inv_increasing _ _ N); lra.
Qed.

Lemma mde_sweep_step (tp : Z) :
  (5 <= tp <= 95)%Z ->
  (' (mde, n1, n2) <- calculate_mde Phi_inv n (IZR tp) power alpha ;;
   Returns (MdeRow tp (np_mul mde (Fin 100)) n1 n2))
  = Returns (mde_sweep_row Phi_inv n power alpha tp).
Proof.
  intros Htp.
  destruct (sweep_sizes n tp Hn Htp) as (H1 & H2 & _).
  pose proof (calculate_mde_regular Phi_inv n (IZR tp) power alpha) as H.
  cbv zeta in H. rewrite py_int_percent in H by lia.
  rewrite H by (assumption || lra). reflexivity.
Qed.

Lemma mde_sweep_rows (o : option R) :
  generate_treatment_comparison_data Phi_inv "MDE"
    {| param_mde := o; param_power := Some power;
       param_alpha := Some alpha; param_n_total := Some n |}
  = Returns (map (mde_sweep_row Phi_inv n power alpha) (py_range 5 96 5)).
Proof.
  unfold generate_treatment_comparison_data. cbn [String.eqb Ascii.eqb Bool.eqb].
  cbn [param_n_total param_power param_alpha getitem bind].
  apply for_each_map. rewrite range_5_96_5.
  repeat constructor; apply mde_sweep_step; lia.
Qed.

(** The value of the [mde] column at [tp] percent. *)
Lemma mde_sweep_value (tp : Z) :
  (5 <= tp <= 95)%Z ->
  let v := fun t =>
    (Phi_inv (1 - alpha / 2) + Phi_inv power)
    * std_error (n * t / 100) (n - n * t / 100) * 100 in
  0 < v tp /\ v 50%Z <= v tp /\ ((tp <= 45)%Z -> v 50%Z < v tp).
Proof.
  intros Htp v. unfold v.
  pose proof critical_values_sum_pos as Hs.
  destruct (sweep_sizes n tp Hn Htp) as (H1 & H2 & Hle & Hlt).
  destruct (sweep_sizes n 50 Hn ltac:(lia)) as (M1 & M2 & _).
  pose proof (std_error_pos _ _ H1 H2) as Hse.
  destruct (std_error_by_product (n * 50 / 100) (n - n * 50 / 100)
              (n * tp / 100) (n - n * tp / 100) M1 M2 H1 H2 ltac:(lia)) as [Gle Glt].
  split; [| split].
  - apply Rmult_lt_0_compat; [apply Rmult_lt_0_compat; assumption | lra].
  - apply Rmult_le_compat_r; [lra |]. apply Rmult_le_compat_l; [lra |].
    apply Gle. exact Hle.
  - intros H45. apply Rmult_lt_compat_r; [lra |].
    apply Rmult_lt_compat_l; [exact Hs |]. apply Glt. exact (Hlt H45).
Qed.

Lemma mde_sweep_optimum :
  optimal_mde_point (map (mde_sweep_row Phi_inv n power alpha) (py_range 5 96 5))
  = Returns (50%Z,
             Fin ((Phi_inv (1 - alpha / 2) + Phi_inv power)
                  * std_error (n * 50 / 100) (n - n * 50 / 100) * 100)).
Proof.
  unfold optimal_mde_point.
  set (v := fun t =>
    (Phi_inv (1 - alpha / 2) + Phi_inv power)
    * std_error (n * t / 100) (n - n * t / 100) * 100).
  assert (Hcol : column_mde (map (mde_sweep_row Phi_inv n power alpha) (py_range 5 96 5))
                 = Returns (map Fin (map v (py_range 5 96 5)))).
  { rewrite range_5_96_5. cbn [map column_mde].
    rewrite (for_each_map _ (fun r => match r with
                                      | MdeRow _ m _ _ => m
                                      | SampleSizeRow _ _ _ _ => NaN
                                      end)); [reflexivity |].
    repeat constructor. }
  rewrite Hcol. cbn [bind].
  rewrite (idxmin_stable_argmin _ 9 (v 50%Z)).
  - reflexivity.
  - reflexivity.
  - rewrite range_5_96_5. cbn [map firstn].
    repeat constructor;
      match goal with
      | |- _ < v ?t =>
          destruct (mde_sweep_value t ltac:(lia)) as (_ & _ & H); apply H; lia
      end.
  - rewrite range_5_96_5. cbn [map].
    repeat (apply Forall_cons;
      [match goal with
       | |- _ <= v ?t =>
           destruct (mde_sweep_value t ltac:(lia)) as (_ & H & _); exact H
       end |]).
    apply Forall_nil.
Qed.

End MdeSweep.

(** X8: for every total of at least 20 units, every [alpha] in (0, 1) and
    every target power above [alpha / 2], the MDE sweep returns 19 rows at
    the percentages 5, 10, ..., 95, each with two groups that are not
    empty and add up to the total and with a positive MDE, and the optimal
    point that [main] reads off is the row at 50 percent; the key [mde] of
    the parameters is not read. *)
Theorem mde_sweep_optimum_is_half (Phi Phi_inv : R -> R)
    (n : Z) (power alpha : R) (o : option R) :
  standard_normal Phi Phi_inv ->
  (20 <= n)%Z -> 0 < alpha < 1 -> alpha / 2 < power < 1 ->
  exists rows : list row,
    generate_treatment_comparison_data Phi_inv "MDE"
      {| param_mde := o; param_power := Some power;
         param_alpha := Some alpha; param_n_total := Some n |} = Returns rows /\
    map row_treatment_pct rows
      = [5; 10; 15; 20; 25; 30; 35; 40; 45; 50; 55; 60; 65; 70; 75; 80; 85; 90; 95]%Z /\
    Forall (fun r => exists tp m n1 n2,
              r = MdeRow tp (Fin m) n1 n2 /\ 0 < m /\
              (0 < n1)%Z /\ (0 < n2)%Z /\ (n1 + n2 = n)%Z) rows /\
    exists m : R, optimal_mde_point rows = Returns (50%Z, Fin m).
Proof.
  intros N Hn Ha Hp.
  exists (map (mde_sweep_row Phi_inv n power alpha) (py_range 5 96 5)).
  split; [apply mde_sweep_rows; assumption |].
  split; [reflexivity |]. split.
  - rewrite range_5_96_5. cbn [map].
    repeat constructor;
      (do 4 eexists; split; [reflexivity |];
       match goal with
       | |- context [std_error (n * ?t / 100)] =>
           destruct (sweep_sizes n t Hn ltac:(lia)) as (H1 & H2 & _);
           destruct (mde_sweep_value Phi Phi_inv N n power alpha Hn Ha Hp t ltac:(lia))
             as (Hv & _)
       end;
       repeat split; [exact Hv | exact H1 | exact H2 | lia]).
  - eexists. apply (mde_sweep_optimum Phi Phi_inv N); assumption.
Qed.

Lemma mde_sweep_optimum_is_half_witness :
  exists rows : list row,
    generate_treatment_comparison_data softsign_ppf "MDE"
      {| param_mde := None; param_power := Some 0.9;
         param_alpha := Some 0.1; param_n_total := Some 137%Z |} = Returns rows /\
    map row_treatment_pct rows
      = [5; 10; 15; 20; 25; 30; 35; 40; 45; 50; 55; 60; 65; 70; 75; 80; 85; 90; 95]%Z /\
    Forall (fun r => exists tp m n1 n2,
              r = MdeRow tp (Fin m) n1 n2 /\ 0 < m /\
              (0 < n1)%Z /\ (0 < n2)%Z /\ (n1 + n2 = 137)%Z) rows /\
    exists m : R, optimal_mde_point rows = Returns (50%Z, Fin m).
Proof.
  apply (mde_sweep_optimum_is_half softsign_cdf softsign_ppf 137 0.9 0.1 None
           softsign_standard_normal); lia || lra.
Defined.

(** The MDE sweep over a total that is not negative: every call returns. *)
Lemma mde_sweep_returns (Phi_inv : R -> R) (n : Z) (power alpha : R) (l : list Z) :
  (0 <= n)%Z -> Forall (fun tp => (0 <= tp <= 100)%Z) l ->
  exists rows,
    for_each (fun tp =>
      ' (mde, n1, n2) <- calculate_mde Phi_inv n (IZR tp) power alpha ;;
      Returns (MdeRow tp (np_mul mde (Fin 100)) n1 n2)) l = Returns rows /\
    map row_treatment_pct rows = l /\
    Forall (fun r => exists tp m n1 n2, r = MdeRow tp m n1 n2 /\ (n1 + n2 = n)%Z) rows.
Proof.
  intros Hn Hl. induction Hl as [| tp l Htp _ IH].
  - exists []. repeat split. constructor.
  - destruct IH as (rows & Hrows & Hmap & Hall).
    destruct (calculate_mde_returns Phi_inv n (IZR tp) power alpha Hn) as (m & Hm).
    { destruct Htp as [H0 H1]. apply IZR_le in H0, H1. lra. }
    eexists. cbn [for_each]. rewrite Hm, Hrows. cbn [bind].
    split; [reflexivity |]. split.
    + cbn [map row_treatment_pct]. now rewrite Hmap.
    + constructor; [| exact Hall]. do 4 eexists. split; [reflexivity | lia].
Qed.

(** X13: how the MDE sweep ends.  It raises [KeyError] exactly when one of
    the keys [n_total], [power], [alpha] is absent; with the three keys
    and a total that is not negative it returns 19 rows at the percentages
    5, ..., 95 whose groups add up to the total, whatever [power] and
    [alpha] are.  A calculation type that is neither of the two known ones
    gives an empty data frame, in which [main] finds no column. *)
Theorem mde_sweep_outcome (Phi_inv : R -> R) (fixed_params : params) :
  (generate_treatment_comparison_data Phi_inv "MDE" fixed_params = Raises KeyError <->
   param_n_total fixed_params = None \/ param_power fixed_params = None \/
   param_alpha fixed_params = None) /\
  (forall n power alpha,
     param_n_total fixed_params = Some n -> param_power fixed_params = Some power ->
     param_alpha fixed_params = Some alpha -> (0 <= n)%Z ->
     exists rows,
       generate_treatment_comparison_data Phi_inv "MDE" fixed_params = Returns rows /\
       map row_treatment_pct rows
         = [5; 10; 15; 20; 25; 30; 35; 40; 45; 50; 55; 60; 65; 70; 75; 80; 85; 90; 95]%Z /\
       Forall (fun r => exists tp m n1 n2,
                 r = MdeRow tp m n1 n2 /\ (n1 + n2 = n)%Z) rows) /\
  (forall calculation_type,
     calculation_type <> "Sample Size"%string -> calculation_type <> "MDE"%string ->
     generate_treatment_comparison_data Phi_inv calculation_type fixed_params = Returns [] /\
     optimal_mde_point [] = Raises KeyError /\
     optimal_sample_size_point [] = Raises KeyError).
Proof.
  split; [| split].
  - unfold generate_treatment_comparison_data. cbn [String.eqb Ascii.eqb Bool.eqb].
    destruct fixed_params as [om op oa on]. cbn [param_n_total param_power param_alpha].
    destruct on as [n |]; cbn [getitem bind]; [| split; auto].
    destruct op as [power |]; cbn [getitem bind]; [| split; auto].
    destruct oa as [alpha |]; cbn [getitem bind]; [| split; auto].
    split; [| intros [H | [H | H]]; discriminate].
    intros H. apply for_each_raises in H. destruct H as (tp & _ & H).
    destruct (calculate_mde Phi_inv n (IZR tp) power alpha) as [[[m a] b] | e] eqn:E;
      cbn [bind] in H; [discriminate |].
    inversion H; subst e. apply calculate_mde_raises in E. destruct E as [E _].
    discriminate.
  - intros n power alpha Hn Hp Ha Hpos.
    unfold generate_treatment_comparison_data. cbn [String.eqb Ascii.eqb Bool.eqb].
    rewrite Hn, Hp, Ha. cbn [getitem bind].
    destruct (mde_sweep_returns Phi_inv n power alpha (py_range 5 96 5) Hpos)
      as (rows & Hrows & Hmap & Hall).
    { rewrite range_5_96_5. repeat (apply Forall_cons; [lia |]). apply Forall_nil. }
    exists rows. rewrite Hmap. repeat split; assumption.
  - intros calculation_type H1 H2. unfold generate_treatment_comparison_data.
    apply String.eqb_neq in H1, H2. rewrite H1, H2. repeat split.
Qed.

Lemma mde_sweep_outcome_witness :
  generate_treatment_comparison_data softsign_ppf "MDE"
    {| param_mde := Some 0.1; param_power := Some 0.8;
       param_alpha := Some 0.05; param_n_total := None |} = Raises KeyError /\
  exists rows,
    generate_treatment_comparison_data softsign_ppf "MDE"
      {| param_mde := None; param_power := Some 7;
         param_alpha := Some 0.05; param_n_total := Some 10%Z |} = Returns rows /\
    map row_treatment_pct rows
      = [5; 10; 15; 20; 25; 30; 35; 40; 45; 50; 55; 60; 65; 70; 75; 80; 85; 90; 95]%Z /\
    Forall (fun r => exists tp m n1 n2,
              r = MdeRow tp m n1 n2 /\ (n1 + n2 = 10)%Z) rows.
Proof.
  split.
  - destruct (mde_sweep_outcome softsign_ppf
                {| param_mde := Some 0.1; param_power := Some 0.8;
                   param_alpha := Some 0.05; param_n_total := None |}) as (Hk & _).
    apply Hk. left. reflexivity.
  - destruct (mde_sweep_outcome softsign_ppf
                {| param_mde := None; param_power := Some 7;
                   param_alpha := Some 0.05; param_n_total := Some 10%Z |})
      as (_ & Hr & _).
    apply (Hr 10%Z 7 0.05); reflexivity || lia.
Defined.

(** ** The sample-size sweep *)

Section SampleSizeSweep.

Variable Phi_inv : R -> R.
Variables mde power alpha : R.
Hypothesis Hm : mde <> 0.
Hypothesis Hp : 0 < power < 1.
Hypothesis Ha : 0 < alpha < 2.

Lemma sample_size_sweep_step (tp : Z) :
  (1 <= tp <= 99)%Z ->
  (' (n_total, n1, n2) <- calculate_sample_size Phi_inv (mde / 100) power (IZR tp) alpha ;;
   Returns (SampleSizeRow tp n_total n1 n2))
  = Returns (sample_size_sweep_row Phi_inv mde power alpha tp).
Proof.
  intros [H0 H1]. apply IZR_le in H0, H1.
  rewrite calculate_sample_size_regular by lra.
  unfold sample_size_sweep_row.
  destruct (spec_sample_size Phi_inv (mde / 100) power (IZR tp / 100) alpha) as [[t a] b].
  reflexivity.
Qed.

Lemma sample_size_sweep_rows (o : option Z) :
  generate_treatment_comparison_data Phi_inv "Sample Size"
    {| param_mde := Some mde; param_power := Some power;
       param_alpha := Some alpha; param_n_total := o |}
  = Returns (map (sample_size_sweep_row Phi_inv mde power alpha) (py_range 5 96 5)).
Proof.
  unfold generate_treatment_comparison_data. cbn [String.eqb Ascii.eqb Bool.eqb].
  cbn [param_mde param_power param_alpha getitem bind].
  apply for_each_map. rewrite range_5_96_5.
  repeat (apply Forall_cons; [apply sample_size_sweep_step; lia |]). apply Forall_nil.
Qed.

(** The row at [100 - tp] is the mirror image of the row at [tp]. *)
Lemma sample_size_sweep_row_mirror (tp : Z) :
  sample_size_sweep_row Phi_inv mde power alpha (100 - tp)
  = mirror_row (sample_size_sweep_row Phi_inv mde power alpha tp).
Proof.
  unfold sample_size_sweep_row, spec_sample_size, spec_nTotal_raw. cbv zeta.
  rewrite minus_IZR.
  replace ((100 - IZR tp) / 100) with (1 - IZR tp / 100) by lra.
  replace (1 - (1 - IZR tp / 100)) with (IZR tp / 100) by lra.
  replace ((1 - IZR tp / 100) * (IZR tp / 100))
    with (IZR tp / 100 * (1 - IZR tp / 100)) by ring.
  cbn [mirror_row]. f_equal. apply Z.add_comm.
Qed.

End SampleSizeSweep.

(** X9: how the sample-size sweep ends.  It raises [KeyError] exactly
    when one of the keys [mde], [power], [alpha] is absent.  With the
    three keys, an [mde] of 0, a [power] outside (0, 1) or an [alpha]
    outside (0, 2) makes the first row raise [OverflowError] or
    [ValueError]; an [mde] of magnitude between [1 / 10 ^ 9] and [10 ^ 9],
    a [power] in (0, 1) and an [alpha] between [1 / 10 ^ 9] and
    [2 - 1 / 10 ^ 9] return a table; and every table returned has 19 rows
    at the percentages 5, ..., 95, each with a sample size that is the sum
    of its two groups. *)
Theorem sample_size_sweep_outcome (Phi_inv : R -> R) (fixed_params : params) :
  (generate_treatment_comparison_data Phi_inv "Sample Size" fixed_params = Raises KeyError
   <-> param_mde fixed_params = None \/ param_power fixed_params = None \/
       param_alpha fixed_params = None) /\
  (forall mde power alpha,
     param_mde fixed_params = Some mde -> param_power fixed_params = Some power ->
     param_alpha fixed_params = Some alpha ->
     (mde = 0 \/ ~ 0 < power < 1 \/ ~ 0 < alpha < 2 ->
      generate_treatment_comparison_data Phi_inv "Sample Size" fixed_params
      = Raises OverflowError \/
      generate_treatment_comparison_data Phi_inv "Sample Size" fixed_params
      = Raises ValueError) /\
     (1 / 10 ^ 9 <= Rabs mde <= 10 ^ 9 -> 0 < power < 1 ->
      1 / 10 ^ 9 <= alpha <= 2 - 1 / 10 ^ 9 ->
      exists rows,
        generate_treatment_comparison_data Phi_inv "Sample Size" fixed_params
        = Returns rows) /\
     (forall rows,
        generate_treatment_comparison_data Phi_inv "Sample Size" fixed_params
        = Returns rows ->
        map row_treatment_pct rows
          = [5; 10; 15; 20; 25; 30; 35; 40; 45; 50; 55; 60; 65; 70; 75; 80; 85; 90; 95]%Z /\
        Forall (fun r => exists tp n1 n2,
                  r = SampleSizeRow tp (n1 + n2) n1 n2) rows)).
Proof.
  pose proof float_margin_pos as Hc.
  destruct fixed_params as [om op oa on].
  assert (Hbad : forall mde power alpha,
    mde = 0 \/ ~ 0 < power < 1 \/ ~ 0 < alpha < 2 ->
    generate_treatment_comparison_data Phi_inv "Sample Size"
      {| param_mde := Some mde; param_power := Some power;
         param_alpha := Some alpha; param_n_total := on |} = Raises OverflowError \/
    generate_treatment_comparison_data Phi_inv "Sample Size"
      {| param_mde := Some mde; param_power := Some power;
         param_alpha := Some alpha; param_n_total := on |} = Raises ValueError).
  { intros mde power alpha Hnot.
    unfold generate_treatment_comparison_data. cbn [String.eqb Ascii.eqb Bool.eqb].
    cbn [param_mde param_power param_alpha getitem bind]. rewrite range_5_96_5.
    assert (Hcase : mde / 100 = 0 \/ ~ 0 < power < 1 \/ ~ 0 < alpha < 2)
      by (destruct Hnot as [-> | H]; [left; lra | right; exact H]).
    destruct (calculate_sample_size_not_finite Phi_inv (mde / 100) power (IZR 5) alpha
                ltac:(lra) ltac:(lra) Hcase) as [E | E].
    - left. apply for_each_head_raises. now rewrite E.
    - right. apply for_each_head_raises. now rewrite E. }
  assert (Hgood : forall mde power alpha,
    mde <> 0 -> 0 < power < 1 -> 0 < alpha < 2 ->
    generate_treatment_comparison_data Phi_inv "Sample Size"
      {| param_mde := Some mde; param_power := Some power;
         param_alpha := Some alpha; param_n_total := on |}
    = Returns (map (sample_size_sweep_row Phi_inv mde power alpha) (py_range 5 96 5)))
    by (intros; now apply sample_size_sweep_rows).
  assert (Hdec : forall mde power alpha,
            (mde <> 0 /\ 0 < power < 1 /\ 0 < alpha < 2) \/
            (mde = 0 \/ ~ 0 < power < 1 \/ ~ 0 < alpha < 2)).
  { intros mde power alpha.
    destruct (Req_EM_T mde 0); [right; tauto |].
    destruct (Rlt_dec 0 power); [| right; right; left; lra].
    destruct (Rlt_dec power 1); [| right; right; left; lra].
    destruct (Rlt_dec 0 alpha); [| right; right; right; lra].
    destruct (Rlt_dec alpha 2); [| right; right; right; lra].
    left. repeat split; assumption. }
  split.
  - destruct om as [mde |];
      [| split; [auto | intros _; reflexivity]].
    destruct op as [power |];
      [| split; [auto | intros _; reflexivity]].
    destruct oa as [alpha |];
      [| split; [auto | intros _; reflexivity]].
    cbn [param_mde param_power param_alpha].
    split; [| intros [H | [H | H]]; discriminate].
    intros H. exfalso.
    destruct (Hdec mde power alpha) as [(G1 & G2 & G3) | G].
    + rewrite (Hgood mde power alpha G1 G2 G3) in H. discriminate.
    + destruct (Hbad mde power alpha G) as [E | E]; rewrite E in H; discriminate.
  - intros mde power alpha Hm Hp Ha.
    cbn [param_mde param_power param_alpha] in Hm, Hp, Ha. subst om op oa.
    split; [apply Hbad |]. split.
    + intros Bm Bp Ba. eexists. apply Hgood; [| exact Bp | lra].
      apply (Rabs_margin_nonzero _ _ Hc (proj1 Bm)).
    + intros rows Hrows.
      destruct (Hdec mde power alpha) as [(G1 & G2 & G3) | G].
      * rewrite (Hgood mde power alpha G1 G2 G3), range_5_96_5 in Hrows.
        cbn [map] in Hrows. injection Hrows as <-. split; [reflexivity |].
        repeat (apply Forall_cons;
          [unfold sample_size_sweep_row, spec_sample_size; cbv zeta;
           do 3 eexists; reflexivity |]).
        apply Forall_nil.
      * destruct (Hbad mde power alpha G) as [E | E]; rewrite E in Hrows; discriminate.
Qed.

Lemma sample_size_sweep_outcome_witness :
  generate_treatment_comparison_data softsign_ppf "Sample Size"
    {| param_mde := None; param_power := Some 0.8;
       param_alpha := Some 0.05; param_n_total := None |} = Raises KeyError /\
  exists rows,
    generate_treatment_comparison_data softsign_ppf "Sample Size"
      {| param_mde := Some 0.1; param_power := Some 0.8;
         param_alpha := Some 0.05; param_n_total := None |} = Returns rows.
Proof.
  split.
  - destruct (sample_size_sweep_outcome softsign_ppf
                {| param_mde := None; param_power := Some 0.8;
                   param_alpha := Some 0.05; param_n_total := None |}) as (Hk & _).
    apply Hk. left. reflexivity.
  - destruct (sample_size_sweep_outcome softsign_ppf
                {| param_mde := Some 0.1; param_power := Some 0.8;
                   param_alpha := Some 0.05; param_n_total := None |}) as (_ & Hr).
    destruct (Hr 0.1 0.8 0.05 eq_refl eq_refl eq_refl) as (_ & Hret & _).
    apply Hret; try lra.
    rewrite Rabs_right by lra. lra.
Defined.

(** X10: the table of the sample-size sweep is symmetric about 50
    percent: read from the bottom, it is the table with every row replaced
    by its mirror image (the percentage [100 - tp], the same sample size,
    the two groups exchanged). *)
Theorem sample_size_sweep_symmetric (Phi_inv : R -> R)
    (mde power alpha : R) (o : option Z) :
  mde <> 0 -> 0 < power < 1 -> 0 < alpha < 2 ->
  exists rows,
    generate_treatment_comparison_data Phi_inv "Sample Size"
      {| param_mde := Some mde; param_power := Some power;
         param_alpha := Some alpha; param_n_total := o |} = Returns rows /\
    rev rows = map mirror_row rows.
Proof.
  intros Hm Hp Ha. eexists. split; [now apply sample_size_sweep_rows |].
  rewrite range_5_96_5. cbn [rev app map].
  rewrite <- !(sample_size_sweep_row_mirror Phi_inv mde power alpha).
  reflexivity.
Qed.

Lemma sample_size_sweep_symmetric_witness :
  exists rows,
    generate_treatment_comparison_data softsign_ppf "Sample Size"
      {| param_mde := Some 0.1; param_power := Some 0.8;
         param_alpha := Some 0.05; param_n_total := None |} = Returns rows /\
    rev rows = map mirror_row rows.
Proof.
  apply (sample_size_sweep_symmetric softsign_ppf 0.1 0.8 0.05 None); lra.
Defined.

(** ** The optimum of the sample-size sweep *)

(** The raw total as the ratio of the squares times the design factor. *)
Lemma raw_total_as_ratio (zAlpha zBeta f m : R) :
  m <> 0 -> f * (1 - f) <> 0 ->
  spec_nTotal_raw zAlpha zBeta f m
  = (zAlpha + zBeta) ^ 2 / m ^ 2 * (1 / 4 / (f * (1 - f))).
Proof.
  intros Hm Hf. unfold spec_nTotal_raw. replace 0.25 with (1 / 4) by lra.
  assert (f <> 0) by (intros ->; apply Hf; ring).
  assert (1 - f <> 0) by (intros E; apply Hf; rewrite E; ring).
  field. repeat split; assumption.
Qed.

(** The two rounded groups are within 1 of the raw total. *)
Lemma sample_size_sweep_total_near (Phi_inv : R -> R) (mde power alpha : R) (tp : Z) :
  Rabs (sample_size_sweep_total Phi_inv mde power alpha tp
        - spec_nTotal_raw (Phi_inv (1 - alpha / 2)) (Phi_inv power)
            (IZR tp / 100) (mde / 100)) <= 1.
Proof.
  unfold sample_size_sweep_total, spec_sample_size. cbv beta iota zeta.
  set (raw := spec_nTotal_raw _ _ _ _). set (f := IZR tp / 100).
  rewrite plus_IZR.
  pose proof (py_round_near (raw * f)) as H1. apply Rabs_le_between in H1.
  pose proof (py_round_near (raw * (1 - f))) as H2. apply Rabs_le_between in H2.
  assert (E : raw * f + raw * (1 - f) = raw) by ring.
  apply Rabs_le. lra.
Qed.

(** A row of the sweep and its total. *)
Lemma sample_size_sweep_row_total (Phi_inv : R -> R) (mde power alpha : R) (tp : Z) :
  exists t n1 n2,
    sample_size_sweep_row Phi_inv mde power alpha tp = SampleSizeRow tp t n1 n2 /\
    IZR t = sample_size_sweep_total Phi_inv mde power alpha tp.
Proof.
  unfold sample_size_sweep_row, sample_size_sweep_total, spec_sample_size.
  cbv beta iota zeta. do 3 eexists. split; reflexivity.
Qed.

(** The [sample_size] column of the table. *)
Lemma column_of_sample_size_sweep (Phi_inv : R -> R) (mde power alpha : R) (l : list Z) :
  l <> [] ->
  column_sample_size (map (sample_size_sweep_row Phi_inv mde power alpha) l)
  = Returns (map Fin (map (sample_size_sweep_total Phi_inv mde power alpha) l)).
Proof.
  intros Hl.
  assert (H : forall l',
    for_each (fun r => match r with
                       | SampleSizeRow _ n _ _ => Returns (Fin (IZR n))
                       | MdeRow _ _ _ _ => Raises KeyError
                       end) (map (sample_size_sweep_row Phi_inv mde power alpha) l')
    = Returns (map Fin (map (sample_size_sweep_total Phi_inv mde power alpha) l'))).
  { induction l' as [| tp l' IH]; [reflexivity |].
    cbn [map for_each]. rewrite IH.
    destruct (sample_size_sweep_row_total Phi_inv mde power alpha tp)
      as (t & n1 & n2 & -> & <-).
    reflexivity. }
  destruct l as [| tp l]; [congruence |]. exact (H (tp :: l)).
Qed.

Section SampleSizeOptimum.

Variable Phi_inv : R -> R.
Variables mde power alpha : R.
Hypothesis Hm : mde <> 0.

(** When the balanced design needs at least 200 units before rounding,
    every other percentage of the grid needs strictly more units after
    rounding. *)
Lemma sample_size_total_least_at_half (tp : Z) :
  200 * (mde / 100) ^ 2 <= (Phi_inv (1 - alpha / 2) + Phi_inv power) ^ 2 ->
  (0 < tp < 100)%Z -> (tp <= 45 \/ 55 <= tp)%Z ->
  sample_size_sweep_total Phi_inv mde power alpha 50
  < sample_size_sweep_total Phi_inv mde power alpha tp.
Proof.
  intros Hbig [H0 H100] Hoff.
  pose proof (sample_size_sweep_total_near Phi_inv mde power alpha 50) as N50.
  pose proof (sample_size_sweep_total_near Phi_inv mde power alpha tp) as Ntp.
  apply Rabs_le_between in N50, Ntp.
  apply IZR_lt in H0, H100.
  set (t := IZR tp) in *.
  assert (Ht : t <= 45 \/ 55 <= t)
    by (destruct Hoff as [H | H]; apply IZR_le in H; [left | right]; exact H).
  assert (Hm' : mde / 100 <> 0) by lra.
  assert (HP : 0 < t / 100 * (1 - t / 100) <= 99 / 400).
  { split; [nra |]. destruct Ht; nra. }
  rewrite raw_total_as_ratio in N50, Ntp by lra.
  set (K := (Phi_inv (1 - alpha / 2) + Phi_inv power) ^ 2 / (mde / 100) ^ 2) in *.
  assert (Hm2 : 0 < (mde / 100) ^ 2).
  { pose proof (Rle_0_sqr (mde / 100)) as Hq. unfold Rsqr in Hq.
    assert ((mde / 100) ^ 2 <> 0) by (apply pow_nonzero; exact Hm'). nra. }
  assert (HK : 200 <= K).
  { unfold K. apply Rmult_le_reg_r with ((mde / 100) ^ 2); [exact Hm2 |].
    unfold Rdiv at 2. rewrite Rmult_assoc, Rinv_l by lra. lra. }
  replace (1 / 4 / (IZR 50 / 100 * (1 - IZR 50 / 100))) with 1 in N50 by lra.
  set (q := 1 / 4 / (t / 100 * (1 - t / 100))) in *.
  assert (Hq : 100 / 99 <= q).
  { unfold q. set (P := t / 100 * (1 - t / 100)) in *.
    apply Rmult_le_reg_r with P; [lra |].
    unfold Rdiv at 2. rewrite Rmult_assoc, Rinv_l by lra. lra. }
  nra.
Qed.

(** When the effect is so large that the raw requirement rounds away,
    both groups of every row are 0. *)
Lemma sample_size_sweep_row_of_large_effect (tp : Z) :
  10 * (Phi_inv (1 - alpha / 2) + Phi_inv power) ^ 2 < (mde / 100) ^ 2 ->
  (5 <= tp <= 95)%Z ->
  sample_size_sweep_row Phi_inv mde power alpha tp = SampleSizeRow tp 0 0 0.
Proof.
  intros Hbig [H5 H95]. apply IZR_le in H5, H95.
  unfold sample_size_sweep_row, spec_sample_size. cbv beta iota zeta.
  set (t := IZR tp) in *.
  assert (Hm' : mde / 100 <> 0) by lra.
  assert (HP : 0 < t / 100 * (1 - t / 100)) by nra.
  rewrite raw_total_as_ratio by lra.
  set (K := (Phi_inv (1 - alpha / 2) + Phi_inv power) ^ 2 / (mde / 100) ^ 2).
  assert (Hm2 : 0 < (mde / 100) ^ 2).
  { pose proof (Rle_0_sqr (mde / 100)) as Hq. unfold Rsqr in Hq.
    assert ((mde / 100) ^ 2 <> 0) by (apply pow_nonzero; exact Hm'). nra. }
  assert (HK : 0 <= K < 1 / 10).
  { unfold K. split.
    - apply Rdiv_nonneg_pos; [| exact Hm2].
      pose proof (Rle_0_sqr (Phi_inv (1 - alpha / 2) + Phi_inv power)) as Hq.
      unfold Rsqr in Hq. lra.
    - apply Rmult_lt_reg_r with ((mde / 100) ^ 2); [exact Hm2 |].
      unfold Rdiv at 1. rewrite Rmult_assoc, Rinv_l by lra. lra. }
  assert (E1 : K * (1 / 4 / (t / 100 * (1 - t / 100))) * (t / 100)
               = K * (25 / (100 - t))) by (field; lra).
  assert (E2 : K * (1 / 4 / (t / 100 * (1 - t / 100))) * (1 - t / 100)
               = K * (25 / t)) by (field; lra).
  assert (B1 : 0 < 25 / (100 - t) <= 5).
  { split; [apply Rdiv_lt_0_compat; lra |].
    apply Rmult_le_reg_r with (100 - t); [lra |].
    unfold Rdiv. rewrite Rmult_assoc, Rinv_l by lra. lra. }
  assert (B2 : 0 < 25 / t <= 5).
  { split; [apply Rdiv_lt_0_compat; lra |].
    apply Rmult_le_reg_r with t; [lra |].
    unfold Rdiv. rewrite Rmult_assoc, Rinv_l by lra. lra. }
  rewrite E1, E2, !py_round_zero; [reflexivity | |]; apply Rabs_def1; nra.
Qed.

End SampleSizeOptimum.

(** X11: when the balanced design needs at least 200 units before
    rounding, [200 * (mde / 100) ^ 2 <= (zAlpha + zBeta) ^ 2], the optimum
    that [main] reads off the sample-size table is the row at 50 percent,
    and every other row needs strictly more units; the key [n_total] is
    not read. *)
Theorem sample_size_sweep_optimum_is_half (Phi_inv : R -> R)
    (mde power alpha : R) (o : option Z) :
  mde <> 0 -> 0 < power < 1 -> 0 < alpha < 2 ->
  200 * (mde / 100) ^ 2 <= (Phi_inv (1 - alpha / 2) + Phi_inv power) ^ 2 ->
  exists rows n,
    generate_treatment_comparison_data Phi_inv "Sample Size"
      {| param_mde := Some mde; param_power := Some power;
         param_alpha := Some alpha; param_n_total := o |} = Returns rows /\
    optimal_sample_size_point rows = Returns (50%Z, n) /\
    Forall (fun r => exists tp t n1 n2,
              r = SampleSizeRow tp t n1 n2 /\ (tp <> 50 -> n < t)%Z) rows.
Proof.
  intros Hm Hp Ha Hbig.
  destruct (sample_size_sweep_row_total Phi_inv mde power alpha 50)
    as (n & a & b & Hrow & Hn).
  eexists. exists n. split; [now apply sample_size_sweep_rows |].
  assert (Hleast : forall tp, (0 < tp < 100)%Z -> (tp <= 45 \/ 55 <= tp)%Z ->
            IZR n < sample_size_sweep_total Phi_inv mde power alpha tp).
  { intros tp H1 H2. rewrite Hn. now apply sample_size_total_least_at_half. }
  split.
  - unfold optimal_sample_size_point.
    rewrite column_of_sample_size_sweep by (rewrite range_5_96_5; discriminate).
    cbn [bind].
    rewrite (idxmin_stable_argmin _ 9 (IZR n)).
    + rewrite range_5_96_5. cbn [map bind loc nth_error]. rewrite Hrow. reflexivity.
    + rewrite range_5_96_5. cbn [map nth_error]. now rewrite Hn.
    + rewrite range_5_96_5. cbn [map firstn].
      repeat (apply Forall_cons; [apply Hleast; lia |]). apply Forall_nil.
    + rewrite range_5_96_5. cbn [map].
      repeat (apply Forall_cons;
        [first [rewrite Hn; apply Rle_refl | apply Rlt_le, Hleast; lia] |]).
      apply Forall_nil.
  - rewrite range_5_96_5. cbn [map].
    repeat (apply Forall_cons;
      [match goal with
       | |- exists _ _ _ _, sample_size_sweep_row _ _ _ _ ?tp = _ /\ _ =>
           destruct (sample_size_sweep_row_total Phi_inv mde power alpha tp)
             as (t' & a' & b' & Hrow' & Ht');
           exists tp, t', a', b'; split; [exact Hrow' |];
           intros Hne; apply lt_IZR; rewrite Ht';
           first [exfalso; apply Hne; reflexivity | apply Hleast; lia]
       end |]).
    apply Forall_nil.
Qed.

Lemma sample_size_sweep_optimum_is_half_witness :
  exists rows n,
    generate_treatment_comparison_data softsign_ppf "Sample Size"
      {| param_mde := Some 0.1; param_power := Some 0.75;
         param_alpha := Some 0.5; param_n_total := None |} = Returns rows /\
    optimal_sample_size_point rows = Returns (50%Z, n) /\
    Forall (fun r => exists tp t n1 n2,
              r = SampleSizeRow tp t n1 n2 /\ (tp <> 50 -> n < t)%Z) rows.
Proof.
  apply (sample_size_sweep_optimum_is_half softsign_ppf 0.1 0.75 0.5 None); try lra.
  replace (1 - 0.5 / 2) with 0.75 by lra. rewrite softsign_ppf_075. lra.
Defined.

(** X15: when the effect is so large that the raw requirement rounds
    away, [10 * (zAlpha + zBeta) ^ 2 < (mde / 100) ^ 2], every row of the
    sample-size table has a sample size of 0 with two empty groups, and
    the optimum that [main] reads off is the first row: 5 percent with a
    sample size of 0, since [idxmin] takes the first of equal entries. *)
Theorem sample_size_sweep_of_large_effect (Phi_inv : R -> R)
    (mde power alpha : R) (o : option Z) :
  0 < power < 1 -> 0 < alpha < 2 ->
  10 * (Phi_inv (1 - alpha / 2) + Phi_inv power) ^ 2 < (mde / 100) ^ 2 ->
  exists rows,
    generate_treatment_comparison_data Phi_inv "Sample Size"
      {| param_mde := Some mde; param_power := Some power;
         param_alpha := Some alpha; param_n_total := o |} = Returns rows /\
    rows = map (fun tp => SampleSizeRow tp 0 0 0) (py_range 5 96 5) /\
    optimal_sample_size_point rows = Returns (5%Z, 0%Z).
Proof.
  intros Hp Ha Hbig.
  assert (Hm : mde <> 0).
  { intros ->.
    pose proof (Rle_0_sqr (Phi_inv (1 - alpha / 2) + Phi_inv power)) as Hq.
    unfold Rsqr in Hq. replace ((0 / 100) ^ 2) with 0 in Hbig by lra. lra. }
  assert (Hrows : map (sample_size_sweep_row Phi_inv mde power alpha) (py_range 5 96 5)
                  = map (fun tp => SampleSizeRow tp 0 0 0) (py_range 5 96 5)).
  { rewrite range_5_96_5. cbn [map].
    rewrite !(sample_size_sweep_row_of_large_effect Phi_inv mde power alpha Hm _ Hbig)
      by lia.
    reflexivity. }
  eexists. split; [now apply sample_size_sweep_rows |].
  split; [exact Hrows |].
  assert (Hidx : idxmin (map Fin (map (fun _ : Z => 0) (py_range 5 96 5)))
                 = Returns 0%nat).
  { apply (idxmin_stable_argmin _ 0 0).
    - reflexivity.
    - apply Forall_nil.
    - rewrite range_5_96_5. cbn [map].
      repeat (apply Forall_cons; [apply Rle_refl |]). apply Forall_nil. }
  rewrite Hrows. unfold optimal_sample_size_point.
  rewrite range_5_96_5 in *. cbn [map] in Hidx.
  cbn [map column_sample_size for_each bind]. rewrite Hidx. reflexivity.
Qed.

Lemma sample_size_sweep_of_large_effect_witness :
  exists rows,
    generate_treatment_comparison_data softsign_ppf "Sample Size"
      {| param_mde := Some 1000; param_power := Some 0.75;
         param_alpha := Some 0.5; param_n_total := None |} = Returns rows /\
    rows = map (fun tp => SampleSizeRow tp 0 0 0) (py_range 5 96 5) /\
    optimal_sample_size_point rows = Returns (5%Z, 0%Z).
Proof.
  apply (sample_size_sweep_of_large_effect softsign_ppf 1000 0.75 0.5 None); try lra.
  replace (1 - 0.5 / 2) with 0.75 by lra. rewrite softsign_ppf_075. lra.
Defined.

(** ** The round trip with rounding *)

(** [round] of a number that is not negative is not negative. *)
Lemma py_round_nonneg (x : R) : 0 <= x -> (0 <= py_round x)%Z.
Proof.
  intros Hx. pose proof (py_round_near x) as Hn. apply Rabs_le_between in Hn.
  apply le_IZR. assert (H : -1 < IZR (py_round x)) by lra.
  apply lt_IZR in H. apply IZR_le. lia.
Qed.

(** The group sizes that [calculate_power] derives from the total of the
    two rounded groups are within 2 units of the raw products. *)
Lemma recomputed_groups_near (raw treatment_pct : R) :
  0 <= raw -> 0 < treatment_pct < 100 ->
  let f := treatment_pct / 100 in
  let n1 := py_round (raw * f) in
  let n2 := py_round (raw * (1 - f)) in
  let n1' := py_int (IZR (n1 + n2) * treatment_pct / 100) in
  let n2' := (n1 + n2 - n1')%Z in
  Rabs (IZR n1 - raw * f) <= 1 / 2 /\ Rabs (IZR n2 - raw * (1 - f)) <= 1 / 2 /\
  Rabs (IZR n1' - raw * f) < 2 /\ Rabs (IZR n2' - raw * (1 - f)) < 2.
Proof.
  intros Hraw Hpct f n1 n2 n1' n2'.
  assert (Hf : 0 < f < 1) by (unfold f; lra).
  pose proof (py_round_near (raw * f)) as H1. fold n1 in H1.
  pose proof (py_round_near (raw * (1 - f))) as H2. fold n2 in H2.
  split; [exact H1 |]. split; [exact H2 |].
  apply Rabs_le_between in H1, H2.
  assert (Hn : raw - 1 <= IZR (n1 + n2) <= raw + 1) by (rewrite plus_IZR; lra).
  assert (Hn0 : 0 <= IZR (n1 + n2)).
  { apply IZR_le.
    pose proof (py_round_nonneg (raw * f) ltac:(nra)).
    pose proof (py_round_nonneg (raw * (1 - f)) ltac:(nra)).
    fold n1 in H. fold n2 in H0. lia. }
  set (y := IZR (n1 + n2) * treatment_pct / 100).
  assert (Hy : y = IZR (n1 + n2) * f) by (unfold y, f; lra).
  assert (Hy0 : 0 <= y) by (rewrite Hy; nra).
  assert (Hfl : IZR n1' <= y < IZR n1' + 1).
  { unfold n1'. fold y. rewrite py_int_nonneg by exact Hy0.
    pose proof (Zfloor_bound y). lra. }
  assert (Hylo : raw * f - f <= y) by (rewrite Hy; nra).
  assert (Hyhi : y <= raw * f + f) by (rewrite Hy; nra).
  assert (Hyc : IZR (n1 + n2) - y = IZR (n1 + n2) * (1 - f)) by (rewrite Hy; ring).
  assert (Hclo : raw * (1 - f) - (1 - f) <= IZR (n1 + n2) - y) by (rewrite Hyc; nra).
  assert (Hchi : IZR (n1 + n2) - y <= raw * (1 - f) + (1 - f)) by (rewrite Hyc; nra).
  split; apply Rabs_def1; unfold n2'; rewrite ?minus_IZR; lra.
Qed.

(** [round] of a number less than half a unit from an integer. *)
Lemma py_round_eq (k : Z) (x : R) : Rabs (x - IZR k) < 1 / 2 -> py_round x = k.
Proof.
  intros Hx. apply Rabs_def2 in Hx.
  pose proof (py_round_near x) as Hn. apply Rabs_le_between in Hn.
  assert (H1 : IZR k - 1 < IZR (py_round x) < IZR k + 1) by lra.
  destruct H1 as [Hlo Hhi].
  rewrite <- minus_IZR in Hlo. rewrite <- plus_IZR in Hhi.
  apply lt_IZR in Hlo, Hhi. lia.
Qed.

(** The two functions round differently: a raw requirement of 1708.3
    units at 99 percent is returned as the groups 1691 and 17, and
    [calculate_power] derives 1690 and 18 from their total. *)
Lemma recomputed_groups_can_differ :
  let raw := 1708.3 in
  let n1 := py_round (raw * (99 / 100)) in
  let n2 := py_round (raw * (1 - 99 / 100)) in
  let n1' := py_int (IZR (n1 + n2) * 99 / 100) in
  (n1 = 1691 /\ n2 = 17 /\ n1' = 1690 /\ n1 + n2 - n1' = 18)%Z.
Proof.
  intros raw n1 n2 n1'.
  assert (H1 : n1 = 1691%Z) by (apply py_round_eq, Rabs_def1; unfold raw; lra).
  assert (H2 : n2 = 17%Z) by (apply py_round_eq, Rabs_def1; unfold raw; lra).
  assert (H3 : n1' = 1690%Z).
  { unfold n1'. rewrite H1, H2. apply py_int_eq; simpl; lra. }
  rewrite H1, H2, H3. repeat split; reflexivity.
Qed.

(** A size within 2 units of a requirement of at least [m > 2] units is
    within the factor [1 -+ 2 / m] of it. *)
Lemma inverse_sizes_near (a b K1 K2 m : R) :
  2 < m -> m <= a -> m <= b -> Rabs (K1 - a) < 2 -> Rabs (K2 - b) < 2 ->
  0 < K1 /\ 0 < K2 /\
  (1 - 2 / m) * (1 / K1 + 1 / K2) <= 1 / a + 1 / b /\
  1 / a + 1 / b <= (1 + 2 / m) * (1 / K1 + 1 / K2).
Proof.
  intros Hm Ha Hb H1 H2. apply Rabs_def2 in H1, H2.
  set (t := 2 / m).
  assert (Ht : 0 < t < 1).
  { unfold t. split; [apply Rdiv_lt_0_compat; lra |].
    apply Rmult_lt_reg_r with m; [lra |]. unfold Rdiv. rewrite Rmult_assoc, Rinv_l; lra. }
  assert (Htm : t * m = 2) by (unfold t; field; lra).
  assert (Hta : 2 <= t * a) by nra.
  assert (Htb : 2 <= t * b) by nra.
  assert (HK1 : 0 < K1) by lra. assert (HK2 : 0 < K2) by lra.
  assert (lower : forall K c, 0 < K -> 0 < c -> (1 - t) * c <= K ->
            (1 - t) * (1 / K) <= 1 / c).
  { intros K c HK Hc H.
    assert (E : 1 / c - (1 - t) * (1 / K) = (K - (1 - t) * c) / (K * c)) by (field; lra).
    assert (0 <= (K - (1 - t) * c) / (K * c)); [| lra].
    apply Rdiv_nonneg_pos; nra. }
  assert (upper : forall K c, 0 < K -> 0 < c -> K <= (1 + t) * c ->
            1 / c <= (1 + t) * (1 / K)).
  { intros K c HK Hc H.
    assert (E : (1 + t) * (1 / K) - 1 / c = ((1 + t) * c - K) / (K * c)) by (field; lra).
    assert (0 <= ((1 + t) * c - K) / (K * c)); [| lra].
    apply Rdiv_nonneg_pos; nra. }
  split; [exact HK1 |]. split; [exact HK2 |]. split.
  - pose proof (lower K1 a HK1 ltac:(lra) ltac:(lra)).
    pose proof (lower K2 b HK2 ltac:(lra) ltac:(lra)). lra.
  - pose proof (upper K1 a HK1 ltac:(lra) ltac:(lra)).
    pose proof (upper K2 b HK2 ltac:(lra) ltac:(lra)). lra.
Qed.

(** The raw requirement and the critical values: at the exact groups the
    squared standard error times the squared sum of the critical values is
    the squared effect. *)
Lemma exact_groups_identity (zAlpha zBeta f mde : R) :
  0 < mde -> 0 < f < 1 ->
  let raw := spec_nTotal_raw zAlpha zBeta f mde in
  0 < raw ->
  (zAlpha + zBeta) ^ 2 * (1 / 4 * (1 / (raw * f) + 1 / (raw * (1 - f)))) = mde ^ 2.
Proof.
  intros Hm Hf raw Hraw.
  assert (Hs : (zAlpha + zBeta) ^ 2 = 4 * raw * (f * (1 - f)) * mde ^ 2).
  { unfold raw, spec_nTotal_raw. replace 0.25 with (1 / 4) by lra. field.
    repeat split; lra. }
  rewrite Hs. field. repeat split; lra.
Qed.

(** With a distribution function that is Lipschitz, the power curve is
    Lipschitz in the standardised effect. *)
Lemma power_curve_lipschitz (Phi : R -> R) (L z x y : R) :
  (forall u v, u <= v -> 0 <= Phi v - Phi u <= L * (v - u)) ->
  Rabs (power_curve Phi z y - power_curve Phi z x) <= L * Rabs (y - x).
Proof.
  intros HL. unfold power_curve.
  assert (Hcase : forall x y, x <= y ->
    Rabs (1 - Phi (z - y) + Phi (- z - y) - (1 - Phi (z - x) + Phi (- z - x)))
    <= L * (y - x)).
  { intros x0 y0 Hxy.
    pose proof (HL (z - y0) (z - x0) ltac:(lra)) as A.
    pose proof (HL (- z - y0) (- z - x0) ltac:(lra)) as B.
    replace (z - x0 - (z - y0)) with (y0 - x0) in A by ring.
    replace (- z - x0 - (- z - y0)) with (y0 - x0) in B by ring.
    apply Rabs_le. lra. }
  destruct (Rle_dec x y) as [Hxy | Hxy].
  - rewrite (Rabs_right (y - x)) by lra. now apply Hcase.
  - rewrite (Rabs_left (y - x)) by lra. rewrite Rabs_minus_sym.
    replace (- (y - x)) with (x - y) by ring. apply Hcase. lra.
Qed.

(** The standardised effect at groups within 2 units of the exact
    requirement is within the factor [1 -+ 2 / m] of the sum of the
    critical values. *)
Lemma standardised_effect_near (zAlpha zBeta f mde m : R) (k1 k2 : Z) :
  0 < mde -> 0 < f < 1 ->
  let raw := spec_nTotal_raw zAlpha zBeta f mde in
  2 < m -> m <= raw * f -> m <= raw * (1 - f) ->
  Rabs (IZR k1 - raw * f) < 2 -> Rabs (IZR k2 - raw * (1 - f)) < 2 ->
  let S := Rabs (zAlpha + zBeta) in
  (0 < k1)%Z /\ (0 < k2)%Z /\
  S * (1 - 2 / m) <= mde / std_error k1 k2 <= S * (1 + 2 / m).
Proof.
  intros Hmde Hf raw Hm Ha Hb H1 H2 S.
  assert (Hraw : 0 < raw) by nra.
  destruct (inverse_sizes_near _ _ _ _ m Hm Ha Hb H1 H2) as (HK1 & HK2 & Hlo & Hhi).
  assert (Hk1 : (0 < k1)%Z) by (apply lt_IZR; exact HK1).
  assert (Hk2 : (0 < k2)%Z) by (apply lt_IZR; exact HK2).
  split; [exact Hk1 |]. split; [exact Hk2 |].
  pose proof (std_error_pos k1 k2 Hk1 Hk2) as Hse.
  set (U := 1 / IZR k1 + 1 / IZR k2) in *.
  assert (HU : 0 < U).
  { unfold U. assert (0 < 1 / IZR k1) by (apply Rdiv_lt_0_compat; lra).
    assert (0 < 1 / IZR k2) by (apply Rdiv_lt_0_compat; lra). lra. }
  assert (Hse2 : std_error k1 k2 * std_error k1 k2 = 1 / 4 * U).
  { unfold std_error. fold U. rewrite sqrt_sqrt by lra. lra. }
  set (se := std_error k1 k2) in *.
  pose proof (exact_groups_identity zAlpha zBeta f mde Hmde Hf Hraw) as Hid.
  fold raw in Hid.
  set (V := 1 / (raw * f) + 1 / (raw * (1 - f))) in *.
  assert (HS2 : S * S = (zAlpha + zBeta) ^ 2).
  { unfold S, Rabs. destruct (Rcase_abs (zAlpha + zBeta)); ring. }
  rewrite <- HS2 in Hid.
  assert (HS : 0 <= S) by (apply Rabs_pos).
  set (t := 2 / m) in *.
  assert (Ht : 0 < t < 1).
  { unfold t. split; [apply Rdiv_lt_0_compat; lra |].
    apply Rmult_lt_reg_r with m; [lra |]. unfold Rdiv. rewrite Rmult_assoc, Rinv_l; lra. }
  assert (HSS : 0 <= S * S) by nra.
  assert (Hmm : mde ^ 2 = mde * mde) by ring.
  assert (L1 : S * (1 - t) * se <= mde).
  { assert (Hsq : (S * (1 - t) * se) * (S * (1 - t) * se) <= mde * mde).
    { replace ((S * (1 - t) * se) * (S * (1 - t) * se))
        with (S * S * ((1 - t) * ((1 - t) * (se * se)))) by ring.
      rewrite Hse2.
      assert ((1 - t) * ((1 - t) * (1 / 4 * U)) <= 1 / 4 * V) by nra.
      nra. }
    assert (0 <= S * (1 - t) * se) by (apply Rmult_le_pos; nra).
    nra. }
  assert (L2 : mde <= S * (1 + t) * se).
  { assert (Hsq : mde * mde <= (S * (1 + t) * se) * (S * (1 + t) * se)).
    { replace ((S * (1 + t) * se) * (S * (1 + t) * se))
        with (S * S * ((1 + t) * ((1 + t) * (se * se)))) by ring.
      rewrite Hse2.
      assert (1 / 4 * V <= (1 + t) * ((1 + t) * (1 / 4 * U))) by nra.
      nra. }
    assert (0 <= S * (1 + t) * se) by (apply Rmult_le_pos; nra).
    nra. }
  split.
  - apply Rmult_le_reg_r with se; [exact Hse |].
    unfold Rdiv. rewrite (Rmult_assoc mde), Rinv_l by lra. lra.
  - apply Rmult_le_reg_r with se; [exact Hse |].
    unfold Rdiv. rewrite (Rmult_assoc mde), Rinv_l by lra. lra.
Qed.

(** The algebraic law is Lipschitz with the constant 1 / 2. *)
Lemma softsign_cdf_lipschitz (u v : R) :
  u <= v -> 0 <= softsign_cdf v - softsign_cdf u <= 1 / 2 * (v - u).
Proof.
  intros Huv. unfold softsign_cdf.
  assert (G : forall x, 0 <= x -> x / (2 * (1 + Rabs x)) = 1 / 2 - 1 / (2 * (1 + x))).
  { intros x Hx. rewrite Rabs_right by lra. field. lra. }
  assert (G' : forall x, x <= 0 -> x / (2 * (1 + Rabs x)) = 1 / (2 * (1 - x)) - 1 / 2).
  { intros x Hx. unfold Rabs. destruct (Rcase_abs x); [field; lra |].
    assert (x = 0) by lra. subst x. field. }
  assert (D : forall p q, 0 < p -> p <= q -> 0 <= 1 / (2 * p) - 1 / (2 * q) <= 1 / 2 * (q - p) / (p * q)).
  { intros p q Hp Hpq.
    replace (1 / (2 * p) - 1 / (2 * q)) with (1 / 2 * (q - p) / (p * q)) by (field; lra).
    split; [| lra]. apply Rdiv_nonneg_pos; nra. }
  assert (Dv : forall p q c, 1 <= p -> p <= q -> 0 <= c -> c / (p * q) <= c).
  { intros p q c Hp Hq Hc.
    assert (Hpq : 1 <= p * q) by nra.
    apply Rmult_le_reg_r with (p * q); [lra |].
    unfold Rdiv. rewrite Rmult_assoc, Rinv_l by lra.
    pose proof (Rmult_le_compat_l c 1 (p * q) Hc Hpq). lra. }
  destruct (Rle_dec 0 u) as [Hu | Hu].
  - rewrite (G u), (G v) by lra.
    pose proof (D (1 + u) (1 + v) ltac:(lra) ltac:(lra)) as [A B].
    pose proof (Dv (1 + u) (1 + v) (1 / 2 * (1 + v - (1 + u))) ltac:(lra) ltac:(lra) ltac:(lra)).
    lra.
  - destruct (Rle_dec v 0) as [Hv | Hv].
    + rewrite (G' u), (G' v) by lra.
      pose proof (D (1 - v) (1 - u) ltac:(lra) ltac:(lra)) as [A B].
      pose proof (Dv (1 - v) (1 - u) (1 / 2 * (1 - u - (1 - v))) ltac:(lra) ltac:(lra) ltac:(lra)).
      lra.
    + rewrite (G' u), (G v) by lra.
      pose proof (D 1 (1 + v) ltac:(lra) ltac:(lra)) as [A B].
      pose proof (Dv 1 (1 + v) (1 / 2 * (1 + v - 1)) ltac:(lra) ltac:(lra) ltac:(lra)).
      pose proof (D 1 (1 - u) ltac:(lra) ltac:(lra)) as [A' B'].
      pose proof (Dv 1 (1 - u) (1 / 2 * (1 - u - 1)) ltac:(lra) ltac:(lra) ltac:(lra)).
      replace (2 * 1) with 2 in * by lra.
      lra.
Qed.

(** C1 as the code has it.  For a design whose two exact group
    requirements [nTotal_raw * frac] and [nTotal_raw * (1 - frac)] are at
    least [m > 2] units: [calculate_sample_size] returns groups within half
    a unit of the requirements; [calculate_power], given the returned
    total, derives its own groups with [int], within 2 units of the
    requirements and not empty; and the power it returns lies between the
    power curve at [|z_alpha + z_beta| * (1 - 2 / m)] and at
    [|z_alpha + z_beta| * (1 + 2 / m)].  With [L] a Lipschitz constant of
    [Phi], it is within [2 * L * |z_alpha + z_beta| / m] of the target
    power plus the far tail [Phi (- 2 * z_alpha - z_beta)], which is
    positive, and at most [alpha / 2] when the target power is at least
    [alpha / 2]. *)
Theorem round_trip_within_rounding (Phi Phi_inv : R -> R)
    (mde power treatment_pct alpha L m : R) :
  standard_normal Phi Phi_inv ->
  (forall u v, u <= v -> Phi v - Phi u <= L * (v - u)) ->
  0 < mde -> 0 < power < 1 -> 0 < treatment_pct < 100 -> 0 < alpha < 1 ->
  let frac := treatment_pct / 100 in
  let z_alpha := Phi_inv (1 - alpha / 2) in
  let z_beta := Phi_inv power in
  let nTotal_raw := spec_nTotal_raw z_alpha z_beta frac mde in
  2 < m -> m <= nTotal_raw * frac -> m <= nTotal_raw * (1 - frac) ->
  let tail := Phi (- 2 * z_alpha - z_beta) in
  let S := Rabs (z_alpha + z_beta) in
  exists (n n1 n2 n1' n2' : Z) (p : R),
    calculate_sample_size Phi_inv mde power treatment_pct alpha = Returns (n, n1, n2) /\
    calculate_power Phi Phi_inv n treatment_pct mde alpha = Returns (Fin p, n1', n2') /\
    round_trip_power Phi Phi_inv mde power treatment_pct alpha = Returns (Fin p) /\
    Rabs (IZR n1 - nTotal_raw * frac) <= 1 / 2 /\
    Rabs (IZR n2 - nTotal_raw * (1 - frac)) <= 1 / 2 /\
    Rabs (IZR n1' - nTotal_raw * frac) < 2 /\
    Rabs (IZR n2' - nTotal_raw * (1 - frac)) < 2 /\
    power_curve Phi z_alpha (S * (1 - 2 / m)) <= p <= power_curve Phi z_alpha (S * (1 + 2 / m)) /\
    Rabs (p - (power + tail)) <= 2 * L * S / m /\
    0 < tail /\ (alpha / 2 <= power -> tail <= alpha / 2).
Proof.
  intros N HL Hm Hp Ht Ha frac z_alpha z_beta nTotal_raw Hm2 Hma Hmb tail S.
  assert (Hf : 0 < frac < 1) by (unfold frac; lra).
  assert (Hraw : 0 < nTotal_raw) by nra.
  destruct (recomputed_groups_near nTotal_raw treatment_pct ltac:(lra) Ht)
    as (R1 & R2 & R1' & R2').
  fold frac in R1, R2, R1', R2'.
  set (n1 := py_round (nTotal_raw * frac)) in *.
  set (n2 := py_round (nTotal_raw * (1 - frac))) in *.
  set (n1' := py_int (IZR (n1 + n2) * treatment_pct / 100)) in *.
  destruct (standardised_effect_near z_alpha z_beta frac mde m n1' (n1 + n2 - n1')
              Hm Hf Hm2 Hma Hmb R1' R2') as (Hk1 & Hk2 & Hx).
  fold S in Hx.
  set (x := mde / std_error n1' (n1 + n2 - n1')) in *.
  assert (Hcss : calculate_sample_size Phi_inv mde power treatment_pct alpha
                 = Returns ((n1 + n2)%Z, n1, n2)).
  { rewrite calculate_sample_size_regular by lra. reflexivity. }
  assert (Hcp : calculate_power Phi Phi_inv (n1 + n2) treatment_pct mde alpha
                = Returns (Fin (power_curve Phi z_alpha x), n1', (n1 + n2 - n1')%Z)).
  { apply calculate_power_regular; [exact Hk1 | exact Hk2 | lra]. }
  assert (HS : 0 <= S) by apply Rabs_pos.
  assert (Ht2 : 0 < 2 / m < 1).
  { split; [apply Rdiv_lt_0_compat; lra |].
    apply Rmult_lt_reg_r with m; [lra |]. unfold Rdiv. rewrite Rmult_assoc, Rinv_l; lra. }
  assert (Hz : 0 <= z_alpha) by (left; apply (z_alpha_pos Phi Phi_inv N); exact Ha).
  assert (Hlow : 0 <= S * (1 - 2 / m)) by (apply Rmult_le_pos; lra).
  assert (Htarget : power_curve Phi z_alpha S = power + tail).
  { assert (Heven : power_curve Phi z_alpha S = power_curve Phi z_alpha (z_alpha + z_beta)).
    { unfold S, Rabs. destruct (Rcase_abs (z_alpha + z_beta));
        [apply (power_curve_even _ _ N) | reflexivity]. }
    rewrite Heven. apply (power_curve_at_target Phi Phi_inv N alpha power Hp). }
  exists (n1 + n2)%Z, n1, n2, n1', (n1 + n2 - n1')%Z, (power_curve Phi z_alpha x).
  split; [exact Hcss |]. split; [exact Hcp |]. split.
  { unfold round_trip_power. rewrite Hcss. cbn [bind]. rewrite Hcp. reflexivity. }
  split; [exact R1 |]. split; [exact R2 |]. split; [exact R1' |]. split; [exact R2' |].
  split; [| split].
  - split; apply (power_curve_monotone Phi Phi_inv N); lra.
  - rewrite <- Htarget.
    apply Rle_trans with (L * Rabs (x - S)).
    + apply power_curve_lipschitz. intros u v Huv. split; [| now apply HL].
      pose proof (Phi_nondecreasing Phi Phi_inv N u v Huv). lra.
    + assert (Hd : Rabs (x - S) <= S * (2 / m)) by (apply Rabs_le; lra).
      assert (HL0 : 0 <= L).
      { pose proof (HL 0 1 ltac:(lra)) as H01.
        pose proof (Phi_increasing _ _ N 0 1 ltac:(lra)). lra. }
      replace (2 * L * S / m) with (L * (S * (2 / m))) by (field; lra).
      apply Rmult_le_compat_l; assumption.
  - apply (far_tail_bound Phi Phi_inv N power alpha Hp Ha).
Qed.

Lemma round_trip_within_rounding_witness :
  exists (n n1 n2 n1' n2' : Z) (p : R),
    calculate_sample_size softsign_ppf 0.1 0.75 50 0.5 = Returns (n, n1, n2) /\
    round_trip_power softsign_cdf softsign_ppf 0.1 0.75 50 0.5 = Returns (Fin p) /\
    Rabs (IZR n1' - 200) < 2 /\ Rabs (IZR n2' - 200) < 2 /\
    Rabs (p - (0.75 + softsign_cdf (- 3))) <= 2 * (1 / 2) * 2 / 50.
Proof.
  assert (Hz : softsign_ppf (1 - 0.5 / 2) = 1)
    by (replace (1 - 0.5 / 2) with 0.75 by lra; exact softsign_ppf_075).
  assert (Hraw : spec_nTotal_raw (softsign_ppf (1 - 0.5 / 2)) (softsign_ppf 0.75)
                   (50 / 100) 0.1 = 400)
    by (unfold spec_nTotal_raw; rewrite Hz, softsign_ppf_075; lra).
  assert (HL : forall u v, u <= v ->
            softsign_cdf v - softsign_cdf u <= 1 / 2 * (v - u))
    by (intros u v Huv; now apply softsign_cdf_lipschitz).
  destruct (round_trip_within_rounding softsign_cdf softsign_ppf 0.1 0.75 50 0.5 (1 / 2) 50
              softsign_standard_normal HL ltac:(lra) ltac:(lra) ltac:(lra) ltac:(lra)
              ltac:(lra) ltac:(rewrite Hraw; lra) ltac:(rewrite Hraw; lra))
    as (n & n1 & n2 & n1' & n2' & p & H1 & _ & H3 & _ & _ & H6 & H7 & _ & H9 & _).
  exists n, n1, n2, n1', n2', p.
  rewrite Hraw in H6, H7. rewrite Hz, softsign_ppf_075 in H9.
  replace (400 * (50 / 100)) with 200 in H6 by lra.
  replace (400 * (1 - 50 / 100)) with 200 in H7 by lra.
  replace (- 2 * 1 - 1) with (- 3) in H9 by lra.
  replace (Rabs (1 + 1)) with 2 in H9 by (rewrite Rabs_right; lra).
  repeat split; assumption.
Defined.

(** X12: the effect that comes back.  For a design whose two exact group
    requirements are at least [m > 2] units and a target power of at least
    [alpha / 2], [calculate_mde] at the total that [calculate_sample_size]
    returns derives groups within 2 units of the requirements and returns
    an effect between [mde * m / (m + 2)] and [mde * m / (m - 2)]. *)
Theorem mde_round_trip_within_rounding (Phi Phi_inv : R -> R)
    (mde power treatment_pct alpha m : R) :
  standard_normal Phi Phi_inv ->
  0 < mde -> alpha / 2 <= power < 1 -> 0 < treatment_pct < 100 -> 0 < alpha < 1 ->
  let frac := treatment_pct / 100 in
  let nTotal_raw :=
    spec_nTotal_raw (Phi_inv (1 - alpha / 2)) (Phi_inv power) frac mde in
  2 < m -> m <= nTotal_raw * frac -> m <= nTotal_raw * (1 - frac) ->
  exists (n n1 n2 n1' n2' : Z) (mde' : R),
    calculate_sample_size Phi_inv mde power treatment_pct alpha = Returns (n, n1, n2) /\
    calculate_mde Phi_inv n treatment_pct power alpha = Returns (Fin mde', n1', n2') /\
    Rabs (IZR n1' - nTotal_raw * frac) < 2 /\
    Rabs (IZR n2' - nTotal_raw * (1 - frac)) < 2 /\
    mde * m / (m + 2) <= mde' <= mde * m / (m - 2).
Proof.
  intros N Hm Hp Ht Ha frac nTotal_raw Hm2 Hma Hmb.
  assert (Hf : 0 < frac < 1) by (unfold frac; lra).
  assert (Hraw : 0 < nTotal_raw) by nra.
  destruct (recomputed_groups_near nTotal_raw treatment_pct ltac:(lra) Ht)
    as (_ & _ & R1' & R2').
  fold frac in R1', R2'.
  set (n1 := py_round (nTotal_raw * frac)) in *.
  set (n2 := py_round (nTotal_raw * (1 - frac))) in *.
  set (n1' := py_int (IZR (n1 + n2) * treatment_pct / 100)) in *.
  destruct (standardised_effect_near (Phi_inv (1 - alpha / 2)) (Phi_inv power)
              frac mde m n1' (n1 + n2 - n1') Hm Hf Hm2 Hma Hmb R1' R2')
    as (Hk1 & Hk2 & Hx).
  pose proof (critical_values_sum_nonneg Phi Phi_inv N power alpha Ha Hp) as Hs.
  rewrite (Rabs_right (Phi_inv (1 - alpha / 2) + Phi_inv power)) in Hx by lra.
  set (s := Phi_inv (1 - alpha / 2) + Phi_inv power) in *.
  pose proof (std_error_pos n1' (n1 + n2 - n1') Hk1 Hk2) as Hse.
  set (se := std_error n1' (n1 + n2 - n1')) in *.
  assert (Hcss : calculate_sample_size Phi_inv mde power treatment_pct alpha
                 = Returns ((n1 + n2)%Z, n1, n2)).
  { rewrite calculate_sample_size_regular by lra. reflexivity. }
  assert (Hcm : calculate_mde Phi_inv (n1 + n2) treatment_pct power alpha
                = Returns (Fin (s * se), n1', (n1 + n2 - n1')%Z)).
  { apply calculate_mde_regular; [exact Hk1 | exact Hk2 | lra | lra]. }
  exists (n1 + n2)%Z, n1, n2, n1', (n1 + n2 - n1')%Z, (s * se).
  split; [exact Hcss |]. split; [exact Hcm |]. split; [exact R1' |]. split; [exact R2' |].
  assert (Ht2 : 0 < 2 / m < 1).
  { split; [apply Rdiv_lt_0_compat; lra |].
    apply Rmult_lt_reg_r with m; [lra |]. unfold Rdiv. rewrite Rmult_assoc, Rinv_l; lra. }
  destruct Hx as [Hlo Hhi].
  assert (Hlo' : s * se * (1 - 2 / m) <= mde).
  { apply (Rmult_le_compat_r se) in Hlo; [| lra].
    unfold Rdiv in Hlo at 2. rewrite (Rmult_assoc mde), Rinv_l, Rmult_1_r in Hlo by lra.
    lra. }
  assert (Hhi' : mde <= s * se * (1 + 2 / m)).
  { apply (Rmult_le_compat_r se) in Hhi; [| lra].
    unfold Rdiv in Hhi at 1. rewrite (Rmult_assoc mde), Rinv_l, Rmult_1_r in Hhi by lra.
    lra. }
  set (v := s * se) in *.
  assert (E1 : 1 - 2 / m = (m - 2) / m) by (field; lra).
  assert (E2 : 1 + 2 / m = (m + 2) / m) by (field; lra).
  rewrite E1 in Hlo'. rewrite E2 in Hhi'.
  split.
  - apply Rmult_le_reg_r with ((m + 2) / m); [apply Rdiv_lt_0_compat; lra |].
    replace (mde * m / (m + 2) * ((m + 2) / m)) with mde by (field; lra).
    exact Hhi'.
  - apply Rmult_le_reg_r with ((m - 2) / m); [apply Rdiv_lt_0_compat; lra |].
    replace (mde * m / (m - 2) * ((m - 2) / m)) with mde by (field; lra).
    exact Hlo'.
Qed.

Lemma mde_round_trip_within_rounding_witness :
  exists (n n1 n2 n1' n2' : Z) (mde' : R),
    calculate_sample_size softsign_ppf 0.1 0.75 50 0.5 = Returns (n, n1, n2) /\
    calculate_mde softsign_ppf n 50 0.75 0.5 = Returns (Fin mde', n1', n2') /\
    Rabs (IZR n1' - 200) < 2 /\ Rabs (IZR n2' - 200) < 2 /\
    0.1 * 50 / (50 + 2) <= mde' <= 0.1 * 50 / (50 - 2).
Proof.
  assert (Hz : softsign_ppf (1 - 0.5 / 2) = 1)
    by (replace (1 - 0.5 / 2) with 0.75 by lra; exact softsign_ppf_075).
  assert (Hraw : spec_nTotal_raw (softsign_ppf (1 - 0.5 / 2)) (softsign_ppf 0.75)
                   (50 / 100) 0.1 = 400)
    by (unfold spec_nTotal_raw; rewrite Hz, softsign_ppf_075; lra).
  destruct (mde_round_trip_within_rounding softsign_cdf softsign_ppf 0.1 0.75 50 0.5 50
              softsign_standard_normal ltac:(lra) ltac:(lra) ltac:(lra) ltac:(lra)
              ltac:(lra) ltac:(rewrite Hraw; lra) ltac:(rewrite Hraw; lra))
    as (n & n1 & n2 & n1' & n2' & mde' & H1 & H2 & H3 & H4 & H5).
  exists n, n1, n2, n1', n2', mde'.
  rewrite Hraw in H3, H4.
  replace (400 * (50 / 100)) with 200 in H3 by lra.
  replace (400 * (1 - 50 / 100)) with 200 in H4 by lra.
  repeat split; tauto.
Defined.
